(** * rough-py: sketch generation and fill patterns

    A shallow embedding of the sketch engine of rough-py
    ([rough/math.py], [rough/core.py], [rough/renderer.py],
    [rough/generator.py], [rough/fillers/*.py]) and the properties of its
    specification.

    Conventions of the embedding.
    - Python [int] is [Z]; Python [float] is an exact rational [Q]
      (arithmetic is exact, equality of numbers is [==]), with unbounded
      range: where Python would raise [OverflowError] or go on with
      [inf], the embedding goes on with the exact value, and the
      theorems about returning restrict their inputs instead.  Rounding
      is modelled where termination hangs on it: the sums [y += gap] of
      the scan-line sweep and [angle += increment] of the ellipse are
      rounded to 53 significant bits ([float_add]).
    - Functions of Python's [math] module that have no rational
      counterpart ([sqrt], [cos], [sin], [tan], [acos], [atan2], [pi])
      are variables of the sections that use them.
    - Effects are explicit: a [World] holds the [Random] objects of
      [rough/math.py] (a heap, so that option records that were copied
      attribute by attribute share one generator), the [_randgen]
      attribute of every options object, and the process-wide source
      behind [random.random()].  Computations live in the monad [M]:
      they read a loop budget, thread the world and may raise. *)

From Stdlib Require Import String Ascii.
From Stdlib Require Import ZArith QArith Qround Qabs Qpower List Bool Lia Lqa.
Import ListNotations.
Local Open Scope Z_scope.
Local Open Scope Q_scope.

Set Implicit Arguments.

(** ** Rational helpers *)

Definition Qleb (a b : Q) : bool := Qle_bool a b.
Definition Qltb (a b : Q) : bool := negb (Qle_bool b a).
Definition Qeqb (a b : Q) : bool := Qeq_bool a b.

(** Python's [max(a, b)] and [min(a, b)] on two numbers. *)
Definition Qmax (a b : Q) : Q := if Qltb a b then b else a.
Definition Qmin (a b : Q) : Q := if Qltb b a then b else a.

(** Python's [int(x)] on a float: truncation towards zero. *)
Definition Qtrunc (x : Q) : Z := if Qltb x 0 then Qceiling x else Qfloor x.

(** ** Float addition in a loop

    Numbers are exact rationals, except where a loop adds a step to its
    own variable ([y += gap], [angle += increment]): there the sum is
    rounded as the addition of two floats rounds it, to 53 significant
    bits, ties to even, so that a step too small for the magnitude of the
    variable is absorbed as it is in the program.  The exponent is not
    bounded: no subnormal numbers and no overflow. *)

(** The integer nearest to [s], ties to the even one. *)
Definition round_to_even (s : Q) : Z :=
  let f := Qfloor s in
  match Qcompare (s - inject_Z f) (1 # 2) with
  | Lt => f
  | Gt => (f + 1)%Z
  | Eq => if Z.even f then f else (f + 1)%Z
  end.

(** The exponent [e] of the last bit of a positive [x]:
    [2^52 <= x / 2^e < 2^53]. *)
Definition float_exponent (x : Q) : Z :=
  let e0 := (Z.log2 (Qnum x) - Z.log2 (Zpos (Qden x)) - 53)%Z in
  if Qltb (x * 2 ^ (- e0)) (2 ^ 53) then e0 else (e0 + 1)%Z.

(** The float nearest to [x]. *)
Definition round_float (x : Q) : Q :=
  let r := Qred x in
  if Qeqb r 0 then 0
  else
    let a := Qabs r in
    let e := float_exponent a in
    let m := inject_Z (round_to_even (a * 2 ^ (- e))) * 2 ^ e in
    Qred (if Qltb r 0 then - m else m).

(** [x + y] on floats. *)
Definition float_add (x y : Q) : Q := round_float (x + y).

(** ** Exceptions, worlds and the monad *)

Inductive exn : Type :=
| IndexError
| ZeroDivisionError.

(** [rands]: the [_state] of every [Random] object, by address.
    [randgen]: for every options object (by identity) its [_randgen]
    attribute, [None] while [hasattr(o, "_randgen")] is false.
    [entropy], [cursor]: the values [random.random()] returns, and how
    many of them were consumed. *)
Record World : Type := mkWorld {
  rands : list Z;
  randgen : list (option nat);
  entropy : nat -> Q;
  cursor : nat
}.

Inductive outcome (A : Type) : Type :=
| Ret (a : A) (w : World)
| Raise (e : exn)
| Timeout.
Arguments Raise {A} e.
Arguments Timeout {A}.

(** A computation reads the budget of loop iterations and the world. *)
Definition M (A : Type) : Type := nat -> World -> outcome A.

Definition ret {A} (a : A) : M A := fun _ w => Ret a w.

Definition bind {A B} (m : M A) (k : A -> M B) : M B :=
  fun fuel w =>
    match m fuel w with
    | Ret a w' => k a fuel w'
    | Raise e => Raise e
    | Timeout => Timeout
    end.

Definition raise {A} (e : exn) : M A := fun _ _ => Raise e.

Declare Scope monad_scope.
Delimit Scope monad_scope with monad.
Notation "x <- m ;; k" := (bind m (fun x => k))
  (at level 61, m at next level, right associativity) : monad_scope.
Notation "' pat <- m ;; k" := (bind m (fun x => match x with pat => k end))
  (at level 61, pat pattern, m at next level, right associativity) : monad_scope.
Notation "m ;;; k" := (bind m (fun _ => k))
  (at level 61, right associativity) : monad_scope.
Local Open Scope monad_scope.

(** [while cond: body] on a loop state [St]: every execution of the body
    takes one unit of the budget; the test itself is free. *)
Fixpoint while_loop {St} (cond : St -> bool) (body : St -> M St) (n : nat) (s : St) : M St :=
  if cond s then
    match n with
    | O => fun _ _ => Timeout
    | S n' => s' <- body s ;; while_loop cond body n' s'
    end
  else ret s.

Definition while {St} (cond : St -> bool) (body : St -> M St) (s : St) : M St :=
  fun fuel w => while_loop cond body fuel s fuel w.

(** [for x in xs: acc = body(acc, x)]. *)
Fixpoint for_each {A St} (xs : list A) (body : St -> A -> M St) (s : St) : M St :=
  match xs with
  | [] => ret s
  | x :: xs' => s' <- body s x ;; for_each xs' body s'
  end.

(** Python's [a / b] on floats raises on a zero divisor. *)
Definition pydiv (a b : Q) : M Q :=
  if Qeqb b 0 then raise ZeroDivisionError else ret (a / b).

(** ** [rough/math.py]: the seeded random source *)

Definition LCG_MULTIPLIER : Z := 48271.
Definition LCG_MODULUS : Z := 2147483647.

(** [random.random()]: the next value of the process-wide source. *)
Definition random_random : M Q :=
  fun _ w => Ret (entropy w (cursor w))
                 (mkWorld (rands w) (randgen w) (entropy w) (S (cursor w))).

(** Replace element [i] of a list (nothing happens out of range). *)
Fixpoint list_set {A} (l : list A) (i : nat) (v : A) : list A :=
  match l, i with
  | [], _ => []
  | _ :: l', O => v :: l'
  | x :: l', S i' => x :: list_set l' i' v
  end.

(** Element [i] of the attribute table set to [Some v]; the table grows
    when the object has no entry yet. *)
Fixpoint attr_set {A} (l : list (option A)) (i : nat) (v : A) : list (option A) :=
  match l, i with
  | [], O => [Some v]
  | [], S i' => None :: attr_set [] i' v
  | _ :: l', O => Some v :: l'
  | x :: l', S i' => x :: attr_set l' i' v
  end.

Definition attr_get {A} (l : list (option A)) (i : nat) : option A :=
  match nth_error l i with
  | Some a => a
  | None => None
  end.

(** [Random(seed)]: a new object whose [_state] is the seed; its address
    is returned.  (The field [seed] is never read again.) *)
Definition Random_new (seed0 : Z) : M nat :=
  fun _ w => Ret (length (rands w))
                 (mkWorld (rands w ++ [seed0]) (randgen w) (entropy w) (cursor w)).

Definition Random_state (r : nat) : M Z :=
  fun _ w => Ret (nth r (rands w) 0%Z) w.

Definition Random_set_state (r : nat) (s : Z) : M unit :=
  fun _ w => Ret tt (mkWorld (list_set (rands w) r s) (randgen w) (entropy w) (cursor w)).

(** [Random.next]. *)
Definition Random_next (r : nat) : M Q :=
  st <- Random_state r ;;
  if (st =? 0)%Z then random_random
  else
    let st' := ((st * LCG_MULTIPLIER) mod LCG_MODULUS)%Z in
    Random_set_state r st' ;;;
    ret (inject_Z st' / inject_Z LCG_MODULUS).

(** [n] successive calls of [next] on one generator, in order. *)
Fixpoint Random_next_n (r : nat) (n : nat) : M (list Q) :=
  match n with
  | O => ret []
  | S n' => x <- Random_next r ;; xs <- Random_next_n r n' ;; ret (x :: xs)
  end.

(** ** Python's [math] module

    The functions with no exact rational counterpart are fields of this
    interface; the rest is defined from them. *)
Class MathLib : Type := {
  math_sqrt : Q -> Q;
  math_cos : Q -> Q;
  math_sin : Q -> Q;
  math_tan : Q -> Q;
  math_acos : Q -> Q;
  math_atan2 : Q -> Q -> Q;
  math_pi : Q
}.

Definition math_radians `{MathLib} (deg : Q) : Q := deg * (math_pi / 180).
Definition math_ceil (x : Q) : Z := Qceiling x.
Definition math_floor (x : Q) : Z := Qfloor x.

(** [math.fmod(x, y)]: the remainder with the sign of [x]. *)
Definition math_fmod (x y : Q) : Q := x - y * inject_Z (Qtrunc (x / y)).

(** ** [rough/geometry.py] *)

Definition Point : Type := (Q * Q)%type.
Definition Line : Type := (Point * Point)%type.

Definition line_length `{MathLib} (line : Line) : Q :=
  let '(p1, p2) := line in
  math_sqrt ((fst p1 - fst p2) ^ 2 + (snd p1 - snd p2) ^ 2).

(** ** [rough/core.py] *)

(** The fields of [Options] the sketch engine reads (the font, gradient,
    line-dash and rounding fields belong to serialization). *)
Record Options : Type := mkOptions {
  maxRandomnessOffset : option Q;
  roughness : option Q;
  bowing : option Q;
  stroke : option string;
  strokeWidth : option Q;
  curveFitting : option Q;
  curveTightness : option Q;
  curveStepCount : option Z;
  fill : option string;
  fillStyle : option string;
  fillWeight : option Q;
  hachureAngle : option Q;
  hachureGap : option Q;
  dashOffset : option Q;
  dashGap : option Q;
  zigzagOffset : option Q;
  seed : Z;
  disableMultiStroke : option bool;
  disableMultiStrokeFill : option bool;
  preserveVertices : option bool;
  fillShapeRoughnessGain : option Q
}.

(** [Options()]: every argument left out. *)
Definition Options_init : Options :=
  mkOptions None None None None None None None None None None None
            None None None None None 0%Z None None None None.

(** An options object: its fields and its identity (the key of its
    [_randgen] attribute in the world). *)
Record ResolvedOptions : Type := mkResolved {
  fields :> Options;
  oid : nat
}.

(** Python truthiness of an optional flag and of an optional string. *)
Definition truthy (b : option bool) : bool :=
  match b with Some true => true | _ => false end.

Definition nonempty (s : option string) : bool :=
  match s with
  | Some s' => negb (String.eqb s' "")
  | None => false
  end.

Definition opt_is (s : option string) (v : string) : bool :=
  match s with Some s' => String.eqb s' v | None => false end.

Definition is_none {A} (x : option A) : bool :=
  match x with None => true | Some _ => false end.

Definition or_default {A} (x : option A) (d : A) : A :=
  match x with Some v => v | None => d end.

(** Field updates ([o.stroke = v] and the like). *)
Definition set_stroke (v : option string) (o : Options) : Options :=
  mkOptions (maxRandomnessOffset o) (roughness o) (bowing o) v (strokeWidth o)
    (curveFitting o) (curveTightness o) (curveStepCount o) (fill o) (fillStyle o)
    (fillWeight o) (hachureAngle o) (hachureGap o) (dashOffset o) (dashGap o)
    (zigzagOffset o) (seed o) (disableMultiStroke o) (disableMultiStrokeFill o)
    (preserveVertices o) (fillShapeRoughnessGain o).

Definition set_fill (v : option string) (o : Options) : Options :=
  mkOptions (maxRandomnessOffset o) (roughness o) (bowing o) (stroke o) (strokeWidth o)
    (curveFitting o) (curveTightness o) (curveStepCount o) v (fillStyle o)
    (fillWeight o) (hachureAngle o) (hachureGap o) (dashOffset o) (dashGap o)
    (zigzagOffset o) (seed o) (disableMultiStroke o) (disableMultiStrokeFill o)
    (preserveVertices o) (fillShapeRoughnessGain o).

Definition set_roughness (v : option Q) (o : Options) : Options :=
  mkOptions (maxRandomnessOffset o) v (bowing o) (stroke o) (strokeWidth o)
    (curveFitting o) (curveTightness o) (curveStepCount o) (fill o) (fillStyle o)
    (fillWeight o) (hachureAngle o) (hachureGap o) (dashOffset o) (dashGap o)
    (zigzagOffset o) (seed o) (disableMultiStroke o) (disableMultiStrokeFill o)
    (preserveVertices o) (fillShapeRoughnessGain o).

Definition set_hachureAngle (v : option Q) (o : Options) : Options :=
  mkOptions (maxRandomnessOffset o) (roughness o) (bowing o) (stroke o) (strokeWidth o)
    (curveFitting o) (curveTightness o) (curveStepCount o) (fill o) (fillStyle o)
    (fillWeight o) v (hachureGap o) (dashOffset o) (dashGap o)
    (zigzagOffset o) (seed o) (disableMultiStroke o) (disableMultiStrokeFill o)
    (preserveVertices o) (fillShapeRoughnessGain o).

Definition set_hachureGap (v : option Q) (o : Options) : Options :=
  mkOptions (maxRandomnessOffset o) (roughness o) (bowing o) (stroke o) (strokeWidth o)
    (curveFitting o) (curveTightness o) (curveStepCount o) (fill o) (fillStyle o)
    (fillWeight o) (hachureAngle o) v (dashOffset o) (dashGap o)
    (zigzagOffset o) (seed o) (disableMultiStroke o) (disableMultiStrokeFill o)
    (preserveVertices o) (fillShapeRoughnessGain o).

Definition set_seed (v : Z) (o : Options) : Options :=
  mkOptions (maxRandomnessOffset o) (roughness o) (bowing o) (stroke o) (strokeWidth o)
    (curveFitting o) (curveTightness o) (curveStepCount o) (fill o) (fillStyle o)
    (fillWeight o) (hachureAngle o) (hachureGap o) (dashOffset o) (dashGap o)
    (zigzagOffset o) v (disableMultiStroke o) (disableMultiStrokeFill o)
    (preserveVertices o) (fillShapeRoughnessGain o).

Definition set_disableMultiStroke (v : option bool) (o : Options) : Options :=
  mkOptions (maxRandomnessOffset o) (roughness o) (bowing o) (stroke o) (strokeWidth o)
    (curveFitting o) (curveTightness o) (curveStepCount o) (fill o) (fillStyle o)
    (fillWeight o) (hachureAngle o) (hachureGap o) (dashOffset o) (dashGap o)
    (zigzagOffset o) (seed o) v (disableMultiStrokeFill o)
    (preserveVertices o) (fillShapeRoughnessGain o).

(** The three checks that end [ResolvedOptions.__init__] and
    [RoughGenerator._o], in their order:
    1. a zero stroke width hides the stroke;
    2. a hidden stroke with an empty fill gets the default stroke;
    3. an empty fill with an empty or hidden stroke gets the default fill. *)
Definition empty_fill (f : option string) : bool :=
  is_none f || opt_is f "" || opt_is f "none".

Definition hide_zero_width_stroke (o : Options) : Options :=
  match strokeWidth o with
  | Some sw => if Qeqb sw 0 then set_stroke (Some "none"%string) o else o
  | None => o
  end.

Definition default_stroke_if_hidden (o : Options) : Options :=
  if (is_none (stroke o) || opt_is (stroke o) "none") && empty_fill (fill o)
  then set_stroke (Some "#000"%string) o else o.

Definition default_fill_if_empty (o : Options) : Options :=
  if empty_fill (fill o)
     && (is_none (stroke o) || opt_is (stroke o) "" || opt_is (stroke o) "none")
  then set_fill (Some "#0f0"%string) o else o.

Definition visibility_checks (o : Options) : Options :=
  default_fill_if_empty (default_stroke_if_hidden (hide_zero_width_stroke o)).

(** [if self.x is None: self.x = d]. *)
Definition defaulted {A} (x : option A) (d : A) : option A :=
  match x with Some v => Some v | None => Some d end.

(** The fields [ResolvedOptions.__init__] leaves behind: every argument of
    the base constructor is [None] (the seed 0), then each field gets its
    default, then the checks run. *)
Definition ResolvedOptions_fields : Options :=
  let o := Options_init in
  let stroke0 :=
    match stroke o with
    | None => Some "none"%string
    | Some s => Some (if String.eqb s "" then "#000"%string else s)
    end in
  visibility_checks
    (mkOptions
       (defaulted (maxRandomnessOffset o) 2)
       (defaulted (roughness o) 1)
       (defaulted (bowing o) 2)
       stroke0
       (defaulted (strokeWidth o) 2)
       (defaulted (curveFitting o) (95 # 100))
       (defaulted (curveTightness o) (1 # 10))
       (defaulted (curveStepCount o) 9%Z)
       (fill o)
       (defaulted (fillStyle o) "hachure"%string)
       (defaulted (fillWeight o) 1)
       (defaulted (hachureAngle o) (-41))
       (defaulted (hachureGap o) (35 # 10))
       (defaulted (dashOffset o) (-1))
       (defaulted (dashGap o) (-1))
       (defaulted (zigzagOffset o) (-1))
       (seed o)
       (defaulted (disableMultiStroke o) false)
       (defaulted (disableMultiStrokeFill o) false)
       (defaulted (preserveVertices o) false)
       (defaulted (fillShapeRoughnessGain o) (8 # 10))).

(** A new options object: no [_randgen] attribute yet. *)
Definition new_object : M nat :=
  fun _ w => Ret (List.length (randgen w))
                 (mkWorld (rands w) (randgen w ++ [None]) (entropy w) (cursor w)).

Definition ResolvedOptions_init : M ResolvedOptions :=
  i <- new_object ;; ret (mkResolved ResolvedOptions_fields i).

Definition get_randgen (o : ResolvedOptions) : M (option nat) :=
  fun _ w => Ret (attr_get (randgen w) (oid o)) w.

Definition set_randgen (i : nat) (r : nat) : M unit :=
  fun _ w => Ret tt (mkWorld (rands w) (attr_set (randgen w) i r) (entropy w) (cursor w)).

(** [c = ResolvedOptions(); for k, v in o.__dict__.items(): setattr(c, k, v)]:
    a new object with the fields of [o] and, when [o] has one, the very
    same generator. *)
Definition copy_options (o : ResolvedOptions) : M ResolvedOptions :=
  c <- ResolvedOptions_init ;;
  g <- get_randgen o ;;
  match g with
  | Some r => set_randgen (oid c) r ;;; ret (mkResolved (fields o) (oid c))
  | None => ret (mkResolved (fields o) (oid c))
  end.

(** [setattr(ro, k, v)] for the attributes of [src] that are not [None]. *)
Definition merge_field {A} (base local : option A) : option A :=
  match local with Some v => Some v | None => base end.

Definition merge_options (base src : Options) : Options :=
  mkOptions
    (merge_field (maxRandomnessOffset base) (maxRandomnessOffset src))
    (merge_field (roughness base) (roughness src))
    (merge_field (bowing base) (bowing src))
    (merge_field (stroke base) (stroke src))
    (merge_field (strokeWidth base) (strokeWidth src))
    (merge_field (curveFitting base) (curveFitting src))
    (merge_field (curveTightness base) (curveTightness src))
    (merge_field (curveStepCount base) (curveStepCount src))
    (merge_field (fill base) (fill src))
    (merge_field (fillStyle base) (fillStyle src))
    (merge_field (fillWeight base) (fillWeight src))
    (merge_field (hachureAngle base) (hachureAngle src))
    (merge_field (hachureGap base) (hachureGap src))
    (merge_field (dashOffset base) (dashOffset src))
    (merge_field (dashGap base) (dashGap src))
    (merge_field (zigzagOffset base) (zigzagOffset src))
    (seed src)
    (merge_field (disableMultiStroke base) (disableMultiStroke src))
    (merge_field (disableMultiStrokeFill base) (disableMultiStrokeFill src))
    (merge_field (preserveVertices base) (preserveVertices src))
    (merge_field (fillShapeRoughnessGain base) (fillShapeRoughnessGain src)).

(** [Op], [OpSet], [Drawable]. *)
Inductive OpKind : Type := move | lineTo | bcurveTo.

Record Op : Type := mkOp { op : OpKind; data : list Q }.

Inductive OpSetType : Type := pathSet | fillPathSet | fillSketchSet.

Record OpSet : Type := mkOpSet { type_ : OpSetType; ops : list Op }.

Record Drawable : Type := mkDrawable {
  shape : string;
  options : ResolvedOptions;
  sets : list OpSet
}.

(** ** [rough/renderer.py]: the random offsets and the line *)

Section Renderer.
Context `{MathLib}.

(** [randomFloat]: the generator of [o], created from [o.seed] on first use. *)
Definition randomFloat (o : ResolvedOptions) : M Q :=
  g <- get_randgen o ;;
  r <- match g with
       | Some r => ret r
       | None => r <- Random_new (seed o) ;; set_randgen (oid o) r ;;; ret r
       end ;;
  Random_next r.

Definition offsetRange (minv maxv : Q) (o : ResolvedOptions) (gain : Q) : M Q :=
  let r := or_default (roughness o) 1 in
  u <- randomFloat o ;;
  ret (r * gain * (u * (maxv - minv) + minv)).

Definition offsetOpt (x : Q) (o : ResolvedOptions) (gain : Q) : M Q :=
  offsetRange (- x) x o gain.

Definition randOffset (x : Q) (o : ResolvedOptions) : M Q := offsetOpt x o 1.

Definition randOffsetWithRange (min_val max_val : Q) (o : ResolvedOptions) : M Q :=
  offsetRange min_val max_val o 1.

(** [0.0 if o.preserveVertices else r()]. *)
Definition unless_preserved (o : ResolvedOptions) (r : M Q) : M Q :=
  if truthy (preserveVertices o) then ret 0 else r.

(** The gain of [lineOps] as a function of the segment length. *)
Definition roughnessGain (length : Q) : Q :=
  if Qltb 500 length then 4 # 10
  else if Qleb 200 length then (- (16668 # 10000000)) * length + (1233334 # 1000000)
  else 1.

Definition lineOps (x1 y1 x2 y2 : Q) (o : ResolvedOptions) (move_ overlay : bool)
  : M (list Op) :=
  let lengthSq := (x1 - x2) ^ 2 + (y1 - y2) ^ 2 in
  let length := math_sqrt lengthSq in
  let gain := roughnessGain length in
  let moff0 := or_default (maxRandomnessOffset o) 2 in
  let moff := if Qltb lengthSq (moff0 * moff0 * 100) then length / 10 else moff0 in
  let halfOffset := moff / 2 in
  u <- randomFloat o ;;
  let divergePoint := (2 # 10) + u * (2 # 10) in
  let bowv := or_default (bowing o) 1 in
  midDispX <- offsetOpt (bowv * moff * (y2 - y1) / 200) o gain ;;
  midDispY <- offsetOpt (bowv * moff * (x1 - x2) / 200) o gain ;;
  let randomHalf := offsetOpt halfOffset o gain in
  let randomFull := offsetOpt moff o gain in
  let rnd := if overlay then randomHalf else randomFull in
  ops1 <- (if move_ then
             dx <- unless_preserved o rnd ;;
             dy <- unless_preserved o rnd ;;
             ret [mkOp move [x1 + dx; y1 + dy]]
           else ret []) ;;
  let c1x := midDispX + x1 + (x2 - x1) * divergePoint in
  let c1y := midDispY + y1 + (y2 - y1) * divergePoint in
  let c2x := midDispX + x1 + 2 * (x2 - x1) * divergePoint in
  let c2y := midDispY + y1 + 2 * (y2 - y1) * divergePoint in
  r1 <- rnd ;; r2 <- rnd ;; r3 <- rnd ;; r4 <- rnd ;;
  ex <- unless_preserved o rnd ;;
  ey <- unless_preserved o rnd ;;
  ret (ops1 ++ [mkOp bcurveTo [c1x + r1; c1y + r2; c2x + r3; c2y + r4; x2 + ex; y2 + ey]]).

Definition doubleLine (x1 y1 x2 y2 : Q) (o : ResolvedOptions) (filling : bool)
  : M (list Op) :=
  let singleStroke :=
    if filling then truthy (disableMultiStrokeFill o) else truthy (disableMultiStroke o) in
  first <- lineOps x1 y1 x2 y2 o true false ;;
  if singleStroke then ret first
  else second <- lineOps x1 y1 x2 y2 o true true ;; ret (first ++ second).

Definition doubleLineFillOps (x1 y1 x2 y2 : Q) (o : ResolvedOptions) : M (list Op) :=
  doubleLine x1 y1 x2 y2 o true.

Definition line (x1 y1 x2 y2 : Q) (o : ResolvedOptions) : M OpSet :=
  l <- doubleLine x1 y1 x2 y2 o false ;; ret (mkOpSet pathSet l).

(** The consecutive pairs [(points[i], points[i+1])]. *)
Fixpoint consecutive (points : list Point) : list (Point * Point) :=
  match points with
  | p :: (q :: _) as rest => (p, q) :: consecutive rest
  | _ => []
  end.

Definition extend_doubleLine (o : ResolvedOptions) (acc : list Op) (e : Point * Point)
  : M (list Op) :=
  let '(p, q) := e in
  l <- doubleLine (fst p) (snd p) (fst q) (snd q) o false ;; ret (acc ++ l).

Definition linearPath (points : list Point) (close : bool) (o : ResolvedOptions)
  : M OpSet :=
  match points with
  | [] | [_] => ret (mkOpSet pathSet [])
  | [p; q] =>
      l <- doubleLine (fst p) (snd p) (fst q) (snd q) o false ;; ret (mkOpSet pathSet l)
  | p0 :: _ =>
      l <- for_each (consecutive points) (extend_doubleLine o) [] ;;
      l' <- (if close
             then extend_doubleLine o l (List.last points p0, p0)
             else ret l) ;;
      ret (mkOpSet pathSet l')
  end.

Definition polygon (points : list Point) (o : ResolvedOptions) : M OpSet :=
  linearPath points true o.

Definition rectangle (x y width height : Q) (o : ResolvedOptions) : M OpSet :=
  polygon [(x, y); (x + width, y); (x + width, y + height); (x, y + height)] o.

End Renderer.

(** ** The recurrence of the specification

    [s_0 = s], [s_(n+1) = (s_n * 48271) mod (2^31 - 1)]. *)
Fixpoint spec_lcg_state (s : Z) (n : nat) : Z :=
  match n with
  | O => s
  | S n' => ((spec_lcg_state s n' * 48271) mod (2 ^ 31 - 1))%Z
  end.

(** What the [k]-th call of [next()] returns according to the
    specification, for [k = 1, 2, ...]. *)
Definition spec_lcg_output (s : Z) (k : nat) : Q :=
  inject_Z (spec_lcg_state s k) / inject_Z (2 ^ 31 - 1).

(** ** [rough/renderer.py]: curves, ellipses and arcs *)

Section RendererCurves.
Context `{MathLib}.

(** The Catmull-Rom pieces of [curveOps]: one [bcurveTo] for each window
    [points[i-1], points[i], points[i+1], points[i+2]]. *)
Fixpoint catmull_rom (s : Q) (points : list Point) : list Op :=
  match points with
  | pm :: ((pi :: pn :: pnn :: _) as rest) =>
      mkOp bcurveTo
        [fst pi + (s * (fst pn - fst pm)) / 6; snd pi + (s * (snd pn - snd pm)) / 6;
         fst pn + (s * (fst pi - fst pnn)) / 6; snd pn + (s * (snd pi - snd pnn)) / 6;
         fst pn; snd pn]
      :: catmull_rom s rest
  | _ => []
  end.

Definition curveOps (points : list Point) (closePoint : option Point)
  (o : ResolvedOptions) : M (list Op) :=
  let cTight := or_default (curveTightness o) 0 in
  match points with
  | _ :: p1 :: _ :: _ :: _ =>
      let s := 1 - cTight in
      let ops0 := mkOp move [fst p1; snd p1] :: catmull_rom s points in
      match closePoint with
      | Some cp =>
          let ro := or_default (maxRandomnessOffset o) 2 in
          dx <- offsetOpt ro o 1 ;;
          dy <- offsetOpt ro o 1 ;;
          ret (ops0 ++ [mkOp lineTo [fst cp + dx; snd cp + dy]])
      | None => ret ops0
      end
  | [_; p1; p2] =>
      ret [mkOp move [fst p1; snd p1];
           mkOp bcurveTo [fst p1; snd p1; fst p2; snd p2; fst p2; snd p2]]
  | [p0; p1] => lineOps (fst p0) (snd p0) (fst p1) (snd p1) o true true
  | _ => ret []
  end.

Definition offset_point (offset : Q) (o : ResolvedOptions) (p : Point) : M Point :=
  dx <- offsetOpt offset o 1 ;;
  dy <- offsetOpt offset o 1 ;;
  ret (fst p + dx, snd p + dy).

(** The loop of [curveWithOffset] over [points[1:]]; the last point is
    appended twice. *)
Fixpoint curveWithOffset_rest (offset : Q) (o : ResolvedOptions) (rest : list Point)
  : M (list Point) :=
  match rest with
  | [] => ret []
  | [p] => q <- offset_point offset o p ;; ret [q; q]
  | p :: rest' =>
      q <- offset_point offset o p ;;
      qs <- curveWithOffset_rest offset o rest' ;;
      ret (q :: qs)
  end.

Definition curveWithOffset (points : list Point) (offset : Q) (o : ResolvedOptions)
  : M (list Op) :=
  match points with
  | [] => ret []
  | p0 :: rest =>
      a <- offset_point offset o p0 ;;
      b <- offset_point offset o p0 ;;
      qs <- curveWithOffset_rest offset o rest ;;
      curveOps (a :: b :: qs) None o
  end.

(** [cloneOptionsSeed]: a new object with the fields of [o], the seed
    plus one and no generator of its own yet. *)
Definition cloneOptionsSeed (o : ResolvedOptions) : M ResolvedOptions :=
  c <- ResolvedOptions_init ;;
  ret (mkResolved (set_seed (seed o + 1)%Z o) (oid c)).

(** The argument of [curve]: one list of points, or a list of them. *)
Inductive CurveInput : Type :=
| CurvePoints (points : list Point)
| CurveSegments (segments : list (list Point)).

(** [under + over] for one list of points. *)
Definition curve_passes (points : list Point) (o : ResolvedOptions)
  : M (list Op * list Op) :=
  let r := or_default (roughness o) 1 in
  let amt1 := 1 * (1 + r * (2 # 10)) in
  let amt2 := if truthy (disableMultiStroke o) then 0
              else (15 # 10) * (1 + r * (22 # 100)) in
  under <- curveWithOffset points amt1 o ;;
  over <- (if truthy (disableMultiStroke o) then ret []
           else c <- cloneOptionsSeed o ;; curveWithOffset points amt2 c) ;;
  ret (under, over).

(** [for i, op in enumerate(l): if i == 0 and op.op == "move": continue]. *)
Definition drop_leading_move (l : list Op) : list Op :=
  match l with
  | mkOp move _ :: rest => rest
  | _ => l
  end.

Definition curve_segment (o : ResolvedOptions) (st : bool * list Op) (pset : list Point)
  : M (bool * list Op) :=
  let '(first_segment, all_ops) := st in
  '(under, over2) <- curve_passes pset o ;;
  if first_segment then ret (false, all_ops ++ under ++ over2)
  else ret (false, all_ops ++ drop_leading_move under ++ drop_leading_move over2).

Definition curve (points : CurveInput) (o : ResolvedOptions) : M OpSet :=
  match points with
  | CurvePoints [] | CurveSegments [] => ret (mkOpSet pathSet [])
  | CurvePoints pts =>
      '(under, over) <- curve_passes pts o ;;
      ret (mkOpSet pathSet (under ++ over))
  | CurveSegments ([] :: _) => raise IndexError
  | CurveSegments segs =>
      '(_, all_ops) <- for_each segs (curve_segment o) (true, []) ;;
      ret (mkOpSet pathSet all_ops)
  end.

End RendererCurves.

Section RendererEllipse.
Context `{MathLib}.

Record EllipseParams : Type := mkEllipseParams {
  ep_rx : Q;
  ep_ry : Q;
  ep_increment : Q
}.

Definition generateEllipseParams (width height : Q) (o : ResolvedOptions)
  : M EllipseParams :=
  let cstep := or_default (curveStepCount o) 9%Z in
  let cfitting := or_default (curveFitting o) (95 # 100) in
  let psq := math_sqrt (math_pi * 2
                        * math_sqrt (((width / 2) ^ 2 + (height / 2) ^ 2) / 2)) in
  let stepCount := Z.max cstep (Qtrunc ((inject_Z cstep / math_sqrt 200) * psq)) in
  inc <- pydiv (math_pi * 2) (inject_Z stepCount) ;;
  let rx := Qabs (width / 2) in
  let ry := Qabs (height / 2) in
  let curveFit := 1 - cfitting in
  dx <- offsetOpt (rx * curveFit) o 1 ;;
  dy <- offsetOpt (ry * curveFit) o 1 ;;
  ret (mkEllipseParams (rx + dx) (ry + dy) inc).

(** The loop state of [computeEllipsePoints]: the angle, [allPoints] and
    [corePoints]. *)
Definition EllipseLoop : Type := (Q * list Point * list Point)%type.

Definition computeEllipsePoints (increment cx cy rx ry offset overlap : Q)
  (o : ResolvedOptions) : M (list Point * list Point) :=
  let coreOnly := match roughness o with Some r => Qeqb r 0 | None => false end in
  if coreOnly then
    let inc := increment / 4 in
    let all0 := [(cx + rx * math_cos (- inc), cy + ry * math_sin (- inc))] in
    '(_, allPoints, corePoints) <-
      while (fun st : EllipseLoop => let '(angle, _, _) := st in Qleb angle (math_pi * 2))
            (fun st : EllipseLoop =>
               let '(angle, allP, coreP) := st in
               let p := (cx + rx * math_cos angle, cy + ry * math_sin angle) in
               ret (float_add angle inc, allP ++ [p], coreP ++ [p]))
            (0, all0, []) ;;
    ret (allPoints ++ [(cx + rx * math_cos 0, cy + ry * math_sin 0);
                       (cx + rx * math_cos inc, cy + ry * math_sin inc)],
         corePoints)
  else
    r0 <- offsetOpt (5 # 10) o 1 ;;
    let radOffset := r0 - math_pi / 2 in
    ax <- offsetOpt offset o 1 ;;
    ay <- offsetOpt offset o 1 ;;
    let all0 := [(ax + cx + (9 # 10) * rx * math_cos (radOffset - increment),
                  ay + cy + (9 # 10) * ry * math_sin (radOffset - increment))] in
    let endAngle := math_pi * 2 + radOffset - (1 # 100) in
    '(_, allPoints, corePoints) <-
      while (fun st : EllipseLoop => let '(angle, _, _) := st in Qltb angle endAngle)
            (fun st : EllipseLoop =>
               let '(angle, allP, coreP) := st in
               dx <- offsetOpt offset o 1 ;;
               dy <- offsetOpt offset o 1 ;;
               let p := (dx + cx + rx * math_cos angle, dy + cy + ry * math_sin angle) in
               ret (float_add angle increment, allP ++ [p], coreP ++ [p]))
            (radOffset, all0, []) ;;
    bx <- offsetOpt offset o 1 ;;
    by_ <- offsetOpt offset o 1 ;;
    ex <- offsetOpt offset o 1 ;;
    ey <- offsetOpt offset o 1 ;;
    fx <- offsetOpt offset o 1 ;;
    fy <- offsetOpt offset o 1 ;;
    ret (allPoints ++
           [(bx + cx + rx * math_cos (radOffset + math_pi * 2 + overlap * (5 # 10)),
             by_ + cy + ry * math_sin (radOffset + math_pi * 2 + overlap * (5 # 10)));
            (ex + cx + (98 # 100) * rx * math_cos (radOffset + overlap),
             ey + cy + (98 # 100) * ry * math_sin (radOffset + overlap));
            (fx + cx + (9 # 10) * rx * math_cos (radOffset + overlap * (5 # 10)),
             fy + cy + (9 # 10) * ry * math_sin (radOffset + overlap * (5 # 10)))],
         corePoints).

Definition ellipseWithParams (x y : Q) (o : ResolvedOptions) (ep : EllipseParams)
  : M (OpSet * list Point) :=
  inner <- offsetRange (4 # 10) 1 o 1 ;;
  outer <- offsetRange (1 # 10) inner o 1 ;;
  '(ap1, cp1) <- computeEllipsePoints (ep_increment ep) x y (ep_rx ep) (ep_ry ep)
                   1 (ep_increment ep * outer) o ;;
  c_ops <- curveOps ap1 None o ;;
  let second := negb (truthy (disableMultiStroke o))
                && match roughness o with Some r => negb (Qeqb r 0) | None => true end in
  if second then
    '(ap2, _) <- computeEllipsePoints (ep_increment ep) x y (ep_rx ep) (ep_ry ep)
                   (15 # 10) 0 o ;;
    c_ops2 <- curveOps ap2 None o ;;
    ret (mkOpSet pathSet (c_ops ++ c_ops2), cp1)
  else ret (mkOpSet pathSet c_ops, cp1).

Definition ellipse (x y width height : Q) (o : ResolvedOptions) : M OpSet :=
  ep <- generateEllipseParams width height o ;;
  '(e_ops, _) <- ellipseWithParams x y o ep ;;
  ret e_ops.

(** The angle normalisation of [arc] and [patternFillArc]:
    [while strt < 0: strt += 2*pi; stp += 2*pi], then a sweep of more than
    a turn becomes [(0, 2*pi)]. *)
Definition normalize_angles (start stop : Q) : M (Q * Q) :=
  '(strt, stp) <-
    while (fun a : Q * Q => Qltb (fst a) 0)
          (fun a : Q * Q => ret (fst a + math_pi * 2, snd a + math_pi * 2))
          (start, stop) ;;
  if Qltb (math_pi * 2) (stp - strt) then ret (0, math_pi * 2) else ret (strt, stp).

Definition arcOps (arcInc cx cy rx ry strt stp offset : Q) (o : ResolvedOptions)
  : M (list Op) :=
  r0 <- offsetOpt (1 # 10) o 1 ;;
  let radOffset := strt + r0 in
  let p0 := (cx + (9 # 10) * rx * math_cos (radOffset - arcInc),
             cy + (9 # 10) * ry * math_sin (radOffset - arcInc)) in
  '(_, points) <-
    while (fun st : Q * list Point => Qleb (fst st) stp)
          (fun st : Q * list Point =>
             let '(angle, pts) := st in
             dx <- offsetOpt offset o 1 ;;
             dy <- offsetOpt offset o 1 ;;
             ret (angle + arcInc,
                  pts ++ [(dx + cx + rx * math_cos angle, dy + cy + ry * math_sin angle)]))
          (radOffset, [p0]) ;;
  let last := (cx + rx * math_cos stp, cy + ry * math_sin stp) in
  curveOps (points ++ [last; last]) None o.

Definition arc (x y width height start stop : Q) (closed roughClosure : bool)
  (o : ResolvedOptions) : M OpSet :=
  let rx0 := Qabs (width / 2) in
  let ry0 := Qabs (height / 2) in
  dx <- offsetOpt (rx0 * (1 # 100)) o 1 ;;
  dy <- offsetOpt (ry0 * (1 # 100)) o 1 ;;
  let rx := rx0 + dx in
  let ry := ry0 + dy in
  '(strt, stp) <- normalize_angles start stop ;;
  let cstep := or_default (curveStepCount o) 9%Z in
  ellipseInc <- pydiv (math_pi * 2) (inject_Z cstep) ;;
  let arcInc := Qmin (ellipseInc / 2) ((stp - strt) / 2) in
  ops1 <- arcOps arcInc x y rx ry strt stp 1 o ;;
  ops2 <- (if truthy (disableMultiStroke o) then ret []
           else arcOps arcInc x y rx ry strt stp (15 # 10) o) ;;
  let ops12 := ops1 ++ ops2 in
  if closed then
    if roughClosure then
      l1 <- doubleLine x y (x + rx * math_cos strt) (y + ry * math_sin strt) o false ;;
      l2 <- doubleLine x y (x + rx * math_cos stp) (y + ry * math_sin stp) o false ;;
      ret (mkOpSet pathSet (ops12 ++ l1 ++ l2))
    else
      ret (mkOpSet pathSet
             (ops12 ++ [mkOp lineTo [x; y];
                        mkOp lineTo [x + rx * math_cos strt; y + ry * math_sin strt]]))
  else ret (mkOpSet pathSet ops12).

End RendererEllipse.

(** ** [rough/renderer.py]: reading path data *)

Local Open Scope char_scope.

(** The characters [\s] and [str.strip] treat as blank (ASCII part). *)
Definition is_space (c : ascii) : bool :=
  let n := nat_of_ascii c in
  ((9 <=? n) && (n <=? 13) || (28 <=? n) && (n <=? 32))%nat.

(** The class [[aAcChHlLmMqQsStTvVzZ]]. *)
Definition is_cmd_char (c : ascii) : bool :=
  existsb (Ascii.eqb c)
    ["a"; "A"; "c"; "C"; "h"; "H"; "l"; "L"; "m"; "M";
     "q"; "Q"; "s"; "S"; "t"; "T"; "v"; "V"; "z"; "Z"].

Fixpoint lstrip (s : string) : string :=
  match s with
  | String c s' => if is_space c then lstrip s' else s
  | EmptyString => s
  end.

Fixpoint string_rev_onto (s acc : string) : string :=
  match s with
  | String c s' => string_rev_onto s' (String c acc)
  | EmptyString => acc
  end.

Definition string_rev (s : string) : string := string_rev_onto s EmptyString.

(** [s.strip()]. *)
Definition strip (s : string) : string :=
  string_rev (lstrip (string_rev (lstrip s))).

(** [d.replace(",", " ")]. *)
Fixpoint replace_commas (s : string) : string :=
  match s with
  | String c s' => String (if Ascii.eqb c "," then " " else c) (replace_commas s')
  | EmptyString => EmptyString
  end.

(** [re.sub(r"([aAcChHlLmMqQsStTvVzZ])", r" \1 ", d)]. *)
Fixpoint pad_commands (s : string) : string :=
  match s with
  | String c s' =>
      if is_cmd_char c then String " " (String c (String " " (pad_commands s')))
      else String c (pad_commands s')
  | EmptyString => EmptyString
  end.

(** [re.sub(r"\s+", " ", d)]; [in_run] tells that the previous character
    was blank. *)
Fixpoint collapse_spaces (in_run : bool) (s : string) : string :=
  match s with
  | String c s' =>
      if is_space c then
        if in_run then collapse_spaces true s' else String " " (collapse_spaces true s')
      else String c (collapse_spaces false s')
  | EmptyString => EmptyString
  end.

(** [d.split(" ")]: the pieces between single spaces (the empty string
    gives one empty piece). *)
Fixpoint split_spaces (s : string) (cur : string) : list string :=
  match s with
  | String c s' =>
      if Ascii.eqb c " " then string_rev cur :: split_spaces s' EmptyString
      else split_spaces s' (String c cur)
  | EmptyString => [string_rev cur]
  end.

Definition tokenize (d : string) : list string :=
  split_spaces (strip (collapse_spaces false (pad_commands (replace_commas d)))) EmptyString.

(** [is_cmd]: the token is one command letter. *)
Definition is_cmd (t : string) : option ascii :=
  match t with
  | String c EmptyString => if is_cmd_char c then Some c else None
  | _ => None
  end.

(** *** [float(t)] on a token

    Decimal literals: an optional sign, digits with an optional fraction
    (or a fraction alone), an optional exponent; single underscores may
    separate digits.  [None] is [ValueError].  (The spellings of infinity
    have no rational value and are read as malformed.) *)
Definition digit_of (c : ascii) : option Z :=
  let n := nat_of_ascii c in
  if ((48 <=? n) && (n <=? 57))%nat then Some (Z.of_nat (n - 48)) else None.

Fixpoint digitpart_tail (s : string) (acc : Z) (n : nat) : Z * nat * string :=
  match s with
  | String c s' =>
      match digit_of c with
      | Some d => digitpart_tail s' (acc * 10 + d)%Z (S n)
      | None =>
          if Ascii.eqb c "_" then
            match s' with
            | String c2 s'' =>
                match digit_of c2 with
                | Some d => digitpart_tail s'' (acc * 10 + d)%Z (S n)
                | None => (acc, n, s)
                end
            | EmptyString => (acc, n, s)
            end
          else (acc, n, s)
      end
  | EmptyString => (acc, n, s)
  end.

(** A run of digits: its value, how many digits, what follows. *)
Definition digitpart (s : string) : option (Z * nat * string) :=
  match s with
  | String c s' =>
      match digit_of c with
      | Some d => Some (digitpart_tail s' d 1%nat)
      | None => None
      end
  | EmptyString => None
  end.

(** The exponent, when the rest of the token is one. *)
Definition read_exponent (s : string) : option Z :=
  match s with
  | EmptyString => Some 0%Z
  | String c s' =>
      if Ascii.eqb c "e" || Ascii.eqb c "E" then
        let '(neg, s1) :=
          match s' with
          | String "-" r => (true, r)
          | String "+" r => (false, r)
          | _ => (false, s')
          end in
        match digitpart s1 with
        | Some (e, _, EmptyString) => Some (if neg then (- e)%Z else e)
        | _ => None
        end
      else None
  end.

Definition float_of_string (t : string) : option Q :=
  let '(neg, s) :=
    match t with
    | String "-" r => (true, r)
    | String "+" r => (false, r)
    | _ => (false, t)
    end in
  let mantissa : option (Z * nat * string) :=
    match digitpart s with
    | Some (ip, _, String "." r) =>
        match digitpart r with
        | Some (fp, fl, r') => Some ((ip * 10 ^ Z.of_nat fl + fp)%Z, fl, r')
        | None => Some (ip, 0%nat, r)
        end
    | Some (ip, _, r) => Some (ip, 0%nat, r)
    | None =>
        match s with
        | String "." r =>
            match digitpart r with
            | Some (fp, fl, r') => Some (fp, fl, r')
            | None => None
            end
        | _ => None
        end
    end in
  match mantissa with
  | Some (m, fl, r) =>
      match read_exponent r with
      | Some e =>
          let v := inject_Z m * Qpower 10 (e - Z.of_nat fl) in
          Some (if neg then - v else v)
      | None => None
      end
  | None => None
  end.

Local Close Scope char_scope.

(** A parsed command: its letter and the numbers that follow it. *)
Definition Segment : Type := (ascii * list Q)%type.

(** [segs[-1].append(val)]; an empty list has no last element. *)
Fixpoint append_to_last (segs : list Segment) (val : Q) : option (list Segment) :=
  match segs with
  | [] => None
  | [(c, nums)] => Some [(c, nums ++ [val])]
  | sg :: rest =>
      match append_to_last rest val with
      | Some rest' => Some (sg :: rest')
      | None => None
      end
  end.

Definition parse_token (segs : list Segment) (t : string) : M (list Segment) :=
  match is_cmd t with
  | Some c => ret (segs ++ [(c, [])])
  | None =>
      match float_of_string t with
      | Some val =>
          match append_to_last segs val with
          | Some segs' => ret segs'
          | None => raise IndexError
          end
      | None => ret segs
      end
  end.

Definition parsePathCommands (d : string) : M (list Segment) :=
  for_each (tokenize d) parse_token [].

(** An absolute command, as [toAbsolute] emits them. *)
Inductive AbsSegment : Type :=
| AbsM (x y : Q)
| AbsL (x y : Q)
| AbsH (x : Q)
| AbsV (y : Q)
| AbsC (cx1 cy1 cx2 cy2 x3 y3 : Q)
| AbsQ (qx qy x3 y3 : Q)
| AbsA (rx ry xrot laf swf ex ey : Q)
| AbsZ.

Definition is_lower (c : ascii) : bool :=
  let n := nat_of_ascii c in ((97 <=? n) && (n <=? 122))%nat.

Definition upper (c : ascii) : ascii :=
  if is_lower c then ascii_of_nat (nat_of_ascii c - 32) else c.

(** The state of [toAbsolute]: [current], [first], [result]. *)
Record AbsState : Type := mkAbsState {
  abs_current : Point;
  abs_first : Point;
  abs_result : list AbsSegment
}.

Definition rel (isLower : bool) (base v : Q) : Q := if isLower then v + base else v.

(** The argument loops of [toAbsolute], one command letter each. *)
Fixpoint abs_moves (isLower : bool) (nums : list Q) (st : AbsState) : AbsState :=
  match nums with
  | x0 :: y0 :: rest =>
      let x := rel isLower (fst (abs_current st)) x0 in
      let y := rel isLower (snd (abs_current st)) y0 in
      let first' := match abs_result st with [] => (x, y) | _ => abs_first st end in
      abs_moves isLower rest (mkAbsState (x, y) first' (abs_result st ++ [AbsM x y]))
  | _ => st
  end.

Fixpoint abs_lines (isLower : bool) (nums : list Q) (st : AbsState) : AbsState :=
  match nums with
  | x0 :: y0 :: rest =>
      let x := rel isLower (fst (abs_current st)) x0 in
      let y := rel isLower (snd (abs_current st)) y0 in
      abs_lines isLower rest (mkAbsState (x, y) (abs_first st) (abs_result st ++ [AbsL x y]))
  | _ => st
  end.

Fixpoint abs_horizontals (isLower : bool) (nums : list Q) (st : AbsState) : AbsState :=
  match nums with
  | v :: rest =>
      let vx := rel isLower (fst (abs_current st)) v in
      abs_horizontals isLower rest
        (mkAbsState (vx, snd (abs_current st)) (abs_first st) (abs_result st ++ [AbsH vx]))
  | [] => st
  end.

Fixpoint abs_verticals (isLower : bool) (nums : list Q) (st : AbsState) : AbsState :=
  match nums with
  | v :: rest =>
      let vy := rel isLower (snd (abs_current st)) v in
      abs_verticals isLower rest
        (mkAbsState (fst (abs_current st), vy) (abs_first st) (abs_result st ++ [AbsV vy]))
  | [] => st
  end.

Fixpoint abs_cubics (isLower : bool) (nums : list Q) (st : AbsState) : AbsState :=
  match nums with
  | a :: b :: c :: d :: e :: f :: rest =>
      let cx := fst (abs_current st) in
      let cy := snd (abs_current st) in
      let x3 := rel isLower cx e in
      let y3 := rel isLower cy f in
      abs_cubics isLower rest
        (mkAbsState (x3, y3) (abs_first st)
           (abs_result st ++ [AbsC (rel isLower cx a) (rel isLower cy b)
                                   (rel isLower cx c) (rel isLower cy d) x3 y3]))
  | _ => st
  end.

Fixpoint abs_quadratics (isLower : bool) (nums : list Q) (st : AbsState) : AbsState :=
  match nums with
  | a :: b :: e :: f :: rest =>
      let cx := fst (abs_current st) in
      let cy := snd (abs_current st) in
      let x3 := rel isLower cx e in
      let y3 := rel isLower cy f in
      abs_quadratics isLower rest
        (mkAbsState (x3, y3) (abs_first st)
           (abs_result st ++ [AbsQ (rel isLower cx a) (rel isLower cy b) x3 y3]))
  | _ => st
  end.

Fixpoint abs_arcs (isLower : bool) (nums : list Q) (st : AbsState) : AbsState :=
  match nums with
  | rx :: ry :: xrot :: laf :: swf :: e :: f :: rest =>
      let ex := rel isLower (fst (abs_current st)) e in
      let ey := rel isLower (snd (abs_current st)) f in
      abs_arcs isLower rest
        (mkAbsState (ex, ey) (abs_first st)
           (abs_result st ++ [AbsA rx ry xrot laf swf ex ey]))
  | _ => st
  end.

Local Open Scope char_scope.

Definition toAbsolute_step (st : AbsState) (seg : Segment) : AbsState :=
  let '(cmd, nums) := seg in
  let isLower := is_lower cmd in
  let upcmd := upper cmd in
  if Ascii.eqb upcmd "M" then
    let st' := abs_moves isLower nums st in
    mkAbsState (abs_current st') (abs_current st') (abs_result st')
  else if Ascii.eqb upcmd "L" then abs_lines isLower nums st
  else if Ascii.eqb upcmd "H" then abs_horizontals isLower nums st
  else if Ascii.eqb upcmd "V" then abs_verticals isLower nums st
  else if Ascii.eqb upcmd "C" then abs_cubics isLower nums st
  else if Ascii.eqb upcmd "Q" then abs_quadratics isLower nums st
  else if Ascii.eqb upcmd "A" then abs_arcs isLower nums st
  else if Ascii.eqb upcmd "Z" then
    mkAbsState (abs_first st) (abs_first st) (abs_result st ++ [AbsZ])
  else st.

Local Close Scope char_scope.

Definition toAbsolute (segments : list Segment) : list AbsSegment :=
  abs_result (fold_left toAbsolute_step segments (mkAbsState (0, 0) (0, 0) [])).

(** ** [rough/renderer.py]: elliptical arcs and sketched path segments *)

Section RendererPath.
Context `{MathLib}.

(** The local function [angle(u, v)] of [ellipticalArcToBezier]. *)
Definition vector_angle (u v : Q * Q) : Q :=
  let dot := fst u * fst v + snd u * snd v in
  let mag := math_sqrt ((fst u ^ 2 + snd u ^ 2) * (fst v ^ 2 + snd v ^ 2)) in
  if Qltb mag (1 # 1000000000000) then 0
  else
    let sign2 := if Qltb (fst u * snd v - snd u * fst v) 0 then - (1) else 1 in
    let val := Qmax (- (1)) (Qmin 1 (dot / mag)) in
    sign2 * math_acos val.

Definition arcSegmentToCubic (cx cy rx ry phi start_ang end_ang : Q) : list Q :=
  let alpha := (end_ang - start_ang) / 2 in
  if Qltb (Qabs alpha) (1 # 1000000000) then
    let mid := (start_ang + end_ang) * (5 # 10) in
    let x3 := cx + rx * math_cos mid * math_cos phi - ry * math_sin mid * math_sin phi in
    let y3 := cy + rx * math_cos mid * math_sin phi + ry * math_sin mid * math_cos phi in
    [x3; y3; x3; y3; x3; y3]
  else
    let x1 := rx * math_cos start_ang in
    let y1 := ry * math_sin start_ang in
    let x2 := rx * math_cos end_ang in
    let y2 := ry * math_sin end_ang in
    let sin_a := math_sin alpha in
    let l := if Qltb (Qabs sin_a) (1 # 1000000000) then 0
             else (4 / 3) * math_tan (alpha / 2) in
    let c1x := x1 - l * rx * math_sin start_ang in
    let c1y := y1 + l * ry * math_cos start_ang in
    let c2x := x2 + l * rx * math_sin end_ang in
    let c2y := y2 - l * ry * math_cos end_ang in
    let rot (px py : Q) : Q * Q :=
      (px * math_cos phi - py * math_sin phi + cx,
       px * math_sin phi + py * math_cos phi + cy) in
    let c1Abs := rot c1x c1y in
    let c2Abs := rot c2x c2y in
    let eAbs := rot x2 y2 in
    [fst c1Abs; snd c1Abs; fst c2Abs; snd c2Abs; fst eAbs; snd eAbs].

Definition ellipticalArcToBezier (x1 y1 x2 y2 rx0 ry0 phi fa fs : Q)
  : M (list (list Q)) :=
  if Qltb (Qabs (x1 - x2)) (1 # 1000000000) && Qltb (Qabs (y1 - y2)) (1 # 1000000000)
  then ret []
  else if Qeqb rx0 0 || Qeqb ry0 0 then ret [[x1; y1; x2; y2; x2; y2]]
  else
    let x1p := math_cos phi * (x1 - x2) / 2 + math_sin phi * (y1 - y2) / 2 in
    let y1p := - math_sin phi * (x1 - x2) / 2 + math_cos phi * (y1 - y2) / 2 in
    if Qltb (Qabs x1p) (1 # 1000000000) && Qltb (Qabs y1p) (1 # 1000000000)
    then ret []
    else
      let x1p2 := x1p * x1p in
      let y1p2 := y1p * y1p in
      let lam := (x1p2 / (rx0 * rx0)) + (y1p2 / (ry0 * ry0)) in
      let scale := if Qltb 1 lam then math_sqrt lam else 1 in
      let rx := if Qltb 1 lam then rx0 * scale else rx0 in
      let ry := if Qltb 1 lam then ry0 * scale else ry0 in
      let rx2 := rx * rx in
      let ry2 := ry * ry in
      let sign := if Qeqb fa fs then - (1) else 1 in
      let num := Qmax (rx2 * ry2 - rx2 * y1p2 - ry2 * x1p2) 0 in
      let den := rx2 * y1p2 + ry2 * x1p2 in
      if Qltb (Qabs den) (1 # 1000000000000) then ret []
      else
        let c := sign * math_sqrt (num / den) in
        let cxp := c * (rx * y1p / ry) in
        let cyp := c * (- ry * x1p / rx) in
        let cx := math_cos phi * cxp - math_sin phi * cyp + (x1 + x2) / 2 in
        let cy := math_sin phi * cxp + math_cos phi * cyp + (y1 + y2) / 2 in
        let ux := (x1p - cxp) / rx in
        let uy := (y1p - cyp) / ry in
        let vx := (- x1p - cxp) / rx in
        let vy := (- y1p - cyp) / ry in
        let start_ang := vector_angle (1, 0) (ux, uy) in
        let sweep0 := vector_angle (ux, uy) (vx, vy) in
        let sweep1 :=
          if Qeqb fs 0 && Qltb 0 sweep0 then sweep0 - 2 * math_pi
          else if negb (Qeqb fs 0) && Qltb sweep0 0 then sweep0 + 2 * math_pi
          else sweep0 in
        let sweep_ang := math_fmod sweep1 (2 * math_pi) in
        let seg_count := math_ceil (Qabs sweep_ang / (math_pi / 2)) in
        seg_sweep <- pydiv sweep_ang (inject_Z seg_count) ;;
        ret (map (fun i : nat =>
                    let st := start_ang + inject_Z (Z.of_nat i) * seg_sweep in
                    arcSegmentToCubic cx cy rx ry phi st (st + seg_sweep))
                 (seq 0 (Z.to_nat seg_count))).

(** One pass of [cubicBezierOps]; [i] is the pass number. *)
Definition cubic_pass (cx1 cy1 cx2 cy2 ex ey sx sy : Q) (o : ResolvedOptions) (i : nat)
  : M (list Op) :=
  let base := or_default (maxRandomnessOffset o) 2 in
  let ro := base + (if (0 <? i)%nat then 3 # 10 else 0) in
  mv <- (if (i =? 0)%nat then ret (mkOp move [sx; sy])
         else dx <- unless_preserved o (offsetOpt base o 1) ;;
              dy <- unless_preserved o (offsetOpt base o 1) ;;
              ret (mkOp move [sx + dx; sy + dy])) ;;
  d1 <- unless_preserved o (offsetOpt ro o 1) ;;
  d2 <- unless_preserved o (offsetOpt ro o 1) ;;
  d3 <- unless_preserved o (offsetOpt ro o 1) ;;
  d4 <- unless_preserved o (offsetOpt ro o 1) ;;
  d5 <- unless_preserved o (offsetOpt ro o 1) ;;
  d6 <- unless_preserved o (offsetOpt ro o 1) ;;
  ret [mv; mkOp bcurveTo [cx1 + d1; cy1 + d2; cx2 + d3; cy2 + d4; ex + d5; ey + d6]].

Definition cubicBezierOps (cx1 cy1 cx2 cy2 ex ey : Q) (current : Point)
  (o : ResolvedOptions) : M (list Op) :=
  let passes := if truthy (disableMultiStroke o) then 1%nat else 2%nat in
  for_each (seq 0 passes)
    (fun acc i =>
       l <- cubic_pass cx1 cy1 cx2 cy2 ex ey (fst current) (snd current) o i ;;
       ret (acc ++ l))
    [].

Definition quadToCubic (qx qy x y : Q) (current : Point) (o : ResolvedOptions)
  : M (list Op) :=
  let '(sx, sy) := current in
  let c1x := sx + (2 / 3) * (qx - sx) in
  let c1y := sy + (2 / 3) * (qy - sy) in
  let c2x := x + (2 / 3) * (qx - x) in
  let c2y := y + (2 / 3) * (qy - y) in
  cubicBezierOps c1x c1y c2x c2y x y (sx, sy) o.

Definition singleCubic (cur : Point) (cx1 cy1 cx2 cy2 x3 y3 : Q) : list Op :=
  [mkOp move [fst cur; snd cur]; mkOp bcurveTo [cx1; cy1; cx2; cy2; x3; y3]].

Definition singleQuadratic (cur : Point) (qx qy x3 y3 : Q) : list Op :=
  let '(sx, sy) := cur in
  let c1x := sx + (2 / 3) * (qx - sx) in
  let c1y := sy + (2 / 3) * (qy - sy) in
  let c2x := x3 + (2 / 3) * (qx - x3) in
  let c2y := y3 + (2 / 3) * (qy - y3) in
  [mkOp move [sx; sy]; mkOp bcurveTo [c1x; c1y; c2x; c2y; x3; y3]].

(** [xrot % 360] on floats: the remainder with the sign of the divisor. *)
Definition mod360 (x : Q) : Q := x - 360 * inject_Z (Qfloor (x / 360)).

(** Every list [ellipticalArcToBezier] returns has six numbers. *)
Definition six (c : list Q) : Q * Q * Q * Q * Q * Q :=
  (nth 0 c 0, nth 1 c 0, nth 2 c 0, nth 3 c 0, nth 4 c 0, nth 5 c 0).

Definition arcToCubics (current : Point) (rx ry xrot laf swf ex ey : Q)
  (o : ResolvedOptions) : M (list Op * Point) :=
  beziers <- ellipticalArcToBezier (fst current) (snd current) ex ey rx ry
               (math_radians (mod360 xrot)) laf swf ;;
  '(ops_, _) <-
    for_each beziers
      (fun (st : list Op * Point) c =>
         let '(acc, last) := st in
         let '(cx1, cy1, cx2, cy2, x3, y3) := six c in
         l <- cubicBezierOps cx1 cy1 cx2 cy2 x3 y3 last o ;;
         ret (acc ++ l, (x3, y3)))
      ([], current) ;;
  ret (ops_, (ex, ey)).

Definition singleArc (cur : Point) (rx ry xrot laf swf ex ey : Q)
  : M (list Op * Point) :=
  beziers <- ellipticalArcToBezier (fst cur) (snd cur) ex ey rx ry
               (math_radians (mod360 xrot)) laf swf ;;
  let step (st : list Op * Point) (c : list Q) : list Op * Point :=
    let '(acc, last) := st in
    let '(cx1, cy1, cx2, cy2, x3, y3) := six c in
    (acc ++ [mkOp move [fst last; snd last]; mkOp bcurveTo [cx1; cy1; cx2; cy2; x3; y3]],
     (x3, y3)) in
  ret (fst (fold_left step beziers ([], cur)), (ex, ey)).

End RendererPath.

Section RendererSvgPath.
Context `{MathLib}.

(** The state of the loop of [svgPath]: [ops], [current], [first]. *)
Record PathState : Type := mkPathState {
  path_ops : list Op;
  path_current : Point;
  path_first : Point
}.

Definition svgPath_step (o : ResolvedOptions) (st : PathState) (seg : AbsSegment)
  : M PathState :=
  let ops_ := path_ops st in
  let current := path_current st in
  let first := path_first st in
  let single := truthy (disableMultiStroke o) in
  match seg with
  | AbsM x y => ret (mkPathState (ops_ ++ [mkOp move [x; y]]) (x, y) (x, y))
  | AbsL x y =>
      l <- (if single then ret [mkOp lineTo [x; y]]
            else doubleLine (fst current) (snd current) x y o false) ;;
      ret (mkPathState (ops_ ++ l) (x, y) first)
  | AbsH vx =>
      l <- (if single then ret [mkOp lineTo [vx; snd current]]
            else doubleLine (fst current) (snd current) vx (snd current) o false) ;;
      ret (mkPathState (ops_ ++ l) (vx, snd current) first)
  | AbsV vy =>
      l <- (if single then ret [mkOp lineTo [fst current; vy]]
            else doubleLine (fst current) (snd current) (fst current) vy o false) ;;
      ret (mkPathState (ops_ ++ l) (fst current, vy) first)
  | AbsC cx1 cy1 cx2 cy2 x3 y3 =>
      l <- (if single then ret (singleCubic current cx1 cy1 cx2 cy2 x3 y3)
            else cubicBezierOps cx1 cy1 cx2 cy2 x3 y3 current o) ;;
      ret (mkPathState (ops_ ++ l) (x3, y3) first)
  | AbsQ qx qy x3 y3 =>
      l <- (if single then ret (singleQuadratic current qx qy x3 y3)
            else quadToCubic qx qy x3 y3 current o) ;;
      ret (mkPathState (ops_ ++ l) (x3, y3) first)
  | AbsA rx ry xrot laf swf ex ey =>
      '(arcops, newp) <- (if single then singleArc current rx ry xrot laf swf ex ey
                          else arcToCubics current rx ry xrot laf swf ex ey o) ;;
      ret (mkPathState (ops_ ++ arcops) newp first)
  | AbsZ =>
      l <- (if single then ret [mkOp lineTo [fst first; snd first]]
            else doubleLine (fst current) (snd current) (fst first) (snd first) o false) ;;
      ret (mkPathState (ops_ ++ l) first first)
  end.

Definition svgPath (path : string) (o : ResolvedOptions) : M OpSet :=
  let p := strip path in
  if String.eqb p "" then ret (mkOpSet pathSet [])
  else
    segs <- parsePathCommands p ;;
    let abs_segs := toAbsolute segs in
    st <- for_each abs_segs (svgPath_step o) (mkPathState [] (0, 0) (0, 0)) ;;
    ret (mkOpSet pathSet (path_ops st)).

(** [solidFillPolygon]. *)
Definition solidFillPolygon (polygonList : list (list Point)) (o : ResolvedOptions)
  : OpSet :=
  mkOpSet fillPathSet
    (flat_map
       (fun pts : list Point =>
          match pts with
          | p0 :: ((_ :: _ :: _) as rest) =>
              mkOp move [fst p0; snd p0]
              :: map (fun p : Point => mkOp lineTo [fst p; snd p]) rest
          | _ => []
          end)
       polygonList).

End RendererSvgPath.

(** ** [rough/fillers/scan_line_hachure.py] *)

Section ScanLineHachure.
Context `{MathLib}.

Definition _rotatePoint (p : Point) (theta : Q) : Point :=
  let cosA := math_cos theta in
  let sinA := math_sin theta in
  (fst p * cosA - snd p * sinA, fst p * sinA + snd p * cosA).

Definition _edge_intersects_scanline (p1 p2 : Point) (scanY : Q) : bool :=
  let y1 := snd p1 in
  let y2 := snd p2 in
  if Qltb (Qabs (y1 - y2)) (1 # 100000000000000)
     && Qltb (Qabs (y1 - scanY)) (1 # 100000000000000)
  then false
  else
    let mn := Qmin y1 y2 in
    let mx := Qmax y1 y2 in
    if Qleb scanY mn || Qleb mx scanY then false else true.

Definition _xIntersect (p1 p2 : Point) (y : Q) : option Q :=
  let '(x1, y1) := p1 in
  let '(x2, y2) := p2 in
  let dy := y2 - y1 in
  if Qltb (Qabs dy) (1 # 100000000000000) then None
  else
    let t := (y - y1) / dy in
    Some (x1 + t * (x2 - x1)).

(** The edges [(rpoly[i], rpoly[(i + 1) % length])]. *)
Definition polygon_edges (rpoly : list Point) : list (Point * Point) :=
  match rpoly with
  | p0 :: _ :: _ => consecutive (rpoly ++ [p0])
  | _ => []
  end.

(** [crossing_list.sort(key=lambda c: c[0])]: stable, by abscissa. *)
Fixpoint insert_crossing (c : Q * Z) (l : list (Q * Z)) : list (Q * Z) :=
  match l with
  | [] => [c]
  | d :: l' => if Qltb (fst c) (fst d) then c :: l else d :: insert_crossing c l'
  end.

Definition sort_crossings (l : list (Q * Z)) : list (Q * Z) :=
  fold_left (fun acc c => insert_crossing c acc) l [].

Definition _horizontalIntersectionsNonZero (rpoly : list Point) (scanY : Q)
  : list (Q * Z) :=
  sort_crossings
    (flat_map
       (fun e : Point * Point =>
          let '(p1, p2) := e in
          if _edge_intersects_scanline p1 p2 scanY then
            match _xIntersect p1 p2 scanY with
            | Some xint => [(xint, if Qltb (snd p1) (snd p2) then 1%Z else (-1)%Z)]
            | None => []
            end
          else [])
       (polygon_edges rpoly)).

(** The spans of one scan line: walk the crossings with the running
    winding number and the previous abscissa. *)
Fixpoint winding_spans (crossings : list (Q * Z)) (running_winding : Z)
  (prev_x : option Q) : list (Q * Q) :=
  match crossings with
  | [] => []
  | (cx, dW) :: rest =>
      let here :=
        match prev_x with
        | Some px =>
            if negb (running_winding =? 0)%Z && Qltb px cx then [(px, cx)] else []
        | None => []
        end in
      here ++ winding_spans rest (running_winding + dW)%Z (Some cx)
  end.

(** [min(p[1] for p in rpoly)], [max(p[1] for p in rpoly)]. *)
Definition min_y (p0 : Point) (rest : list Point) : Q :=
  fold_left (fun m p => Qmin m (snd p)) rest (snd p0).

Definition max_y (p0 : Point) (rest : list Point) : Q :=
  fold_left (fun m p => Qmax m (snd p)) rest (snd p0).

(** The spacing of the scan lines. *)
Definition hachure_gap (o : Options) : Q :=
  let gap :=
    match hachureGap o with
    | Some g => if Qleb 0 g then g else or_default (strokeWidth o) 2 * 4
    | None => or_default (strokeWidth o) 2 * 4
    end in
  Qmax gap (1 # 10).

(** One scan line at height [y] of the rotated polygon, rotated back. *)
Definition scan_line (rpoly : list Point) (angle_rad y : Q) : list Line :=
  map (fun s : Q * Q =>
         (_rotatePoint (fst s, y) angle_rad, _rotatePoint (snd s, y) angle_rad))
      (winding_spans (_horizontalIntersectionsNonZero rpoly y) 0%Z None).

(** The body of [for poly in polygonList]. *)
Definition hachure_polygon (gap angle_rad : Q) (all_lines : list Line) (poly : list Point)
  : M (list Line) :=
  match map (fun p => _rotatePoint p (- angle_rad)) poly with
  | (p0 :: ((_ :: _ :: _) as rest)) as rpoly =>
      let minY := min_y p0 rest in
      let maxY := max_y p0 rest in
      '(_, lines) <-
        while (fun st : Q * list Line => Qleb (fst st) maxY)
              (fun st : Q * list Line =>
                 let '(y, acc) := st in
                 ret (float_add y gap, acc ++ scan_line rpoly angle_rad y))
              (minY, all_lines) ;;
      ret lines
  | _ => ret all_lines
  end.

Definition polygon_hachure_lines (polygonList : list (list Point)) (o : Options)
  : M (list Line) :=
  let angle_base := or_default (hachureAngle o) (-41) in
  let angle_deg := angle_base + 90 in
  let gap := hachure_gap o in
  let angle_rad := math_radians (- angle_deg) in
  for_each polygonList (hachure_polygon gap angle_rad) [].

End ScanLineHachure.

(** ** [rough/fillers]: the pattern fillers *)

(** [filler_interface.RenderHelper]. *)
Class RenderHelper : Type := {
  helper_randOffset : Q -> ResolvedOptions -> M Q;
  helper_randOffsetWithRange : Q -> Q -> ResolvedOptions -> M Q;
  helper_ellipse : Q -> Q -> Q -> Q -> ResolvedOptions -> M OpSet;
  helper_doubleLineOps : Q -> Q -> Q -> Q -> ResolvedOptions -> M (list Op)
}.

(** Python's [round(x)]: to the nearest integer, ties to the even one. *)
Definition py_round (x : Q) : Z :=
  let f := Qfloor x in
  let r := x - inject_Z f in
  if Qltb r (1 # 2) then f
  else if Qltb (1 # 2) r then (f + 1)%Z
  else if Z.even f then f else (f + 1)%Z.

Section Fillers.
Context `{MathLib} `{RenderHelper}.

(** [HachureFiller.renderLines]. *)
Definition renderLines (lines : list Line) (o : ResolvedOptions) : M (list Op) :=
  for_each lines
    (fun acc ln =>
       let '(p1, p2) := ln in
       l <- helper_doubleLineOps (fst p1) (snd p1) (fst p2) (snd p2) o ;;
       ret (acc ++ l))
    [].

(** [HachureFiller._fillPolygons]. *)
Definition Hachure_fillPolygons (polygonList : list (list Point)) (o : ResolvedOptions)
  : M OpSet :=
  lines <- polygon_hachure_lines polygonList o ;;
  l <- renderLines lines o ;;
  ret (mkOpSet fillSketchSet l).

Definition ZigZag_fillPolygons (polygonList : list (list Point)) (o : ResolvedOptions)
  : M OpSet :=
  let gap := hachure_gap o in
  c <- copy_options o ;;
  let o2 := mkResolved (set_hachureGap (Some gap) c) (oid c) in
  lines <- polygon_hachure_lines polygonList o2 ;;
  let base_ang := or_default (hachureAngle o2) (-41) in
  let zigzagAngle := (math_pi / 180) * base_ang in
  let dgx := gap * (5 # 10) * math_cos zigzagAngle in
  let dgy := gap * (5 # 10) * math_sin zigzagAngle in
  let zigzagLines :=
    flat_map
      (fun ln : Line =>
         let '(p1, p2) := ln in
         if Qltb 0 (line_length (p1, p2))
         then [((fst p1 - dgx, snd p1 + dgy), p2); ((fst p1 + dgx, snd p1 - dgy), p2)]
         else [])
      lines in
  l <- renderLines zigzagLines o2 ;;
  ret (mkOpSet fillSketchSet l).

Definition Hatch_fillPolygons (polygonList : list (list Point)) (o : ResolvedOptions)
  : M OpSet :=
  set1 <- Hachure_fillPolygons polygonList o ;;
  c <- copy_options o ;;
  let base_ang := or_default (hachureAngle o) (-41) in
  let o2 := mkResolved (set_hachureAngle (Some (base_ang + 90)) c) (oid c) in
  set2 <- Hachure_fillPolygons polygonList o2 ;;
  ret (mkOpSet (type_ set1) (ops set1 ++ ops set2)).

(** [DotFiller._dotsOnLines]: one dot, the body of [for i in range(count)]. *)
Definition place_dot (x minY offset gap fweight ro : Q) (o : ResolvedOptions)
  (acc : list Op) (i : nat) : M (list Op) :=
  let y := minY + offset + inject_Z (Z.of_nat i) * gap in
  u <- random_random ;;
  let cx := (x - ro) + u * (2 * ro) in
  v <- random_random ;;
  let cy := (y - ro) + v * (2 * ro) in
  el <- helper_ellipse cx cy fweight fweight o ;;
  ret (acc ++ ops el).

(** The dots of one line, the body of [for ln in lines]. *)
Definition dots_on_line (gap fweight ro : Q) (o : ResolvedOptions) (acc : list Op)
  (ln : Line) : M (list Op) :=
  let length := line_length ln in
  let count0 := (math_ceil (length / gap) - 1)%Z in
  let count := if (count0 <? 0)%Z then 0%Z else count0 in
  let offset := length - inject_Z count * gap in
  let x := ((fst (fst ln) + fst (snd ln)) * (5 # 10)) - gap * (25 # 100) in
  let minY := Qmin (snd (fst ln)) (snd (snd ln)) in
  for_each (seq 0 (Z.to_nat count)) (place_dot x minY offset gap fweight ro o) acc.

(** The diameter of a dot. *)
Definition dot_weight (o : Options) : Q :=
  match fillWeight o with
  | Some fw => if Qleb 0 fw then fw else or_default (strokeWidth o) 2 * (5 # 10)
  | None => or_default (strokeWidth o) 2 * (5 # 10)
  end.

Definition _dotsOnLines (lines : list Line) (o : ResolvedOptions) : M OpSet :=
  let gap := hachure_gap o in
  let fweight := dot_weight o in
  let ro := gap / 4 in
  l <- for_each lines (dots_on_line gap fweight ro o) [] ;;
  ret (mkOpSet fillSketchSet l).

Definition Dot_fillPolygons (polygonList : list (list Point)) (o : ResolvedOptions)
  : M OpSet :=
  c <- copy_options o ;;
  let temp := mkResolved (set_hachureAngle (Some 0) c) (oid c) in
  lines <- polygon_hachure_lines polygonList temp ;;
  _dotsOnLines lines o.

(** [p1, p2 = ln; if p1[0] > p2[0]: p1, p2 = p2, p1]. *)
Definition left_to_right (ln : Line) : Line :=
  let '(p1, p2) := ln in if Qltb (fst p2) (fst p1) then (p2, p1) else (p1, p2).

Definition gap_or_stroke (o : Options) : Q :=
  match hachureGap o with
  | Some g => if Qleb 0 g then g else or_default (strokeWidth o) 2 * 4
  | None => or_default (strokeWidth o) 2 * 4
  end.

Definition _dashedLine (lines : list Line) (o : ResolvedOptions) : M (list Op) :=
  let offset :=
    match dashOffset o with
    | Some d => if Qleb 0 d then d else gap_or_stroke o
    | None => gap_or_stroke o
    end in
  let gap :=
    match dashGap o with
    | Some d => if Qleb 0 d then d else gap_or_stroke o
    | None => gap_or_stroke o
    end in
  for_each lines
    (fun acc ln =>
       let length := line_length ln in
       let denom := if Qeqb (offset + gap) 0 then 1 # 100000 else offset + gap in
       let count := math_floor (length / denom) in
       let startOffset := (length + gap - inject_Z count * (offset + gap)) * (5 # 10) in
       let '(p1, p2) := left_to_right ln in
       let alpha := math_atan2 (snd p2 - snd p1) (fst p2 - fst p1) in
       for_each (seq 0 (Z.to_nat count))
         (fun acc' i =>
            let lstart := inject_Z (Z.of_nat i) * (offset + gap) in
            let lend := lstart + offset in
            let sx := fst p1 + lstart * math_cos alpha + startOffset * math_cos alpha in
            let sy := snd p1 + lstart * math_sin alpha + startOffset * math_sin alpha in
            let ex := fst p1 + lend * math_cos alpha + startOffset * math_cos alpha in
            let ey := snd p1 + lend * math_sin alpha + startOffset * math_sin alpha in
            l <- helper_doubleLineOps sx sy ex ey o ;;
            ret (acc' ++ l))
         acc)
    [].

Definition Dashed_fillPolygons (polygonList : list (list Point)) (o : ResolvedOptions)
  : M OpSet :=
  lines <- polygon_hachure_lines polygonList o ;;
  l <- _dashedLine lines o ;;
  ret (mkOpSet fillSketchSet l).

Definition _zigzagLines (lines : list Line) (zo : Q) (o : ResolvedOptions)
  : M (list Op) :=
  for_each lines
    (fun acc ln =>
       let length := line_length ln in
       q <- pydiv length (2 * zo) ;;
       let count := py_round q in
       let '(p1, p2) := left_to_right ln in
       let alpha := math_atan2 (snd p2 - snd p1) (fst p2 - fst p1) in
       for_each (seq 0 (Z.to_nat count))
         (fun acc' i =>
            let lstart := inject_Z (Z.of_nat i) * (2 * zo) in
            let lend := inject_Z (Z.of_nat i + 1) * (2 * zo) in
            let dz := math_sqrt (2 * zo ^ 2) in
            let sx := fst p1 + lstart * math_cos alpha in
            let sy := snd p1 + lstart * math_sin alpha in
            let ex := fst p1 + lend * math_cos alpha in
            let ey := snd p1 + lend * math_sin alpha in
            let mx := sx + dz * math_cos (alpha + math_pi / 4) in
            let my := sy + dz * math_sin (alpha + math_pi / 4) in
            l1 <- helper_doubleLineOps sx sy mx my o ;;
            l2 <- helper_doubleLineOps mx my ex ey o ;;
            ret (acc' ++ l1 ++ l2))
         acc)
    [].

Definition ZigZagLine_fillPolygons (polygonList : list (list Point))
  (o : ResolvedOptions) : M OpSet :=
  let gap := gap_or_stroke o in
  let zo :=
    match zigzagOffset o with
    | Some z => if Qleb 0 z then z else gap
    | None => gap
    end in
  c <- copy_options o ;;
  let temp := mkResolved (set_hachureGap (Some (gap + zo)) c) (oid c) in
  lines <- polygon_hachure_lines polygonList temp ;;
  l <- _zigzagLines lines zo temp ;;
  ret (mkOpSet fillSketchSet l).

(** [getFiller(o, helper).fillPolygons]: dispatch on the style name. *)
Definition fillPolygons (polygonList : list (list Point)) (o : ResolvedOptions)
  : M OpSet :=
  let fillerName :=
    match fillStyle o with
    | Some s => if String.eqb s "" then "hachure"%string else s
    | None => "hachure"%string
    end in
  if String.eqb fillerName "zigzag" then ZigZag_fillPolygons polygonList o
  else if String.eqb fillerName "cross-hatch" then Hatch_fillPolygons polygonList o
  else if String.eqb fillerName "dots" then Dot_fillPolygons polygonList o
  else if String.eqb fillerName "dashed" then Dashed_fillPolygons polygonList o
  else if String.eqb fillerName "zigzag-line" then ZigZagLine_fillPolygons polygonList o
  else Hachure_fillPolygons polygonList o.

End Fillers.

(** ** [rough/renderer.py]: pattern fills *)

Section PatternFill.
Context `{MathLib}.

(** [RenderHelperImpl]. *)
#[local] Instance RenderHelperImpl : RenderHelper := {
  helper_randOffset := randOffset;
  helper_randOffsetWithRange := randOffsetWithRange;
  helper_ellipse := ellipse;
  helper_doubleLineOps := doubleLineFillOps
}.

Definition patternFillPolygons (polygonList : list (list Point)) (o : ResolvedOptions)
  : M OpSet :=
  fillPolygons polygonList o.

Definition patternFillArc (x y width height start stop : Q) (o : ResolvedOptions)
  : M OpSet :=
  let rx0 := Qabs (width / 2) in
  let ry0 := Qabs (height / 2) in
  dx <- offsetOpt (rx0 * (1 # 100)) o 1 ;;
  dy <- offsetOpt (ry0 * (1 # 100)) o 1 ;;
  let rx := rx0 + dx in
  let ry := ry0 + dy in
  '(strt, stp) <- normalize_angles start stop ;;
  let cstep := or_default (curveStepCount o) 9%Z in
  inc <- pydiv (stp - strt) (inject_Z cstep) ;;
  '(_, points) <-
    while (fun st : Q * list Point => Qleb (fst st) stp)
          (fun st : Q * list Point =>
             let '(angle, pts) := st in
             ret (angle + inc, pts ++ [(x + rx * math_cos angle, y + ry * math_sin angle)]))
          (strt, []) ;;
  patternFillPolygons
    [points ++ [(x + rx * math_cos stp, y + ry * math_sin stp); (x, y)]] o.

End PatternFill.

(** ** [rough/generator.py] *)

Section Generator.
Context `{MathLib}.

#[local] Existing Instance RenderHelperImpl.

Record RoughGenerator : Type := mkGenerator { defaultOptions : ResolvedOptions }.

(** [RoughGenerator(config)]: the library defaults, with the options of
    the configuration merged in. *)
Definition RoughGenerator_init (config_options : option Options) : M RoughGenerator :=
  d <- ResolvedOptions_init ;;
  match config_options with
  | Some user_options =>
      ret (mkGenerator (mkResolved (merge_options d user_options) (oid d)))
  | None => ret (mkGenerator d)
  end.

(** [RoughGenerator._o]. *)
Definition _o (self : RoughGenerator) (options_ : option Options) : M ResolvedOptions :=
  ro <- ResolvedOptions_init ;;
  g <- get_randgen (defaultOptions self) ;;
  match g with Some r => set_randgen (oid ro) r | None => ret tt end ;;;
  let merged := merge_options ro (defaultOptions self) in
  let merged' :=
    match options_ with
    | Some local => merge_options merged local
    | None => merged
    end in
  ret (mkResolved (visibility_checks merged') (oid ro)).

Definition stroked (o : Options) : bool := negb (opt_is (stroke o) "none").

(** [sets.append(x)] under a condition. *)
Definition when_ (b : bool) (s : OpSet) : list OpSet := if b then [s] else [].

(** A copy of [o] with [disableMultiStroke] set. *)
Definition single_stroke_copy (o : ResolvedOptions) : M ResolvedOptions :=
  c <- copy_options o ;;
  ret (mkResolved (set_disableMultiStroke (Some true) c) (oid c)).

(** [(o.roughness or 1.0) + (o.fillShapeRoughnessGain or 0.8)]. *)
Definition fill_roughness (o : Options) : Q :=
  (match roughness o with Some r => if Qeqb r 0 then 1 else r | None => 1 end)
  + (match fillShapeRoughnessGain o with
     | Some g => if Qeqb g 0 then 8 # 10 else g
     | None => 8 # 10
     end).

(** [_solidFillHelper], and the [fill_o] of [path]. *)
Definition _solidFillHelper (o : ResolvedOptions) : M ResolvedOptions :=
  c <- copy_options o ;;
  ret (mkResolved
         (set_roughness (Some (fill_roughness o)) (set_disableMultiStroke (Some true) c))
         (oid c)).

Definition gen_line (self : RoughGenerator) (x1 y1 x2 y2 : Q) (options_ : option Options)
  : M Drawable :=
  o <- _o self options_ ;;
  opset <- line x1 y1 x2 y2 o ;;
  ret (mkDrawable "line" o [opset]).

Definition gen_rectangle (self : RoughGenerator) (x y width height : Q)
  (options_ : option Options) : M Drawable :=
  o <- _o self options_ ;;
  outline <- rectangle x y width height o ;;
  fills <- (if nonempty (fill o) then
              let pts := [(x, y); (x + width, y); (x + width, y + height); (x, y + height)] in
              if opt_is (fillStyle o) "solid" then ret [solidFillPolygon [pts] o]
              else s <- patternFillPolygons [pts] o ;; ret [s]
            else ret []) ;;
  ret (mkDrawable "rectangle" o (fills ++ when_ (stroked o) outline)).

Definition gen_ellipse (self : RoughGenerator) (x y width height : Q)
  (options_ : option Options) : M Drawable :=
  o <- _o self options_ ;;
  params <- generateEllipseParams width height o ;;
  '(e_ops, e_points) <- ellipseWithParams x y o params ;;
  fills <- (if nonempty (fill o) then
              if opt_is (fillStyle o) "solid" then
                '(fill_op, _) <- ellipseWithParams x y o params ;;
                ret [mkOpSet fillPathSet (ops fill_op)]
              else s <- patternFillPolygons [e_points] o ;; ret [s]
            else ret []) ;;
  ret (mkDrawable "ellipse" o (fills ++ when_ (stroked o) e_ops)).

Definition gen_circle (self : RoughGenerator) (x y diameter : Q)
  (options_ : option Options) : M Drawable :=
  d <- gen_ellipse self x y diameter diameter options_ ;;
  ret (mkDrawable "circle" (options d) (sets d)).

Definition gen_linearPath (self : RoughGenerator) (points : list Point)
  (options_ : option Options) : M Drawable :=
  o <- _o self options_ ;;
  opset <- linearPath points false o ;;
  ret (mkDrawable "linearPath" o [opset]).

Definition gen_arc (self : RoughGenerator) (x y width height start stop : Q)
  (closed : bool) (options_ : option Options) : M Drawable :=
  o <- _o self options_ ;;
  outline <- arc x y width height start stop closed true o ;;
  fills <- (if closed && nonempty (fill o) then
              if opt_is (fillStyle o) "solid" then
                fill_o <- single_stroke_copy o ;;
                shape_ <- arc x y width height start stop true false fill_o ;;
                ret [mkOpSet fillPathSet (ops shape_)]
              else s <- patternFillArc x y width height start stop o ;; ret [s]
            else ret []) ;;
  ret (mkDrawable "arc" o (fills ++ when_ (stroked o) outline)).

(** [_approxCurveAsPoints]. *)
Definition _approxCurveAsPoints (points : CurveInput) : M (list Point) :=
  match points with
  | CurvePoints pts => ret pts
  | CurveSegments [] => ret []
  | CurveSegments ([] :: _) => raise IndexError
  | CurveSegments segs => ret (concat segs)
  end.

Definition gen_curve (self : RoughGenerator) (points : CurveInput)
  (options_ : option Options) : M Drawable :=
  o <- _o self options_ ;;
  outline <- curve points o ;;
  fills <- (if nonempty (fill o) && negb (opt_is (fill o) "none") then
              if opt_is (fillStyle o) "solid" then
                h <- _solidFillHelper o ;;
                fill_ops <- curve points h ;;
                ret [mkOpSet fillPathSet (ops fill_ops)]
              else
                poly_points <- _approxCurveAsPoints points ;;
                match poly_points with
                | [] => ret []
                | _ => s <- patternFillPolygons [poly_points] o ;; ret [s]
                end
            else ret []) ;;
  ret (mkDrawable "curve" o (fills ++ when_ (stroked o) outline)).

Definition gen_polygon (self : RoughGenerator) (points : list Point)
  (options_ : option Options) : M Drawable :=
  o <- _o self options_ ;;
  outline <- polygon points o ;;
  fills <- (if nonempty (fill o) then
              if opt_is (fillStyle o) "solid" then ret [solidFillPolygon [points] o]
              else s <- patternFillPolygons [points] o ;; ret [s]
            else ret []) ;;
  ret (mkDrawable "polygon" o (fills ++ when_ (stroked o) outline)).

End Generator.

Section GeneratorPath.
Context `{MathLib}.

#[local] Existing Instance RenderHelperImpl.

Definition _pointOnCubic (x0 y0 x1 y1 x2 y2 x3 y3 t : Q) : Point :=
  let mt := 1 - t in
  let mt2 := mt * mt in
  let t2 := t * t in
  let a := mt * mt2 in
  let b := 3 * mt2 * t in
  let c := 3 * mt * t2 in
  let d := t * t2 in
  (a * x0 + b * x1 + c * x2 + d * x3, a * y0 + b * y1 + c * y2 + d * y3).

(** [range(1, steps + 1)] as numbers. *)
Definition steps_from_one (steps : Z) : list Q :=
  map (fun s : nat => inject_Z (Z.of_nat s)) (seq 1 (Z.to_nat steps)).

(** The loop of [_sampleSubpathAll] over [ops[1:]]; the state is the
    current point and the points so far. *)
Definition sample_step (st : Point * list Point) (o_ : Op) : Point * list Point :=
  let '((cx, cy), pts) := st in
  let d := data o_ in
  match op o_ with
  | move =>
      let nx := nth 0 d 0 in
      let ny := nth 1 d 0 in
      ((nx, ny), pts ++ [(nx, ny)])
  | lineTo =>
      let x := nth 0 d 0 in
      let y := nth 1 d 0 in
      let seg_len := math_sqrt ((x - cx) * (x - cx) + (y - cy) * (y - cy)) in
      let steps := Z.max 2 (Qtrunc (seg_len / 4)) in
      ((x, y),
       pts ++ map (fun s : Q =>
                     let t := s / inject_Z steps in
                     (cx + t * (x - cx), cy + t * (y - cy)))
                  (steps_from_one steps))
  | bcurveTo =>
      let '(x1, y1, x2, y2, x3, y3) := six d in
      ((x3, y3),
       pts ++ map (fun s : Q => _pointOnCubic cx cy x1 y1 x2 y2 x3 y3 (s / 20))
                  (steps_from_one 20))
  end.

Definition _sampleSubpathAll (ops_ : list Op) : list Point :=
  match ops_ with
  | [] => []
  | o0 :: rest =>
      let c := (nth 0 (data o0) 0, nth 1 (data o0) 0) in
      snd (fold_left sample_step rest (c, [c]))
  end.

Definition _approxPathSingle (d : string) (o : ResolvedOptions) : M (list Point) :=
  if String.eqb (strip d) "" then ret []
  else
    fill_o <- single_stroke_copy o ;;
    opset <- svgPath d fill_o ;;
    ret (_sampleSubpathAll (ops opset)).

Definition gen_path (self : RoughGenerator) (d : string) (options_ : option Options)
  : M Drawable :=
  o <- _o self options_ ;;
  if String.eqb (strip d) "" then ret (mkDrawable "path" o [])
  else
    stroke_opset <- svgPath d o ;;
    let has_fill := nonempty (fill o) && negb (opt_is (fill o) "none")
                    && negb (opt_is (fill o) "transparent") in
    fills <- (if has_fill then
                fill_o <- _solidFillHelper o ;;
                fill_set <- svgPath d fill_o ;;
                if opt_is (fillStyle o) "solid"
                then ret [mkOpSet fillPathSet (ops fill_set)]
                else
                  poly <- _approxPathSingle d fill_o ;;
                  match poly with
                  | _ :: _ :: _ :: _ => s <- patternFillPolygons [poly] fill_o ;; ret [s]
                  | _ => ret []
                  end
              else ret []) ;;
    ret (mkDrawable "path" o (fills ++ when_ (stroked o) stroke_opset)).

(** A request to the generator: the drawing methods and their arguments. *)
Inductive ShapeRequest : Type :=
| ReqLine (x1 y1 x2 y2 : Q)
| ReqRectangle (x y width height : Q)
| ReqEllipse (x y width height : Q)
| ReqCircle (x y diameter : Q)
| ReqLinearPath (points : list Point)
| ReqArc (x y width height start stop : Q) (closed : bool)
| ReqCurve (points : CurveInput)
| ReqPolygon (points : list Point)
| ReqPath (d : string).

Definition draw (self : RoughGenerator) (req : ShapeRequest) (options_ : option Options)
  : M Drawable :=
  match req with
  | ReqLine x1 y1 x2 y2 => gen_line self x1 y1 x2 y2 options_
  | ReqRectangle x y w h => gen_rectangle self x y w h options_
  | ReqEllipse x y w h => gen_ellipse self x y w h options_
  | ReqCircle x y d => gen_circle self x y d options_
  | ReqLinearPath pts => gen_linearPath self pts options_
  | ReqArc x y w h a b closed => gen_arc self x y w h a b closed options_
  | ReqCurve pts => gen_curve self pts options_
  | ReqPolygon pts => gen_polygon self pts options_
  | ReqPath d => gen_path self d options_
  end.

(** One generation from scratch: a generator with the given
    configuration, then the request with the given options. *)
Definition generate (config_options : option Options) (req : ShapeRequest)
  (options_ : option Options) : M Drawable :=
  g <- RoughGenerator_init config_options ;;
  draw g req options_.

End GeneratorPath.

(** ** Names for what the specification talks about *)

(** The options after the merge of [_o] and before its checks: the
    library defaults, overridden by the generator's defaults, overridden
    by the options of the call. *)
Definition merged_options (self : RoughGenerator) (options_ : option Options) : Options :=
  let merged := merge_options ResolvedOptions_fields (defaultOptions self) in
  match options_ with
  | Some local => merge_options merged local
  | None => merged
  end.

Definition FALLBACK_FILL : string := "#0f0".

(** A world in which nothing was drawn yet. *)
Definition fresh_world (e : nat -> Q) : World := mkWorld [] [] e 0%nat.

(** [Options(stroke=s)], [Options(seed=n)] and the like, from [Options()]. *)
Definition with_seed (n : Z) (o : Options) : Options := set_seed n o.

Definition set_preserveVertices (v : option bool) (o : Options) : Options :=
  mkOptions (maxRandomnessOffset o) (roughness o) (bowing o) (stroke o) (strokeWidth o)
    (curveFitting o) (curveTightness o) (curveStepCount o) (fill o) (fillStyle o)
    (fillWeight o) (hachureAngle o) (hachureGap o) (dashOffset o) (dashGap o)
    (zigzagOffset o) (seed o) (disableMultiStroke o) (disableMultiStrokeFill o)
    v (fillShapeRoughnessGain o).

Definition set_fillStyle (v : option string) (o : Options) : Options :=
  mkOptions (maxRandomnessOffset o) (roughness o) (bowing o) (stroke o) (strokeWidth o)
    (curveFitting o) (curveTightness o) (curveStepCount o) (fill o) v
    (fillWeight o) (hachureAngle o) (hachureGap o) (dashOffset o) (dashGap o)
    (zigzagOffset o) (seed o) (disableMultiStroke o) (disableMultiStrokeFill o)
    (preserveVertices o) (fillShapeRoughnessGain o).

Definition set_fillWeight (v : option Q) (o : Options) : Options :=
  mkOptions (maxRandomnessOffset o) (roughness o) (bowing o) (stroke o) (strokeWidth o)
    (curveFitting o) (curveTightness o) (curveStepCount o) (fill o) (fillStyle o)
    v (hachureAngle o) (hachureGap o) (dashOffset o) (dashGap o)
    (zigzagOffset o) (seed o) (disableMultiStroke o) (disableMultiStrokeFill o)
    (preserveVertices o) (fillShapeRoughnessGain o).


(** [Options(stroke="none")] on a generator with the library defaults. *)
Definition default_generator : RoughGenerator :=
  mkGenerator (mkResolved ResolvedOptions_fields 0).


(** ** A rational stand-in for [math]

    Used to run the model on concrete inputs.  [sqrt] is the square root
    rounded down to six decimals (exact on the squares of such numbers);
    the trigonometric functions are low-order polynomial approximations,
    exact at 0.  Results are fractions in lowest terms. *)
Definition rational_sqrt (x : Q) : Q :=
  if Qleb x 0 then 0
  else Qred (Z.sqrt (Qnum x * Zpos (Qden x) * 1000000000000) # (Qden x * 1000000)).

Definition rational_pi : Q := 3141592653589793 # 1000000000000000.

Definition rational_cos (x0 : Q) : Q :=
  let x := Qred x0 in
  Qred (1 - x ^ 2 / 2 + x ^ 4 / 24 - x ^ 6 / 720 + x ^ 8 / 40320).

Definition rational_sin (x0 : Q) : Q :=
  let x := Qred x0 in
  Qred (x - x ^ 3 / 6 + x ^ 5 / 120 - x ^ 7 / 5040 + x ^ 9 / 362880).

Definition rational_atan (z : Q) : Q := z / (1 + (28 # 100) * z ^ 2).

Definition rational_atan2 (y x : Q) : Q :=
  if Qltb 0 x then
    if Qleb (Qabs y) x then rational_atan (y / x)
    else (if Qltb 0 y then 1 else - (1)) * (rational_pi / 2) - rational_atan (x / y)
  else if Qltb x 0 then
    if Qleb (Qabs y) (- x)
    then rational_atan (y / x) + (if Qltb y 0 then - rational_pi else rational_pi)
    else (if Qltb 0 y then 1 else - (1)) * (rational_pi / 2) - rational_atan (x / y)
  else if Qltb 0 y then rational_pi / 2
  else if Qltb y 0 then - (rational_pi / 2)
  else 0.

Definition RationalMath : MathLib := {|
  math_sqrt := rational_sqrt;
  math_cos := rational_cos;
  math_sin := rational_sin;
  math_tan := fun x => rational_sin x / rational_cos x;
  math_acos := fun x => rational_pi / 2 - (x + x ^ 3 / 6 + 3 * x ^ 5 / 40);
  math_atan2 := rational_atan2;
  math_pi := rational_pi
|}.



(** ** Names for the scan-line sweep *)

(** The bound of the specification on the iterations of one sweep:
    [ceil((maxY - minY) / 0.1) + 1]. *)
Definition sweep_bound (minY maxY : Q) : nat :=
  (Z.to_nat (Qceiling ((maxY - minY) / (1 # 10))) + 1)%nat.

(** The angle [polygon_hachure_lines] rotates back by. *)
Definition hachure_angle_rad `{MathLib} (o : Options) : Q :=
  math_radians (- (or_default (hachureAngle o) (-41) + 90)).

(** The bound for one polygon (polygons with fewer than three points are
    skipped), and for a list of polygons. *)
Definition polygon_sweep_bound `{MathLib} (o : Options) (poly : list Point) : nat :=
  match map (fun p => _rotatePoint p (- hachure_angle_rad o)) poly with
  | p0 :: ((_ :: _ :: _) as rest) => sweep_bound (min_y p0 rest) (max_y p0 rest)
  | _ => 0%nat
  end.

Definition hachure_budget `{MathLib} (o : Options) (polygonList : list (list Point)) : nat :=
  fold_right Nat.max 0%nat (map (polygon_sweep_bound o) polygonList).

(** The floats of the sweep from [minY] to [maxY] resolve the gap: the
    rounding of [y + gap], at most [2^-53] of the largest magnitude of the
    range, stays so far below [gap] that the bound of the specification on
    the iterations holds. *)
Definition sweep_resolved (gap minY maxY : Q) : Prop :=
  (Qmax (Qabs minY) (Qabs maxY) + gap) * (1 + 10 * (maxY - minY)) < 2 ^ 53 * gap.

Definition polygon_resolved `{MathLib} (o : Options) (poly : list Point) : Prop :=
  match map (fun p => _rotatePoint p (- hachure_angle_rad o)) poly with
  | p0 :: ((_ :: _ :: _) as rest) =>
      sweep_resolved (hachure_gap o) (min_y p0 rest) (max_y p0 rest)
  | _ => True
  end.

(** A triangle of height 1024 at the ordinate [10^17], where neighbouring
    floats are 16 apart. *)
Definition far_triangle : list Point :=
  [(0, 100000000000000000); (10, 100000000000000000); (5, 100000000000001024)].

(** The number of fill segments of a run, when it returns. *)
Definition segment_count (r : outcome (list Line)) : option nat :=
  match r with
  | Ret lines _ => Some (List.length lines)
  | _ => None
  end.

(** A triangle with a vertex at mid-height, and the options
    [hachureAngle=-90] (scan lines along the x axis) with a given gap. *)
Definition mid_vertex_triangle : list Point := [(0, 0); (10, 5); (0, 10)].

Definition flat_hachure (gap : Q) : Options :=
  set_hachureAngle (Some (-90)) (set_hachureGap (Some gap) ResolvedOptions_fields).

(** ** Names for the perturbation of a line *)

(** [random.random()] returns values of [[0, 1)]. *)
Definition unit_entropy (w : World) : Prop :=
  forall n, 0 <= entropy w n /\ entropy w n < 1.

(** The gain of the specification: 1 below length 200, a linear ramp
    from 1 at 200 down to 0.4 at 500, and 0.4 from 500 on. *)
Definition spec_gain (length : Q) : Q :=
  if Qltb length 200 then 1
  else if Qltb length 500 then 1 - (length - 200) * ((6 # 10) / 300)
  else 4 # 10.

(** The same options object with [roughness = 0]: what it draws is the
    unperturbed ("ideal") geometry, from the same random numbers. *)
Definition unperturbed (o : ResolvedOptions) : ResolvedOptions :=
  mkResolved (set_roughness (Some 0) o) (oid o).

(** Coordinates [cs] within the bounds [bs] of the coordinates [cs0]. *)
Fixpoint within (bs cs cs0 : list Q) : Prop :=
  match bs, cs, cs0 with
  | [], [], [] => True
  | b :: bs', c :: cs', c0 :: cs0' => Qabs (c - c0) <= b /\ within bs' cs' cs0'
  | _, _, _ => False
  end.

Definition op_within (bs : list Q) (a a0 : Op) : Prop :=
  op a = op a0 /\ within bs (data a) (data a0).

(** One pass of a line ([move] then [bcurveTo]) against its ideal: end
    points within [b_end]; abscissas and ordinates of the two control
    points within [b_cx] and [b_cy]. *)
Definition pass_within (b_end b_cx b_cy : Q) (pass ideal : list Op) : Prop :=
  match pass, ideal with
  | [mv; cv], [mv0; cv0] =>
      op_within [b_end; b_end] mv mv0
      /\ op_within [b_cx; b_cy; b_cx; b_cy; b_end; b_end] cv cv0
  | _, _ => False
  end.

(** A pass that starts and ends exactly at the given points. *)
Definition pass_pinned (x1 y1 x2 y2 : Q) (pass : list Op) : Prop :=
  match pass with
  | [mkOp move [mx; my]; mkOp bcurveTo [_; _; _; _; ex; ey]] =>
      mx == x1 /\ my == y1 /\ ex == x2 /\ ey == y2
  | _ => False
  end.

(** Option values for the examples: the library defaults with a seed. *)
Definition seeded_defaults (n : Z) : ResolvedOptions :=
  mkResolved (set_seed n ResolvedOptions_fields) 0.

Definition one_object_world (e : nat -> Q) : World := mkWorld [] [None] e 0%nat.

(** ** Two runs from one world

    [corun P m1 m2 R]: from any world that satisfies [P], both
    computations return, in the same final world (which satisfies [P]),
    values related by [R]. *)

Definition corun {A B} (P : World -> Prop) (m1 : M A) (m2 : M B)
    (R : A -> B -> Prop) : Prop :=
  forall fuel w, P w ->
    exists a b w', m1 fuel w = Ret a w' /\ m2 fuel w = Ret b w' /\ R a b /\ P w'.

(** ** Names for pinned end points *)

(** The options under which [lineOps] adds nothing to the end points:
    [preserveVertices] is set, or the roughness is zero. *)
Definition pins_vertices (o : Options) : Prop :=
  truthy (preserveVertices o) = true \/ or_default (roughness o) 1 == 0.

(** The primitives made of straight strokes, and the renderer function of
    each. *)
Inductive LinePrimitive : Type :=
| PrimLine (x1 y1 x2 y2 : Q)
| PrimLinearPath (points : list Point) (close : bool)
| PrimPolygon (points : list Point)
| PrimRectangle (x y width height : Q).

Definition render_primitive `{MathLib} (p : LinePrimitive) (o : ResolvedOptions)
  : M OpSet :=
  match p with
  | PrimLine x1 y1 x2 y2 => line x1 y1 x2 y2 o
  | PrimLinearPath points close => linearPath points close o
  | PrimPolygon points => polygon points o
  | PrimRectangle x y width height => rectangle x y width height o
  end.

(** The segments a list of points is drawn with. *)
Definition path_edges (points : list Point) (close : bool) : list (Point * Point) :=
  match points with
  | [] | [_] => []
  | [p; q] => [(p, q)]
  | p0 :: _ => consecutive points ++ (if close then [(List.last points p0, p0)] else [])
  end.

Definition primitive_edges (p : LinePrimitive) : list (Point * Point) :=
  match p with
  | PrimLine x1 y1 x2 y2 => [((x1, y1), (x2, y2))]
  | PrimLinearPath points close => path_edges points close
  | PrimPolygon points => path_edges points true
  | PrimRectangle x y width height =>
      path_edges [(x, y); (x + width, y); (x + width, y + height); (x, y + height)] true
  end.

(** Every segment is stroked once, or twice with multi-stroke. *)
Definition strokes (single : bool) (edges : list (Point * Point))
  : list (Point * Point) :=
  if single then edges else flat_map (fun e => [e; e]) edges.

(** The operations are one pinned pass after the other, along the given
    segments. *)
Fixpoint passes_pinned (edges : list (Point * Point)) (l : list Op) : Prop :=
  match edges with
  | [] => l = []
  | (p, q) :: es =>
      match l with
      | mv :: cv :: rest =>
          pass_pinned (fst p) (snd p) (fst q) (snd q) [mv; cv] /\ passes_pinned es rest
      | _ => False
      end
  end.

(** ** One run

    [returns P m Q]: from any world that satisfies [P] the computation
    returns a value that satisfies [Q], in a world that satisfies [P]. *)
Definition returns {A} (P : World -> Prop) (m : M A) (Q : A -> Prop) : Prop :=
  forall fuel w, P w -> exists a w', m fuel w = Ret a w' /\ Q a /\ P w'.

Definition any_world (w : World) : Prop := True.

(** The library defaults with seed 1 and [preserveVertices=True]. *)
Definition preserving_defaults : ResolvedOptions :=
  mkResolved (set_preserveVertices (Some true) (set_seed 1 ResolvedOptions_fields)) 0.

(** ** Names for the dots of the dot filler *)

(** A helper that records its calls: each call of [ellipse] yields one
    operation that holds the centre, the width and the height. *)
Definition RecordingHelper : RenderHelper := {|
  helper_randOffset := fun _ _ => ret 0;
  helper_randOffsetWithRange := fun _ _ _ => ret 0;
  helper_ellipse := fun x y w h _ => ret (mkOpSet pathSet [mkOp move [x; y; w; h]]);
  helper_doubleLineOps := fun x1 y1 x2 y2 _ => ret [mkOp lineTo [x1; y1; x2; y2]]
|}.

(** [max(0, ceil(L / gap) - 1)] dots on a segment of length [L]. *)
Definition dot_count `{MathLib} (gap : Q) (ln : Line) : nat :=
  Z.to_nat (Z.max 0 (math_ceil (line_length ln / gap) - 1)).

(** Where dot [i] of a segment belongs: on the segment (the hachure
    lines of the dot filler are vertical), [gap] apart from its
    neighbours, the last one a gap below the upper end:
    [(x, minY + (L - count * gap) + i * gap)], [x] being the abscissa of
    the middle of the segment. *)
Definition dot_ideal `{MathLib} (gap : Q) (ln : Line) (i : nat) : Point :=
  let length := line_length ln in
  let offset := length - inject_Z (Z.of_nat (dot_count gap ln)) * gap in
  ((fst (fst ln) + fst (snd ln)) / 2,
   Qmin (snd (fst ln)) (snd (snd ln)) + offset + inject_Z (Z.of_nat i) * gap).

Section DotsDrawn.
Context `{MathLib}.
(** [drawn cx cy w h l]: the operations [l] are what the helper's
    [ellipse(cx, cy, w, h, o)] returned. *)
Variable drawn : Q -> Q -> Q -> Q -> list Op -> Prop.

(** A dot of width and height [fweight], centred at most [gap / 2] to
    the left of its place and at most [gap / 4] above or below it. *)
Definition dot_drawn (gap fweight : Q) (ln : Line) (i : nat) (dot : list Op) : Prop :=
  exists cx cy,
    drawn cx cy fweight fweight dot
    /\ fst (dot_ideal gap ln i) - gap / 2 <= cx /\ cx <= fst (dot_ideal gap ln i)
    /\ Qabs (cy - snd (dot_ideal gap ln i)) <= gap / 4.

Definition line_dotted (gap fweight : Q) (ln : Line) (l : list Op) : Prop :=
  exists dots : list (list Op),
    l = concat dots /\ Forall2 (dot_drawn gap fweight ln) (seq 0 (dot_count gap ln)) dots.

Definition lines_dotted (gap fweight : Q) (lines : list Line) (l : list Op) : Prop :=
  exists parts : list (list Op),
    l = concat parts /\ Forall2 (line_dotted gap fweight) lines parts.

End DotsDrawn.

(** What [ellipse(cx, cy, w, h, o)] of the renderer returns, in some
    state of the random sources. *)
Definition ellipse_drawn `{MathLib} (o : ResolvedOptions) (cx cy w h : Q) (l : list Op)
  : Prop :=
  exists fuel w0 el w1, ellipse cx cy w h o fuel w0 = Ret el w1 /\ l = ops el.

(** What the recording helper leaves for one call. *)
Definition recorded (cx cy w h : Q) (l : list Op) : Prop := l = [mkOp move [cx; cy; w; h]].

(** One vertical segment of length 10, gap 4 and fill weight 1. *)
Definition dots_example_options : ResolvedOptions :=
  mkResolved (set_fillWeight (Some 1) (set_hachureGap (Some 4)
                (set_seed 42 ResolvedOptions_fields))) 0.

Definition dots_example_line : Line := ((0, 0), (0, 10)).

(** The same options with the fill style of the dot filler. *)
Definition dots_fill_options : ResolvedOptions :=
  mkResolved (set_fillStyle (Some "dots"%string) dots_example_options) 0.

(** ** Names for determinism *)

(** A seed whose generator never reaches the state 0. *)
Definition live_seed (s : Z) : Prop := (s mod LCG_MODULUS <> 0)%Z.

(** The seeds a request draws from: the seed of the resolved options
    and, for a curve drawn with multi-stroke, the next one, which
    [cloneOptionsSeed] gives to the second pass; none for a path drawn
    with a single stroke and no pattern fill, which is not sketched. *)
Definition seeds_drawn (req : ShapeRequest) (o : Options) : list Z :=
  match req with
  | ReqCurve _ =>
      if truthy (disableMultiStroke o) then [seed o] else [seed o; (seed o + 1)%Z]
  | ReqPath _ =>
      if truthy (disableMultiStroke o)
         && negb (nonempty (fill o) && negb (opt_is (fill o) "none")
                  && negb (opt_is (fill o) "transparent")
                  && negb (opt_is (fillStyle o) "solid"))
      then []
      else [seed o]
  | _ => [seed o]
  end.

(** Is the shape of the request filled by the dot filler?  The fill
    style is [dots] and the drawing method reaches its pattern fill. *)
Definition dot_filled (req : ShapeRequest) (o : Options) : bool :=
  opt_is (fillStyle o) "dots"
  && match req with
     | ReqLine _ _ _ _ | ReqLinearPath _ => false
     | ReqRectangle _ _ _ _ | ReqEllipse _ _ _ _ | ReqCircle _ _ _ | ReqPolygon _ =>
         nonempty (fill o)
     | ReqArc _ _ _ _ _ _ closed => closed && nonempty (fill o)
     | ReqCurve _ => nonempty (fill o) && negb (opt_is (fill o) "none")
     | ReqPath _ =>
         nonempty (fill o) && negb (opt_is (fill o) "none")
         && negb (opt_is (fill o) "transparent")
     end.

(** Two worlds that agree on everything seeded (the generators and who
    owns which) and differ at most in the process-wide source; every
    generator is live and every [_randgen] attribute points to one. *)
Record seeded_agree (w1 w2 : World) : Prop := mkAgree {
  agree_rands : rands w1 = rands w2;
  agree_randgen : randgen w1 = randgen w2;
  agree_live : Forall live_seed (rands w1);
  agree_range : forall i r, attr_get (randgen w1) i = Some r ->
                            (r < List.length (rands w1))%nat
}.

(** Two runs with the same result: the same value, the same exception, or
    both out of budget. *)
Definition same_outcome {A} (r1 r2 : outcome A) : Prop :=
  match r1, r2 with
  | Ret a _, Ret b _ => a = b
  | Raise e1, Raise e2 => e1 = e2
  | Timeout, Timeout => True
  | _, _ => False
  end.

(** [det Q m]: run from two worlds that agree on everything seeded, [m]
    has the same result, a value that satisfies [Q], and the final worlds
    agree again. *)
Definition det {A} (Q : A -> Prop) (m : M A) : Prop :=
  forall fuel w1 w2, seeded_agree w1 w2 ->
    match m fuel w1, m fuel w2 with
    | Ret a w1', Ret b w2' => a = b /\ Q a /\ seeded_agree w1' w2'
    | Raise e1, Raise e2 => e1 = e2
    | Timeout, Timeout => True
    | _, _ => False
    end.

Definition anything {A} (a : A) : Prop := True.

(** The fields of the generator's defaults and of the options a call
    resolves to. *)
Definition configured_defaults (config_options : option Options) : Options :=
  match config_options with
  | Some user_options => merge_options ResolvedOptions_fields user_options
  | None => ResolvedOptions_fields
  end.

Definition resolved_options (config_options options_ : option Options) : Options :=
  visibility_checks
    (merged_options (mkGenerator (mkResolved (configured_defaults config_options) 0))
                    options_).

(** ** Names for the properties of the options *)

(** Nothing to see: no fill colour and no stroke colour. *)
Definition invisible (o : Options) : bool :=
  empty_fill (fill o) && empty_fill (stroke o).

(** The three checks of the resolution on the three fields they read:
    the stroke and the fill they leave behind. *)
Definition checked_colours (sw : option Q) (st fi : option string)
  : option string * option string :=
  let st1 := match sw with
             | Some w => if Qeqb w 0 then Some "none"%string else st
             | None => st
             end in
  let st2 := if (is_none st1 || opt_is st1 "none") && empty_fill fi
             then Some "#000"%string else st1 in
  let fi3 := if empty_fill fi && (is_none st2 || opt_is st2 "" || opt_is st2 "none")
             then Some "#0f0"%string else fi in
  (st2, fi3).

(** ** Names for the properties of the path data *)

Local Open Scope char_scope.

(** An absolute command written back as a segment of [parsePathCommands]:
    the upper-case letter and the numbers. *)
Definition to_segment (a : AbsSegment) : Segment :=
  match a with
  | AbsM x y => ("M", [x; y])
  | AbsL x y => ("L", [x; y])
  | AbsH x => ("H", [x])
  | AbsV y => ("V", [y])
  | AbsC cx1 cy1 cx2 cy2 x3 y3 => ("C", [cx1; cy1; cx2; cy2; x3; y3])
  | AbsQ qx qy x3 y3 => ("Q", [qx; qy; x3; y3])
  | AbsA rx ry xrot laf swf ex ey => ("A", [rx; ry; xrot; laf; swf; ex; ey])
  | AbsZ => ("Z", [])
  end.

(** The letters the tokenizer takes for commands and [toAbsolute] has no
    branch for: the smooth curves. *)
Definition smooth_commands : list ascii := ["S"; "s"; "T"; "t"].

(** How many numbers one command of each letter takes. *)
Definition command_arity (upcmd : ascii) : option nat :=
  if Ascii.eqb upcmd "M" then Some 2%nat
  else if Ascii.eqb upcmd "L" then Some 2%nat
  else if Ascii.eqb upcmd "H" then Some 1%nat
  else if Ascii.eqb upcmd "V" then Some 1%nat
  else if Ascii.eqb upcmd "C" then Some 6%nat
  else if Ascii.eqb upcmd "Q" then Some 4%nat
  else if Ascii.eqb upcmd "A" then Some 7%nat
  else None.

Local Close Scope char_scope.

(** The command letters among the tokens, in order. *)
Definition commands_of (tokens : list string) : list ascii :=
  flat_map (fun t => match is_cmd t with Some c => [c] | None => [] end) tokens.

(** ** Names for the properties of the scan-line hachure *)

(** A point on an edge, strictly between the heights of its two ends. *)
Definition on_edge (e : Point * Point) (p : Point) : Prop :=
  let '((x1, y1), (x2, y2)) := e in
  Qmin y1 y2 < snd p /\ snd p < Qmax y1 y2
  /\ (fst p - x1) * (y2 - y1) == (snd p - y1) * (x2 - x1)
  /\ Qmin x1 x2 <= fst p /\ fst p <= Qmax x1 x2.

(** A point on the outline of a polygon. *)
Definition on_outline (poly : list Point) (p : Point) : Prop :=
  exists e, In e (polygon_edges poly) /\ on_edge e p.

(** A chord of a polygon for the hachure angle [angle_rad]: the polygon
    turned by [- angle_rad] has the two points [(a, y)] and [(b, y)],
    [a < b], on its outline, and the chord is the segment between them,
    turned back. *)
Definition hachure_chord `{MathLib} (angle_rad : Q) (poly : list Point) (ln : Line)
  : Prop :=
  let rpoly := map (fun p => _rotatePoint p (- angle_rad)) poly in
  exists y a b,
    ln = (_rotatePoint (a, y) angle_rad, _rotatePoint (b, y) angle_rad)
    /\ a < b /\ on_outline rpoly (a, y) /\ on_outline rpoly (b, y).

(** ** Names for the properties of the strokes *)



(** ** Names for runs that leave the world alone *)

(** Two runs, from the worlds [w1] and [w2], with the same result and
    no effect: the same value with both worlds as they were, the same
    exception, or both out of budget. *)
Definition same_run {A} (w1 w2 : World) (r1 r2 : outcome A) : Prop :=
  match r1, r2 with
  | Ret a w1', Ret b w2' => a = b /\ w1' = w1 /\ w2' = w2
  | Raise e1, Raise e2 => e1 = e2
  | Timeout, Timeout => True
  | _, _ => False
  end.

(** Two programs that do the same in every world and touch none. *)
Definition world_free {A} (m1 m2 : M A) : Prop :=
  forall fuel w1 w2, same_run w1 w2 (m1 fuel w1) (m2 fuel w2).

(** The library defaults with [disableMultiStroke=True] and a seed. *)
Definition single_stroke_defaults (n : Z) : ResolvedOptions :=
  mkResolved (set_disableMultiStroke (Some true) (set_seed n ResolvedOptions_fields)) 0.

(** ** Names for well-formed operations *)

(** An operation with the coordinates its kind takes: a point for [move]
    and [lineTo], two control points and the end point for [bcurveTo]. *)
Definition well_formed (a : Op) : Prop :=
  List.length (data a)
  = match op a with move | lineTo => 2%nat | bcurveTo => 6%nat end.

Definition well_formed_set (s : OpSet) : Prop := Forall well_formed (ops s).

Definition well_formed_drawable (d : Drawable) : Prop :=
  Forall well_formed_set (sets d).

(** Whenever [m] returns, its value satisfies [Q]. *)
Definition post {A} (m : M A) (Q : A -> Prop) : Prop :=
  forall fuel w a w', m fuel w = Ret a w' -> Q a.

(** ** [rough/canvas.py]: the transformation matrix of the canvas *)

(** [_matrixMultiply]: the product of two 3 x 3 matrices in row-major
    lists; an index out of range raises [IndexError], entries after the
    ninth are not read. *)
Definition _matrixMultiply (m1 m2 : list Q) : M (list Q) :=
  match m1, m2 with
  | a0 :: a1 :: a2 :: a3 :: a4 :: a5 :: a6 :: a7 :: a8 :: _,
    b0 :: b1 :: b2 :: b3 :: b4 :: b5 :: b6 :: b7 :: b8 :: _ =>
      ret [a0 * b0 + a1 * b3 + a2 * b6;
           a0 * b1 + a1 * b4 + a2 * b7;
           a0 * b2 + a1 * b5 + a2 * b8;
           a3 * b0 + a4 * b3 + a5 * b6;
           a3 * b1 + a4 * b4 + a5 * b7;
           a3 * b2 + a4 * b5 + a5 * b8;
           a6 * b0 + a7 * b3 + a8 * b6;
           a6 * b1 + a7 * b4 + a8 * b7;
           a6 * b2 + a7 * b5 + a8 * b8]
  | _, _ => raise IndexError
  end.

(** [_transformXY]: the matrix applied to the point [(x, y, 1)]. *)
Definition _transformXY (x y : Q) (mat : list Q) : M Point :=
  match mat with
  | m0 :: m1 :: m2 :: m3 :: m4 :: m5 :: _ =>
      ret (x * m0 + y * m1 + m2, x * m3 + y * m4 + m5)
  | _ => raise IndexError
  end.

(** [FakeCanvasContext]: the object and its methods, each returning the
    object after the call. *)
Record FakeCanvasContext : Type := mkContext { _matrix : list Q }.

Definition FakeCanvasContext_init : FakeCanvasContext :=
  mkContext [1; 0; 0; 0; 1; 0; 0; 0; 1].

Definition translate (self : FakeCanvasContext) (dx dy : Q) : M FakeCanvasContext :=
  let tm := [1; 0; dx; 0; 1; dy; 0; 0; 1] in
  m <- _matrixMultiply (_matrix self) tm ;; ret (mkContext m).

Definition scale (self : FakeCanvasContext) (sx sy : Q) : M FakeCanvasContext :=
  let sm := [sx; 0; 0; 0; sy; 0; 0; 0; 1] in
  m <- _matrixMultiply (_matrix self) sm ;; ret (mkContext m).

Definition rotate `{MathLib} (self : FakeCanvasContext) (angle_radians : Q)
  : M FakeCanvasContext :=
  let c := math_cos angle_radians in
  let s := math_sin angle_radians in
  let rm := [c; - s; 0; s; c; 0; 0; 0; 1] in
  m <- _matrixMultiply (_matrix self) rm ;; ret (mkContext m).

Definition resetTransform (self : FakeCanvasContext) : M FakeCanvasContext :=
  ret (mkContext [1; 0; 0; 0; 1; 0; 0; 0; 1]).

Definition currentTransform (self : FakeCanvasContext) : list Q := _matrix self.

(** ** Names for the properties of the transformation matrix *)

(** The calls that change the matrix, and a sequence of them run on a
    context. *)
Inductive ContextCall : Type :=
| CallTranslate (dx dy : Q)
| CallScale (sx sy : Q)
| CallRotate (angle_radians : Q)
| CallResetTransform.

Definition call `{MathLib} (self : FakeCanvasContext) (c : ContextCall)
  : M FakeCanvasContext :=
  match c with
  | CallTranslate dx dy => translate self dx dy
  | CallScale sx sy => scale self sx sy
  | CallRotate a => rotate self a
  | CallResetTransform => resetTransform self
  end.

(** A 3 x 3 matrix whose last row is [0 0 1]. *)
Definition affine (m : list Q) : Prop :=
  match m with
  | [_; _; _; _; _; _; g; h; i] => g == 0 /\ h == 0 /\ i == 1
  | _ => False
  end.

(** Two points with equal coordinates. *)
Definition same_point (p q : Point) : Prop := fst p == fst q /\ snd p == snd q.

(** ** Names for the termination of the ellipse *)

(** The step count of [generateEllipseParams]. *)
Definition ellipse_step_count `{MathLib} (width height : Q) (o : Options) : Z :=
  let cstep := or_default (curveStepCount o) 9%Z in
  let psq := math_sqrt (math_pi * 2
                        * math_sqrt (((width / 2) ^ 2 + (height / 2) ^ 2) / 2)) in
  Z.max cstep (Qtrunc ((inject_Z cstep / math_sqrt 200) * psq)).

(** The sizes, the step count and the roughness for which the floats of
    the sweep of an ellipse resolve its steps: a step count of at least 1
    and at most [2^40], a roughness of at most 1000 (the sweep starts at
    an angle drawn in proportion to it), and sizes whose squares are
    floats ([(width / 2) ** 2] raises [OverflowError] beyond them, which
    the rationals of the embedding do not show). *)
Definition ellipse_resolved `{MathLib} (width height : Q) (o : Options) : Prop :=
  (1 <= or_default (curveStepCount o) 9)%Z
  /\ (ellipse_step_count width height o <= 2 ^ 40)%Z
  /\ Qabs (or_default (roughness o) 1) <= 1000
  /\ Qabs width <= 2 ^ 500 /\ Qabs height <= 2 ^ 500.

(** The loop budget of an ellipse: every step of a sweep advances the
    angle by half of it at the least, and a step is [2 pi / steps], or a
    quarter of that when the roughness is 0. *)
Definition ellipse_budget `{MathLib} (width height : Q) (o : Options) : nat :=
  (8 * Z.to_nat (ellipse_step_count width height o) + 1)%nat.

(** From a world that satisfies [P] and with a loop budget of at least
    [n], [m] returns a value that satisfies [Q], in a world that satisfies
    [P]. *)
Definition returns_from {A} (P : World -> Prop) (n : nat) (m : M A) (Q : A -> Prop)
  : Prop :=
  forall fuel w, (n <= fuel)%nat -> P w ->
    exists a w', m fuel w = Ret a w' /\ Q a /\ P w'.

(** ** Names for the outline sampled from a path *)

(** The points that the coordinates of an operation spell out, two
    numbers at a time. *)
Fixpoint data_points (d : list Q) : list Point :=
  match d with
  | x :: y :: rest => (x, y) :: data_points rest
  | _ => []
  end.

(** [p] lies in the axis-parallel box with corners [lo] and [hi]. *)
Definition in_box (lo hi p : Point) : Prop :=
  (fst lo <= fst p /\ fst p <= fst hi) /\ (snd lo <= snd p /\ snd p <= snd hi).

Definition op_in_box (lo hi : Point) (a : Op) : Prop :=
  Forall (in_box lo hi) (data_points (data a)).

(** * Properties *)

Unset Implicit Arguments.

Lemma Qleb_le a b : Qleb a b = true <-> a <= b.
Proof. apply Qle_bool_iff. Qed.

Lemma Qltb_lt a b : Qltb a b = true <-> a < b.
Proof.
  unfold Qltb. rewrite negb_true_iff. split; intro H.
  - apply Qnot_le_lt. intro L. apply Qle_bool_iff in L. congruence.
  - destruct (Qle_bool b a) eqn:E; [|reflexivity].
    apply Qle_bool_iff in E. exfalso. exact (Qlt_not_le _ _ H E).
Qed.

Lemma Qltb_ge a b : Qltb a b = false <-> b <= a.
Proof.
  unfold Qltb. rewrite negb_false_iff. apply Qle_bool_iff.
Qed.

Lemma Qleb_gt a b : Qleb a b = false <-> b < a.
Proof.
  rewrite <- Qltb_lt. unfold Qltb, Qleb.
  destruct (Qle_bool a b); simpl; intuition congruence.
Qed.

Lemma Qmax_ge_r a b : b <= Qmax a b.
Proof.
  unfold Qmax. destruct (Qltb a b) eqn:E.
  - apply Qle_refl.
  - apply Qltb_ge in E. exact E.
Qed.

Lemma Qabs_between (lo hi y : Q) :
  lo <= y -> y <= hi -> Qabs y <= Qmax (Qabs lo) (Qabs hi).
Proof.
  intros L U. unfold Qmax. destruct (Qltb (Qabs lo) (Qabs hi)) eqn:C;
    [apply Qltb_lt in C|apply Qltb_ge in C];
    pose proof (Qle_Qabs hi); pose proof (Qle_Qabs (- lo)) as Hl;
    rewrite Qabs_opp in Hl; apply Qabs_Qle_condition; split; lra.
Qed.

(** ** Float addition *)

Lemma round_to_even_error (s : Q) : Qabs (inject_Z (round_to_even s) - s) <= 1 # 2.
Proof.
  unfold round_to_even. cbv zeta.
  pose proof (Qfloor_le s) as Lo. pose proof (Qlt_floor s) as Hi.
  rewrite inject_Z_plus in Hi. change (inject_Z 1) with 1 in Hi.
  assert (Up : inject_Z (Qfloor s + 1) == inject_Z (Qfloor s) + 1)
    by (rewrite inject_Z_plus; reflexivity).
  destruct (Qcompare_spec (s - inject_Z (Qfloor s)) (1 # 2)) as [E|L|G].
  - destruct (Z.even (Qfloor s)); [|rewrite Up]; apply Qabs_Qle_condition; split; lra.
  - apply Qabs_Qle_condition; split; lra.
  - rewrite Up. apply Qabs_Qle_condition; split; lra.
Qed.

Lemma two_power_positive (k : Z) : 0 < 2 ^ k.
Proof. apply Qpower_0_lt. reflexivity. Qed.

Lemma two_power_succ (k : Z) : 2 ^ (k + 1) == 2 ^ k * 2.
Proof. rewrite Qpower_plus by discriminate. reflexivity. Qed.

Lemma two_power_inverse (k : Z) : 2 ^ k * 2 ^ (- k) == 1.
Proof.
  rewrite <- Qpower_plus by discriminate. rewrite Z.add_opp_diag_r. reflexivity.
Qed.

Lemma log2_bounds (n : Z) :
  (0 < n)%Z -> 2 ^ Z.log2 n <= inject_Z n /\ inject_Z n < 2 ^ (Z.log2 n) * 2.
Proof.
  intro Hn. destruct (Z.log2_spec n Hn) as [Lo Hi].
  pose proof (Z.log2_nonneg n) as Hl.
  split.
  - change 2 with (inject_Z 2). rewrite <- Zpower_Qpower by exact Hl.
    rewrite <- Zle_Qle. exact Lo.
  - rewrite <- two_power_succ. change 2 with (inject_Z 2).
    rewrite <- Zpower_Qpower by lia. rewrite <- Zlt_Qlt.
    unfold Z.succ in Hi. exact Hi.
Qed.

(** The scaled value has at least 53 bits before the point. *)
Lemma float_exponent_spec (x : Q) :
  0 < x -> 2 ^ 52 <= x * 2 ^ (- float_exponent x).
Proof.
  intro Hx. unfold float_exponent. cbv zeta.
  set (ln := Z.log2 (Qnum x)). set (ld := Z.log2 (Zpos (Qden x))).
  set (e0 := (ln - ld - 53)%Z).
  assert (Hn : (0 < Qnum x)%Z).
  { unfold Qlt in Hx. cbn in Hx. lia. }
  destruct (log2_bounds (Qnum x) Hn) as [NL NH]. fold ln in NL, NH.
  destruct (log2_bounds (Zpos (Qden x)) eq_refl) as [DL DH]. fold ld in DL, DH.
  assert (Ex : x == inject_Z (Qnum x) / inject_Z (Zpos (Qden x))).
  { rewrite <- (Qmake_Qdiv (Qnum x) (Qden x)). destruct x; reflexivity. }
  assert (Dp : 0 < inject_Z (Zpos (Qden x))) by reflexivity.
  pose proof (two_power_positive ln) as Pn. pose proof (two_power_positive ld) as Pd.
  assert (S0 : 2 ^ 52 < x * 2 ^ (- e0)).
  { assert (E : 2 ^ (- e0) == 2 ^ 53 * 2 ^ ld * 2 ^ (- ln)).
    { unfold e0. replace (- (ln - ld - 53))%Z with (53 + ld + - ln)%Z by lia.
      rewrite !Qpower_plus by discriminate. reflexivity. }
    rewrite E, Ex.
    pose proof (two_power_inverse ln) as I.
    pose proof (two_power_positive (- ln)) as Pi.
    set (A := 2 ^ ln) in *. set (B := 2 ^ ld) in *. set (A' := 2 ^ (- ln)) in *.
    set (n := inject_Z (Qnum x)) in *. set (d := inject_Z (Zpos (Qden x))) in *.
    assert (T : n / d * (2 ^ 53 * B * A') == (2 ^ 52) * ((n * A') * (2 * B / d))).
    { field. intro Z. rewrite Z in Dp. apply (Qlt_irrefl 0 Dp). }
    rewrite T.
    assert (U : 1 <= n * A').
    { rewrite <- I. apply Qmult_le_compat_r; [exact NL|]. apply Qlt_le_weak, Pi. }
    assert (V : 1 < 2 * B / d).
    { apply Qlt_shift_div_l; [exact Dp|]. lra. }
    assert (W : 0 < 2 ^ 52) by reflexivity.
    nra. }
  destruct (Qltb (x * 2 ^ (- e0)) (2 ^ 53)) eqn:C.
  - apply Qlt_le_weak, S0.
  - apply Qltb_ge in C.
    replace (- (e0 + 1))%Z with (- e0 + - (1))%Z by lia.
    rewrite Qpower_plus by discriminate.
    change (2 ^ (- (1))) with (1 # 2). change (2 ^ 53) with (2 ^ 52 * 2) in C.
    set (P := 2 ^ (- e0)) in *. set (K := 2 ^ 52) in *. nra.
Qed.

Lemma round_float_eq (x y : Q) : x == y -> round_float x = round_float y.
Proof. intro E. unfold round_float. rewrite (Qred_complete x y E). reflexivity. Qed.

(** The relative error of rounding is at most [2^-53]. *)
Lemma round_float_error (x : Q) : Qabs (round_float x - x) <= Qabs x / 2 ^ 53.
Proof.
  unfold round_float. cbv zeta. pose proof (Qred_correct x) as Ex.
  set (r := Qred x) in *. rewrite <- Ex. clear Ex.
  destruct (Qeqb r 0) eqn:Z.
  - apply Qeq_bool_iff in Z. rewrite Z. discriminate.
  - assert (Nz : ~ r == 0).
    { intro E. apply Qeq_bool_iff in E. unfold Qeqb in Z. congruence. }
    assert (Ha : 0 < Qabs r).
    { destruct (Qlt_le_dec r 0) as [L|G].
      - rewrite Qabs_neg by lra. lra.
      - rewrite Qabs_pos by exact G.
        apply Qle_lteq in G. destruct G as [G|G]; [exact G|].
        exfalso. apply Nz. symmetry. exact G. }
    set (a := Qabs r) in *. set (e := float_exponent a).
    pose proof (float_exponent_spec a Ha) as S. fold e in S.
    pose proof (round_to_even_error (a * 2 ^ (- e))) as R.
    set (m := inject_Z (round_to_even (a * 2 ^ (- e)))) in *.
    pose proof (two_power_positive e) as Pe.
    pose proof (two_power_inverse e) as I.
    set (P := 2 ^ e) in *. set (P' := 2 ^ (- e)) in *.
    apply Qabs_Qle_condition in R. destruct R as [R1 R2].
    assert (K : 0 < 2 ^ 53) by reflexivity.
    assert (B : Qabs (m * P - a) <= a / 2 ^ 53).
    { apply Qle_shift_div_l; [exact K|].
      change (2 ^ 52) with (4503599627370496 # 1) in S.
      change (2 ^ 53) with (9007199254740992 # 1).
      assert (Ea : a == (a * P') * P) by (rewrite <- Qmult_assoc, (Qmult_comm P'), I; ring).
      set (s := a * P') in *.
      assert (D : Qabs (m * P - a) == Qabs (m - s) * P).
      { rewrite Ea. setoid_replace (m * P - s * P) with ((m - s) * P) by ring.
        rewrite Qabs_Qmult. rewrite (Qabs_pos P) by (apply Qlt_le_weak, Pe). reflexivity. }
      rewrite D.
      assert (M : Qabs (m - s) <= 1 # 2) by (apply Qabs_Qle_condition; split; lra).
      pose proof (Qabs_nonneg (m - s)).
      rewrite Ea. set (q := Qabs (m - s)) in *. clearbody q. nra. }
    rewrite Qred_correct.
    destruct (Qltb r 0) eqn:Sg.
    + apply Qltb_lt in Sg.
      assert (Er : r == - a) by (unfold a; rewrite Qabs_neg by lra; ring).
      rewrite Er.
      setoid_replace (- (m * P) - - a) with (- (m * P - a)) by ring.
      rewrite Qabs_opp. exact B.
    + apply Qltb_ge in Sg.
      assert (Er : r == a) by (unfold a; rewrite Qabs_pos by lra; reflexivity).
      rewrite Er. exact B.
Qed.

(** Adding [gap] to [y] advances [y] by [gap] up to the rounding, which
    is at most [2^-53] of a bound on the sum. *)
Lemma float_add_advances (y gap bound : Q) :
  Qabs (y + gap) <= bound -> y + gap - bound / 2 ^ 53 <= float_add y gap.
Proof.
  intro Hb. unfold float_add. pose proof (round_float_error (y + gap)) as E.
  assert (K : 0 < 2 ^ 53) by reflexivity.
  assert (E' : Qabs (round_float (y + gap) - (y + gap)) <= bound / 2 ^ 53).
  { eapply Qle_trans; [exact E|]. unfold Qdiv. apply Qmult_le_compat_r; [exact Hb|].
    apply Qlt_le_weak, Qinv_lt_0_compat, K. }
  apply Qabs_Qle_condition in E'. lra.
Qed.

(** ** The seeded random source *)

Lemma list_set_length {A} (l : list A) i v :
  List.length (list_set l i v) = List.length l.
Proof.
  revert i; induction l as [|x l IH]; intros [|i]; simpl; auto.
Qed.

Lemma nth_list_set_same {A} (l : list A) i v d :
  (i < List.length l)%nat -> nth i (list_set l i v) d = v.
Proof.
  revert i; induction l as [|x l IH]; intros [|i] Hi; simpl in *; try lia; auto.
  apply IH. lia.
Qed.

Lemma nth_list_set_other {A} (l : list A) i j v d :
  i <> j -> nth j (list_set l i v) d = nth j l d.
Proof.
  revert i j; induction l as [|x l IH]; intros [|i] [|j] Hij; simpl; auto; try congruence.
Qed.

(** The multiplier is invertible modulo the (prime) modulus, so a state
    that is not a multiple of the modulus never becomes one. *)
Lemma lcg_coprime : Z.gcd LCG_MODULUS LCG_MULTIPLIER = 1%Z.
Proof. vm_compute. reflexivity. Qed.

Lemma lcg_step_nonzero (s : Z) :
  (s mod LCG_MODULUS <> 0)%Z -> ((s * LCG_MULTIPLIER) mod LCG_MODULUS <> 0)%Z.
Proof.
  intros Hs Hz. apply Hs.
  apply Z.mod_divide in Hz; [|discriminate].
  apply Z.mod_divide; [discriminate|].
  apply Z.gauss with (m := LCG_MULTIPLIER).
  - rewrite Z.mul_comm. exact Hz.
  - exact lcg_coprime.
Qed.

Lemma lcg_step_range (s : Z) :
  (s mod LCG_MODULUS <> 0)%Z ->
  (0 < (s * LCG_MULTIPLIER) mod LCG_MODULUS < LCG_MODULUS)%Z.
Proof.
  intro Hs. pose proof (lcg_step_nonzero s Hs) as Hn.
  pose proof (Z.mod_pos_bound (s * LCG_MULTIPLIER) LCG_MODULUS eq_refl). lia.
Qed.

Lemma in_range_live (s : Z) :
  (0 < s < LCG_MODULUS)%Z -> (s mod LCG_MODULUS <> 0)%Z.
Proof. intro Hs. rewrite Z.mod_small; lia. Qed.

Lemma spec_lcg_state_range (s : Z) (n : nat) :
  (0 < s < LCG_MODULUS)%Z -> (0 < spec_lcg_state s n < LCG_MODULUS)%Z.
Proof.
  intro Hs. induction n as [|n IH]; simpl; [exact Hs|].
  apply (lcg_step_range _ (in_range_live _ IH)).
Qed.

Lemma spec_lcg_state_shift (s : Z) (n : nat) :
  spec_lcg_state (spec_lcg_state s 1) n = spec_lcg_state s (S n).
Proof. induction n as [|n IH]; simpl in *; [reflexivity|]. rewrite IH. reflexivity. Qed.

Lemma unit_fraction_range (z : Z) :
  (0 <= z < LCG_MODULUS)%Z -> 0 <= inject_Z z / inject_Z LCG_MODULUS /\
                              inject_Z z / inject_Z LCG_MODULUS < 1.
Proof.
  intros [H0 H1]. unfold Qdiv, Qle, Qlt, Qmult, Qinv, inject_Z; simpl.
  unfold LCG_MODULUS in *. lia.
Qed.

Lemma Random_next_n_live (n : nat) : forall (st : Z) (r fuel : nat) (w : World),
  nth r (rands w) 0%Z = st -> (r < List.length (rands w))%nat ->
  (0 < st < LCG_MODULUS)%Z ->
  exists w',
    Random_next_n r n fuel w = Ret (map (fun k => spec_lcg_output st (S k)) (seq 0 n)) w'
    /\ cursor w' = cursor w /\ randgen w' = randgen w
    /\ List.length (rands w') = List.length (rands w).
Proof.
  induction n as [|n IH]; intros st r fuel w Hst Hr Hrange.
  - exists w. simpl. auto.
  - simpl. unfold bind at 1. unfold Random_next, bind, Random_state. rewrite Hst.
    destruct (Z.eqb_spec st 0) as [E|_]; [lia|]. simpl.
    set (w1 := mkWorld _ _ _ _).
    destruct (IH ((st * LCG_MULTIPLIER) mod LCG_MODULUS)%Z r fuel w1) as (w' & Hrun & Hc & Hg & Hl).
    + subst w1; simpl. apply nth_list_set_same. exact Hr.
    + subst w1; simpl. rewrite list_set_length. exact Hr.
    + apply lcg_step_range, in_range_live, Hrange.
    + exists w'. rewrite Hrun. subst w1; simpl in *. rewrite list_set_length in Hl.
      repeat split; auto. unfold ret. f_equal. f_equal.
      rewrite <- seq_shift, map_map. apply map_ext. intro k.
      unfold spec_lcg_output. rewrite <- (spec_lcg_state_shift st (S k)). reflexivity.
Qed.

(** C2. For a seed [s] with [0 < s < 2^31 - 1], the [k]-th call of
    [next()] on [Random(s)] returns [s_k / (2^31 - 1)], where [s_0 = s] and
    [s_(n+1) = (s_n * 48271) mod (2^31 - 1)]; every returned value lies in
    [[0, 1)], and the process-wide source is never consulted. *)
Theorem Random_next_follows_recurrence (s : Z) (n fuel : nat) (w : World) :
  (0 < s < 2 ^ 31 - 1)%Z ->
  exists w',
    (r <- Random_new s ;; Random_next_n r n) fuel w
      = Ret (map (fun k => spec_lcg_output s (S k)) (seq 0 n)) w'
    /\ cursor w' = cursor w
    /\ forall k, (k < n)%nat ->
         0 <= spec_lcg_output s (S k) /\ spec_lcg_output s (S k) < 1.
Proof.
  intro Hs. unfold bind, Random_new.
  destruct (Random_next_n_live n s (List.length (rands w)) fuel
              (mkWorld (rands w ++ [s]) (randgen w) (entropy w) (cursor w)))
    as (w' & Hrun & Hc & _ & _).
  - simpl. rewrite app_nth2, Nat.sub_diag; [reflexivity|lia].
  - simpl. rewrite length_app. simpl. lia.
  - exact Hs.
  - exists w'. split; [exact Hrun|]. split; [exact Hc|].
    intros k _. unfold spec_lcg_output.
    apply (unit_fraction_range (spec_lcg_state s (S k))).
    pose proof (spec_lcg_state_range s (S k) Hs). lia.
Qed.

Lemma Random_next_follows_recurrence_witness :
  exists w',
    (r <- Random_new 42 ;; Random_next_n r 3) 0%nat (mkWorld [] [] (fun _ => 0) 0)
      = Ret (map (fun k => spec_lcg_output 42 (S k)) (seq 0 3)) w'
    /\ cursor w' = 0%nat
    /\ forall k, (k < 3)%nat ->
         0 <= spec_lcg_output 42 (S k) /\ spec_lcg_output 42 (S k) < 1.
Proof.
  apply (Random_next_follows_recurrence 42 3 0 (mkWorld [] [] (fun _ => 0) 0)).
  lia.
Defined.

(** ** Options resolution *)

Lemma _o_returns (self : RoughGenerator) (options_ : option Options)
    (fuel : nat) (w : World) :
  exists i w',
    _o self options_ fuel w
      = Ret (mkResolved (visibility_checks (merged_options self options_)) i) w'.
Proof.
  unfold _o, bind, ResolvedOptions_init, new_object, get_randgen, ret. simpl.
  destruct (attr_get (randgen w ++ [None]) (oid (defaultOptions self))) as [r|];
    simpl; unfold merged_options; destruct options_; eauto.
Qed.




(** The third check fires for the one stroke the second lets through:
    the empty string (with a stroke width that is not zero). *)
Lemma visibility_checks_empty_stroke (m : Options) :
  empty_fill (fill m) = true ->
  stroke m = Some ""%string ->
  match strokeWidth m with Some sw => Qeqb sw 0 = false | None => True end ->
  stroke (visibility_checks m) = Some ""%string
  /\ fill (visibility_checks m) = Some FALLBACK_FILL.
Proof.
  intros Hf Hs Hw. unfold visibility_checks.
  assert (E : hide_zero_width_stroke m = m).
  { unfold hide_zero_width_stroke. destruct (strokeWidth m); [rewrite Hw|]; reflexivity. }
  rewrite E. unfold default_stroke_if_hidden. rewrite Hs. simpl.
  unfold default_fill_if_empty. rewrite Hf, Hs. simpl. auto.
Qed.





(** ** Loops that count up to a bound *)


(** A loop whose body is a pure step [f] that lowers a rational measure
    by at least [delta > 0], the measure being non-negative whenever the
    test holds: [n] iterations suffice once [mu s < n * delta]. *)
Lemma while_loop_counts_down {St} (cond : St -> bool) (body : St -> M St)
    (f : St -> St) (mu : St -> Q) (delta : Q) (Inv : St -> Prop) :
  0 < delta ->
  (forall s fuel w, body s fuel w = Ret (f s) w) ->
  (forall s, Inv s -> cond s = true -> 0 <= mu s) ->
  (forall s, Inv s -> cond s = true -> mu (f s) <= mu s - delta) ->
  (forall s, Inv s -> cond s = true -> Inv (f s)) ->
  forall n s fuel w,
    Inv s -> mu s < inject_Z (Z.of_nat n) * delta ->
    exists s', while_loop cond body n s fuel w = Ret s' w /\ Inv s' /\ cond s' = false.
Proof.
  intros Hd Hbody Hpos Hdec Hinv n.
  induction n as [|n IH]; intros s fuel w HI Hmu; simpl;
    destruct (cond s) eqn:C; try (exists s; unfold ret; auto; fail).
  - exfalso. pose proof (Hpos s HI C) as P.
    change (inject_Z (Z.of_nat 0)) with 0 in Hmu.
    assert (Z0 : 0 * delta == 0) by ring. rewrite Z0 in Hmu. lra.
  - unfold bind. rewrite Hbody. apply IH; [auto|].
    pose proof (Hdec s HI C) as D.
    rewrite Nat2Z.inj_succ in Hmu. unfold Z.succ in Hmu. rewrite inject_Z_plus in Hmu.
    change (inject_Z 1) with 1 in Hmu.
    assert (E : (inject_Z (Z.of_nat n) + 1) * delta
                == inject_Z (Z.of_nat n) * delta + delta) by ring.
    rewrite E in Hmu. lra.
Qed.



(** ** Arc angles *)

Section ArcAngles.
Context `{MathLib}.
Hypothesis pi_positive : 0 < math_pi.




End ArcAngles.


(** The example of the specification, run: [arc(start=-1, stop=1)] and
    [arc(start=-1+2*pi, stop=1+2*pi)] normalise to the same pair. *)
Example arc_minus_one_one :
  normalize_angles (H := RationalMath) (- (1)) 1 1%nat (fresh_world (fun _ => 0))
  = normalize_angles (H := RationalMath) (- (1) + rational_pi * 2) (1 + rational_pi * 2)
      1%nat (fresh_world (fun _ => 0)).
Proof. vm_compute. reflexivity. Qed.

(** ** The scan-line sweep *)

Lemma hachure_gap_clamped (o : Options) : 1 # 10 <= hachure_gap o.
Proof. unfold hachure_gap. apply Qmax_ge_r. Qed.

(** With a resolved gap every step advances by [gap] less the rounding,
    and the budget of the specification covers the sweep. *)
Lemma sweep_bound_enough (minY maxY gap : Q) (fuel : nat) :
  1 # 10 <= gap -> minY <= maxY -> sweep_resolved gap minY maxY ->
  (sweep_bound minY maxY <= fuel)%nat ->
  let delta := gap - (Qmax (Qabs minY) (Qabs maxY) + gap) / 2 ^ 53 in
  0 < delta /\ maxY - minY < inject_Z (Z.of_nat fuel) * delta.
Proof.
  intros Hg Hm Hr Hf. unfold sweep_resolved in Hr. unfold sweep_bound in Hf.
  set (D := maxY - minY) in *.
  set (B := Qmax (Qabs minY) (Qabs maxY) + gap) in *.
  assert (HD : 0 <= D) by (unfold D; lra).
  assert (HB : gap <= B).
  { unfold B. pose proof (Qmax_ge_r (Qabs minY) (Qabs maxY)).
    pose proof (Qabs_nonneg maxY). lra. }
  assert (K : 0 < 2 ^ 53) by reflexivity.
  set (X := B / 2 ^ 53).
  assert (EX : B == X * 2 ^ 53) by (unfold X; field; discriminate).
  assert (HX : (1 + 10 * D) * X < gap).
  { rewrite EX in Hr. set (P := 2 ^ 53) in *. clearbody P X. nra. }
  assert (X0 : 0 <= X).
  { unfold X. apply Qle_shift_div_l; [exact K|]. lra. }
  pose proof (Qle_ceiling (D / (1 # 10))) as Hc.
  assert (Hn : inject_Z (Qceiling (D / (1 # 10))) + 1 <= inject_Z (Z.of_nat fuel)).
  { change 1 with (inject_Z 1). rewrite <- inject_Z_plus, <- Zle_Qle. lia. }
  assert (HF : 10 * D + 1 <= inject_Z (Z.of_nat fuel)).
  { assert (E : D / (1 # 10) == 10 * D) by (field).
    set (c := inject_Z (Qceiling (D / (1 # 10)))) in *. clearbody c.
    rewrite E in Hc. lra. }
  cbv zeta. fold B. fold X. clearbody X D B.
  set (F := inject_Z (Z.of_nat fuel)) in *. clearbody F.
  assert (P1 : 0 <= D * X) by (apply Qmult_le_0_compat; assumption).
  assert (G1 : 0 < gap - X) by lra.
  split; [exact G1|].
  assert (P2 : 0 <= (F - (10 * D + 1)) * (gap - X))
    by (apply Qmult_le_0_compat; lra).
  assert (P3 : 0 <= D * (gap - (1 # 10))) by (apply Qmult_le_0_compat; lra).
  lra.
Qed.

Lemma post_ret {A} (a : A) (Q : A -> Prop) : Q a -> post (ret a) Q.
Proof. intros Ha fuel w b w' E. unfold ret in E. injection E as <- _. exact Ha. Qed.

Lemma post_raise {A} (e : exn) (Q : A -> Prop) : post (raise e) Q.
Proof. intros fuel w b w' E. discriminate E. Qed.

Lemma post_any {A} (m : M A) : post m (fun _ => True).
Proof. intros fuel w b w' E. exact I. Qed.

Lemma post_bind {A B} (m : M A) (k : A -> M B) (Q : A -> Prop) (Q' : B -> Prop) :
  post m Q -> (forall a, Q a -> post (k a) Q') -> post (bind m k) Q'.
Proof.
  intros Hm Hk fuel w b w' E. unfold bind in E.
  destruct (m fuel w) as [a w1| |] eqn:Em; try discriminate.
  apply (Hk a (Hm fuel w a w1 Em) fuel w1 b w' E).
Qed.

(** A loop whose test holds on a set of states that the body never
    leaves does not come to an end, whatever the budget. *)
Lemma while_never_exits {St} (cond : St -> bool) (body : St -> M St) (Inv : St -> Prop) :
  (forall s, Inv s -> cond s = true) ->
  (forall s, Inv s -> post (body s) Inv) ->
  forall s, Inv s -> post (while cond body s) (fun _ => False).
Proof.
  intros Hc Hb s Hs fuel w s' w'. unfold while. generalize fuel at 1. intro n.
  revert s Hs w. induction n as [|n IH]; intros s Hs w E; cbn [while_loop] in E;
    rewrite (Hc s Hs) in E.
  - discriminate E.
  - unfold bind in E. destruct (body s fuel w) as [s1 w1| |] eqn:Eb; try discriminate E.
    exact (IH s1 (Hb s Hs fuel w s1 w1 Eb) w1 E).
Qed.

Section Sweep.
Context `{MathLib}.

Lemma min_y_le_max_y (p0 : Point) (rest : list Point) : min_y p0 rest <= max_y p0 rest.
Proof.
  unfold min_y, max_y.
  assert (G : forall lo hi, lo <= hi ->
                fold_left (fun m p => Qmin m (snd p)) rest lo
                <= fold_left (fun m p => Qmax m (snd p)) rest hi).
  { induction rest as [|p rest IH]; intros lo hi L; cbn [fold_left]; [exact L|].
    apply IH. unfold Qmin, Qmax.
    destruct (Qltb (snd p) lo) eqn:A, (Qltb hi (snd p)) eqn:B;
      try apply Qltb_lt in A; try apply Qltb_ge in A;
      try apply Qltb_lt in B; try apply Qltb_ge in B; lra. }
  apply G, Qle_refl.
Qed.

Lemma hachure_polygon_terminates (gap angle_rad : Q) (acc : list Line)
    (poly : list Point) (fuel : nat) (w : World) :
  1 # 10 <= gap ->
  match map (fun p => _rotatePoint p (- angle_rad)) poly with
  | p0 :: ((_ :: _ :: _) as rest) => sweep_resolved gap (min_y p0 rest) (max_y p0 rest)
  | _ => True
  end ->
  (match map (fun p => _rotatePoint p (- angle_rad)) poly with
   | p0 :: ((_ :: _ :: _) as rest) => sweep_bound (min_y p0 rest) (max_y p0 rest)
   | _ => 0%nat
   end <= fuel)%nat ->
  exists lines, hachure_polygon gap angle_rad acc poly fuel w = Ret lines w.
Proof.
  intros Hg Hr Hf. unfold hachure_polygon.
  destruct (map (fun p => _rotatePoint p (- angle_rad)) poly) as [|p0 [|p1 [|p2 rest]]];
    try (eexists; reflexivity).
  set (rpoly := p0 :: p1 :: p2 :: rest) in *.
  pose proof (min_y_le_max_y p0 (p1 :: p2 :: rest)) as Hm.
  set (minY := min_y p0 (p1 :: p2 :: rest)) in *.
  set (maxY := max_y p0 (p1 :: p2 :: rest)) in *.
  destruct (sweep_bound_enough minY maxY gap fuel Hg Hm Hr Hf) as [Hd Hn].
  set (bound := Qmax (Qabs minY) (Qabs maxY) + gap) in *.
  set (delta := gap - bound / 2 ^ 53) in *.
  assert (Step : forall y, minY <= y -> y <= maxY -> y + delta <= float_add y gap).
  { intros y L U. unfold delta.
    pose proof (float_add_advances y gap bound) as A.
    assert (Hb : Qabs (y + gap) <= bound).
    { unfold bound. eapply Qle_trans; [apply Qabs_triangle|].
      rewrite (Qabs_pos gap) by lra.
      pose proof (Qabs_between minY maxY y L U). lra. }
    specialize (A Hb). lra. }
  unfold bind, while.
  destruct (while_loop_counts_down
              (fun st : Q * list Line => Qleb (fst st) maxY)
              (fun st : Q * list Line =>
                 let '(y, acc0) := st in
                 ret (float_add y gap, acc0 ++ scan_line rpoly angle_rad y))
              (fun st : Q * list Line =>
                 (float_add (fst st) gap, snd st ++ scan_line rpoly angle_rad (fst st)))
              (fun st : Q * list Line => maxY - fst st) delta
              (fun st : Q * list Line => minY <= fst st) Hd)
    with (n := fuel) (s := (minY, acc)) (fuel := fuel) (w := w)
    as ([y lines] & Hrun & _ & _).
  - intros [y a] f w0. reflexivity.
  - intros s _ C. apply Qleb_le in C. lra.
  - intros s I C. apply Qleb_le in C. cbn [fst]. pose proof (Step (fst s) I C). lra.
  - intros s I C. apply Qleb_le in C. cbn [fst]. pose proof (Step (fst s) I C). lra.
  - cbn [fst]. apply Qle_refl.
  - cbn [fst]. exact Hn.
  - rewrite Hrun. eexists. reflexivity.
Qed.

(** A sweep that starts where the gap is absorbed never ends. *)
Lemma hachure_polygon_stalls (gap angle_rad : Q) (acc : list Line) (poly : list Point) :
  match map (fun p => _rotatePoint p (- angle_rad)) poly with
  | p0 :: ((_ :: _ :: _) as rest) =>
      float_add (min_y p0 rest) gap == min_y p0 rest
  | _ => False
  end ->
  post (hachure_polygon gap angle_rad acc poly) (fun _ => False).
Proof.
  intro Ha. unfold hachure_polygon.
  destruct (map (fun p => _rotatePoint p (- angle_rad)) poly) as [|p0 [|p1 [|p2 rest]]];
    try contradiction.
  pose proof (min_y_le_max_y p0 (p1 :: p2 :: rest)) as Hm.
  set (minY := min_y p0 (p1 :: p2 :: rest)) in *.
  set (maxY := max_y p0 (p1 :: p2 :: rest)) in *.
  eapply post_bind with (Q := fun _ => False); [|intros ? []].
  apply while_never_exits with (Inv := fun st : Q * list Line => fst st == minY).
  - intros [y a] E. cbn [fst] in *. apply Qleb_le. rewrite E. exact Hm.
  - intros [y a] E. cbn [fst] in E. apply post_ret. cbn [fst].
    unfold float_add in *. rewrite (round_float_eq (y + gap) (minY + gap)); [exact Ha|].
    rewrite E. reflexivity.
  - reflexivity.
Qed.

Lemma hachure_budget_covers (o : Options) (polys : list (list Point)) (poly : list Point) :
  In poly polys -> (polygon_sweep_bound o poly <= hachure_budget o polys)%nat.
Proof.
  unfold hachure_budget. induction polys as [|q polys IH]; simpl; [tauto|].
  intros [E|I]; [subst q; lia|]. specialize (IH I). lia.
Qed.

Lemma polygon_hachure_lines_returns (polygonList : list (list Point))
    (o : Options) (fuel : nat) (w : World) :
  Forall (polygon_resolved o) polygonList ->
  (hachure_budget o polygonList <= fuel)%nat ->
  exists lines, polygon_hachure_lines polygonList o fuel w = Ret lines w.
Proof.
  intros Hr Hf. unfold polygon_hachure_lines. cbv zeta.
  assert (G : forall polys acc,
             Forall (polygon_resolved o) polys ->
             (forall poly, In poly polys -> (polygon_sweep_bound o poly <= fuel)%nat) ->
             exists lines,
               for_each polys
                 (hachure_polygon (hachure_gap o)
                    (math_radians (- (or_default (hachureAngle o) (-41) + 90))))
                 acc fuel w = Ret lines w).
  { induction polys as [|poly polys IH]; intros acc Hall Hb; cbn [for_each].
    - eexists. reflexivity.
    - destruct (hachure_polygon_terminates (hachure_gap o)
                  (math_radians (- (or_default (hachureAngle o) (-41) + 90)))
                  acc poly fuel w (hachure_gap_clamped o)) as (l & Hl).
      + exact (Forall_inv Hall).
      + apply (Hb poly). left. reflexivity.
      + unfold bind. rewrite Hl. apply IH; [exact (Forall_inv_tail Hall)|].
        intros q Hq. apply Hb. right. exact Hq. }
  apply G; [exact Hr|].
  intros poly Hin. pose proof (hachure_budget_covers o polygonList poly Hin). lia.
Qed.

(** C10, for polygons whose floats resolve the gap.  Whatever the options
    (a [hachureGap] that is zero, negative or absent included), the
    spacing of the scan lines is at least 0.1, and [polygon_hachure_lines]
    returns as soon as the loop budget reaches
    [ceil((maxY - minY) / 0.1) + 1] for every polygon of the list: no sweep
    takes more iterations than that. *)
Theorem polygon_hachure_lines_terminates (polygonList : list (list Point))
    (o : Options) (fuel : nat) (w : World) :
  Forall (polygon_resolved o) polygonList ->
  (hachure_budget o polygonList <= fuel)%nat ->
  1 # 10 <= hachure_gap o
  /\ exists lines, polygon_hachure_lines polygonList o fuel w = Ret lines w.
Proof.
  intros Hr Hf. split; [apply hachure_gap_clamped|].
  apply polygon_hachure_lines_returns; assumption.
Qed.

End Sweep.

Lemma polygon_hachure_lines_terminates_witness :
  1 # 10 <= hachure_gap (flat_hachure 0)
  /\ exists lines,
       polygon_hachure_lines (H := RationalMath) [mid_vertex_triangle] (flat_hachure 0)
         101%nat (fresh_world (fun _ => 0)) = Ret lines (fresh_world (fun _ => 0)).
Proof.
  apply (polygon_hachure_lines_terminates (H := RationalMath)
           [mid_vertex_triangle] (flat_hachure 0) 101%nat (fresh_world (fun _ => 0))).
  - constructor; [vm_compute; reflexivity|constructor].
  - apply Nat.leb_le. vm_compute. reflexivity.
Defined.

(** C10 as stated fails where the gap is below the spacing of the floats:
    at the ordinate [10^17] the sum [y + 4] is rounded back to [y], and the
    sweep of the triangle returns for no budget. *)
Lemma absorbed_gap_never_ends :
  float_add 100000000000000000 4 == 100000000000000000
  /\ ~ exists fuel lines w',
         polygon_hachure_lines (H := RationalMath) [far_triangle] (flat_hachure 4)
           fuel (fresh_world (fun _ => 0)) = Ret lines w'.
Proof.
  split; [vm_compute; reflexivity|].
  intros (fuel & lines & w' & E). revert E.
  unfold polygon_hachure_lines. cbv zeta. cbn [for_each]. unfold bind at 1.
  destruct (hachure_polygon _ _ [] far_triangle fuel (fresh_world (fun _ => 0)))
    as [l w1| |] eqn:Eh; try discriminate.
  exfalso. revert Eh.
  apply (hachure_polygon_stalls (H := RationalMath)). vm_compute. reflexivity.
Qed.

(** C9 fails on a triangle with a vertex on a scan line.  The scan line
    through the vertex [(10, 5)] of the triangle crosses its interior and
    yields no segment: with gap 5 the sweep emits nothing, with the larger
    gap 6 it emits one segment. *)
Lemma smaller_gap_fewer_segments :
  segment_count (polygon_hachure_lines (H := RationalMath) [mid_vertex_triangle]
                   (flat_hachure 5) 10%nat (fresh_world (fun _ => 0))) = Some 0%nat
  /\ segment_count (polygon_hachure_lines (H := RationalMath) [mid_vertex_triangle]
                      (flat_hachure 6) 10%nat (fresh_world (fun _ => 0))) = Some 1%nat.
Proof. split; vm_compute; reflexivity. Qed.

(** ** Two runs from one world *)

Lemma corun_ret {A B} (P : World -> Prop) (a : A) (b : B) (R : A -> B -> Prop) :
  R a b -> corun P (ret a) (ret b) R.
Proof. intros H fuel w Pw. exists a, b, w. unfold ret. auto. Qed.

Lemma corun_bind {A B A' B'} (P : World -> Prop) (m1 : M A) (m2 : M B)
    (k1 : A -> M A') (k2 : B -> M B') (R : A -> B -> Prop) (R' : A' -> B' -> Prop) :
  corun P m1 m2 R ->
  (forall a b, R a b -> corun P (k1 a) (k2 b) R') ->
  corun P (bind m1 k1) (bind m2 k2) R'.
Proof.
  intros Hm Hk fuel w Pw.
  destruct (Hm fuel w Pw) as (a & b & w1 & E1 & E2 & Hab & Pw1).
  destruct (Hk a b Hab fuel w1 Pw1) as (a' & b' & w2 & E1' & E2' & Hab' & Pw2).
  exists a', b', w2. unfold bind. rewrite E1, E2. auto.
Qed.

Lemma corun_weaken {A B} (P : World -> Prop) (m1 : M A) (m2 : M B)
    (R R' : A -> B -> Prop) :
  corun P m1 m2 R -> (forall a b, R a b -> R' a b) -> corun P m1 m2 R'.
Proof.
  intros Hm Himp fuel w Pw.
  destruct (Hm fuel w Pw) as (a & b & w1 & E1 & E2 & Hab & Pw1).
  exists a, b, w1. auto.
Qed.

(** [Random.next] always returns a value of [[0, 1)]. *)
Lemma Random_next_unit (r : nat) :
  corun unit_entropy (Random_next r) (Random_next r)
    (fun u v => u = v /\ 0 <= u /\ u < 1).
Proof.
  intros fuel w Pw. unfold Random_next, bind, Random_state.
  destruct (Z.eqb_spec (nth r (rands w) 0%Z) 0) as [E|E].
  - unfold random_random. eexists _, _, _.
    split; [reflexivity|]. split; [reflexivity|].
    split; [split; [reflexivity|apply Pw]|]. intro n. apply Pw.
  - unfold Random_set_state, ret. eexists _, _, _.
    split; [reflexivity|]. split; [reflexivity|].
    split; [split; [reflexivity|]|].
    + apply unit_fraction_range. apply Z.mod_pos_bound. reflexivity.
    + intro n. apply Pw.
Qed.

(** The value [randomFloat] returns depends on the options object only
    through its identity and its seed. *)
Lemma randomFloat_unit (o o' : ResolvedOptions) :
  oid o = oid o' -> seed o = seed o' ->
  corun unit_entropy (randomFloat o) (randomFloat o')
    (fun u v => u = v /\ 0 <= u /\ u < 1).
Proof.
  intros Ei Es fuel w Pw.
  assert (E : randomFloat o' fuel w = randomFloat o fuel w).
  { unfold randomFloat, get_randgen. rewrite <- Ei, <- Es. reflexivity. }
  rewrite E. unfold randomFloat, get_randgen, bind.
  destruct (attr_get (randgen w) (oid o)) as [r|]; simpl.
  - apply (Random_next_unit r fuel w Pw).
  - apply Random_next_unit. intro n. apply Pw.
Qed.

(** ** The perturbation of a line *)

Lemma Qabs_scaled_unit (x u : Q) :
  0 <= u -> u < 1 -> Qabs (u * (x - - x) + - x) <= Qabs x.
Proof.
  intros H0 H1. apply Qabs_Qle_condition.
  destruct (Qlt_le_dec x 0) as [N|P].
  - rewrite (Qabs_neg x) by lra. split; nra.
  - rewrite (Qabs_pos x) by lra. split; nra.
Qed.

Lemma Qmult_le_nonneg_l (z x y : Q) : 0 <= z -> x <= y -> z * x <= z * y.
Proof.
  intros Hz Hxy. rewrite (Qmult_comm z x), (Qmult_comm z y).
  apply Qmult_le_compat_r; assumption.
Qed.

Lemma Qabs_offset_value (r g x u : Q) :
  0 <= r -> 0 <= g -> 0 <= u -> u < 1 ->
  Qabs (r * g * (u * (x - - x) + - x)) <= r * g * Qabs x.
Proof.
  intros Hr Hg H0 H1.
  assert (Hrg : 0 <= r * g) by (apply Qmult_le_0_compat; assumption).
  rewrite Qabs_Qmult, (Qabs_pos (r * g)) by exact Hrg.
  apply Qmult_le_nonneg_l; [exact Hrg|]. apply Qabs_scaled_unit; assumption.
Qed.

(** Boolean comparisons of rationals, turned into propositions. *)
Ltac qcases :=
  repeat match goal with
  | |- context [Qltb ?a ?b] =>
      let E := fresh "C" in
      destruct (Qltb a b) eqn:E; [apply Qltb_lt in E|apply Qltb_ge in E]
  | |- context [Qleb ?a ?b] =>
      let E := fresh "C" in
      destruct (Qleb a b) eqn:E; [apply Qleb_le in E|apply Qleb_gt in E]
  end.

Lemma roughnessGain_bounds (length : Q) :
  0 <= roughnessGain length /\ roughnessGain length <= spec_gain length.
Proof.
  unfold roughnessGain, spec_gain.
  assert (E : (6 # 10) / 300 == 2 # 1000) by reflexivity.
  qcases; rewrite ?E; split; lra.
Qed.

(** The offset [lineOps] works with is at most [maxRandomnessOffset]:
    short segments lower it to a tenth of their length. *)
Lemma effective_offset_bounds (lengthSq length m : Q) :
  0 <= m -> 0 <= length -> length * length <= lengthSq ->
  0 <= (if Qltb lengthSq (m * m * 100) then length / 10 else m)
  /\ (if Qltb lengthSq (m * m * 100) then length / 10 else m) <= m.
Proof.
  intros Hm Hl Hsq. change (length / 10) with (length * (1 # 10)).
  destruct (Qltb lengthSq (m * m * 100)) eqn:C.
  - apply Qltb_lt in C. split; [lra|].
    destruct (Qlt_le_dec m (length * (1 # 10))) as [G|G]; [|exact G].
    exfalso. assert (m * m * 100 <= length * length) by nra. lra.
  - split; lra.
Qed.

Section LinePerturbation.
Context `{MathLib}.

Lemma offsetOpt_unperturbed (x g : Q) (o : ResolvedOptions) :
  0 <= or_default (roughness o) 1 -> 0 <= g ->
  corun unit_entropy (offsetOpt x o g) (offsetOpt x (unperturbed o) g)
    (fun v v0 => v0 == 0 /\ Qabs v <= or_default (roughness o) 1 * g * Qabs x).
Proof.
  intros Hr Hg. unfold offsetOpt, offsetRange.
  eapply corun_bind; [apply randomFloat_unit; reflexivity|].
  intros u u' (E & H0 & H1). subst u'. apply corun_ret. split.
  - simpl. ring.
  - apply Qabs_offset_value; assumption.
Qed.

Lemma offsetOpt_unperturbed_le (x g bnd : Q) (o : ResolvedOptions) :
  0 <= or_default (roughness o) 1 -> 0 <= g ->
  or_default (roughness o) 1 * g * Qabs x <= bnd ->
  corun unit_entropy (offsetOpt x o g) (offsetOpt x (unperturbed o) g)
    (fun v v0 => v0 == 0 /\ Qabs v <= bnd).
Proof.
  intros Hr Hg Hb. eapply corun_weaken; [apply offsetOpt_unperturbed; assumption|].
  intros v v0 (Z & B). split; [exact Z|]. eapply Qle_trans; eassumption.
Qed.

Lemma jitter_unperturbed (x g bnd : Q) (o : ResolvedOptions) :
  0 <= or_default (roughness o) 1 -> 0 <= g ->
  or_default (roughness o) 1 * g * Qabs x <= bnd ->
  corun unit_entropy (unless_preserved o (offsetOpt x o g))
    (unless_preserved (unperturbed o) (offsetOpt x (unperturbed o) g))
    (fun v v0 => v0 == 0 /\ Qabs v <= bnd).
Proof.
  intros Hr Hg Hb. unfold unless_preserved. simpl.
  destruct (truthy (preserveVertices o)).
  - apply corun_ret. split; [reflexivity|].
    eapply Qle_trans; [|exact Hb]. simpl.
    apply Qmult_le_0_compat; [apply Qmult_le_0_compat; assumption|apply Qabs_nonneg].
  - apply offsetOpt_unperturbed_le; assumption.
Qed.

Lemma close_end (a d d0 b : Q) :
  d0 == 0 -> Qabs d <= b -> Qabs (a + d - (a + d0)) <= b.
Proof.
  intros Z B. assert (E : a + d - (a + d0) == d) by (rewrite Z; ring).
  rewrite E. exact B.
Qed.

Lemma close_control (m m0 a c r r0 bm br : Q) :
  m0 == 0 -> r0 == 0 -> Qabs m <= bm -> Qabs r <= br ->
  Qabs (m + a + c + r - (m0 + a + c + r0)) <= br + bm.
Proof.
  intros Zm Zr Bm Br.
  assert (E : m + a + c + r - (m0 + a + c + r0) == r + m) by (rewrite Zm, Zr; ring).
  rewrite E. eapply Qle_trans; [apply Qabs_triangle|]. lra.
Qed.

Lemma scaled_offset_le (r g sg a m : Q) :
  0 <= r -> 0 <= g -> g <= sg -> 0 <= a -> a <= m ->
  r * g * a <= m * r * sg.
Proof.
  intros Hr Hg Hgs Ha Ham.
  assert (E : m * r * sg == (r * sg) * m) by ring. rewrite E.
  apply Qmult_le_compat_nonneg.
  - split; [apply Qmult_le_0_compat; assumption|].
    apply Qmult_le_nonneg_l; assumption.
  - split; assumption.
Qed.

End LinePerturbation.

Section LineBound.
Context `{MathLib}.
Variables (x1 y1 x2 y2 : Q) (o : ResolvedOptions).

Let lengthSq : Q := (x1 - x2) ^ 2 + (y1 - y2) ^ 2.
Let length : Q := math_sqrt lengthSq.
Let m : Q := or_default (maxRandomnessOffset o) 2.
Let r : Q := or_default (roughness o) 1.
Let bow : Q := Qabs (or_default (bowing o) 1).
Let bound : Q := m * r * spec_gain length.

Hypothesis m_nonneg : 0 <= m.
Hypothesis r_nonneg : 0 <= r.
Hypothesis length_nonneg : 0 <= length.
Hypothesis length_square : length * length <= lengthSq.

Let g : Q := roughnessGain length.
Let moff : Q := if Qltb lengthSq (m * m * 100) then length / 10 else m.

Lemma bound_nonneg : 0 <= bound.
Proof.
  unfold bound. destruct (roughnessGain_bounds length) as [G0 G1].
  apply Qmult_le_0_compat; [apply Qmult_le_0_compat; assumption|lra].
Qed.

Lemma full_offset_le : r * g * Qabs moff <= bound.
Proof.
  destruct (roughnessGain_bounds length) as [G0 G1].
  destruct (effective_offset_bounds lengthSq length m m_nonneg length_nonneg length_square)
    as [M0 M1]. fold moff in M0, M1.
  rewrite Qabs_pos by exact M0. apply scaled_offset_le; assumption.
Qed.

Lemma half_offset_le : r * g * Qabs (moff / 2) <= bound.
Proof.
  destruct (roughnessGain_bounds length) as [G0 G1].
  destruct (effective_offset_bounds lengthSq length m m_nonneg length_nonneg length_square)
    as [M0 M1]. fold moff in M0, M1.
  change (moff / 2) with (moff * (1 # 2)).
  rewrite Qabs_pos by lra. apply scaled_offset_le; try assumption; lra.
Qed.

Lemma bow_offset_le (b d : Q) :
  r * g * Qabs (b * moff * d / 200) <= bound * (Qabs b * Qabs d / 200).
Proof.
  destruct (effective_offset_bounds lengthSq length m m_nonneg length_nonneg length_square)
    as [M0 M1]. fold moff in M0, M1.
  assert (E : Qabs (b * moff * d / 200) == Qabs moff * (Qabs b * Qabs d / 200)).
  { unfold Qdiv. rewrite !Qabs_Qmult. rewrite (Qabs_pos (/ 200)) by (vm_compute; discriminate).
    ring. }
  rewrite E, Qmult_assoc. apply Qmult_le_compat_r; [apply full_offset_le|].
  unfold Qdiv. apply Qmult_le_0_compat; [|vm_compute; discriminate].
  apply Qmult_le_0_compat; apply Qabs_nonneg.
Qed.

Lemma lineOps_corun (overlay : bool) :
  corun unit_entropy
    (lineOps x1 y1 x2 y2 o true overlay)
    (lineOps x1 y1 x2 y2 (unperturbed o) true overlay)
    (pass_within bound
       (bound * (1 + bow * Qabs (y2 - y1) / 200))
       (bound * (1 + bow * Qabs (x1 - x2) / 200))).
Proof.
  destruct (roughnessGain_bounds length) as [G0 G1]. fold g in G0, G1.
  pose proof bound_nonneg as B0.
  unfold lineOps. cbv zeta.
  change (maxRandomnessOffset (unperturbed o)) with (maxRandomnessOffset o).
  change (bowing (unperturbed o)) with (bowing o).
  fold lengthSq. fold length. fold g. fold m. fold moff.
  eapply corun_bind; [apply randomFloat_unit; reflexivity|].
  intros u u' (Eu & _ & _). subst u'.
  eapply corun_bind; [apply offsetOpt_unperturbed_le;
                      [exact r_nonneg|exact G0|apply bow_offset_le]|].
  intros mdx mdx0 (Zx & Bx).
  eapply corun_bind; [apply offsetOpt_unperturbed_le;
                      [exact r_nonneg|exact G0|apply bow_offset_le]|].
  intros mdy mdy0 (Zy & By).
  assert (Hrnd : r * g * Qabs (if overlay then moff / 2 else moff) <= bound).
  { destruct overlay; [apply half_offset_le|apply full_offset_le]. }
  assert (Hj : corun unit_entropy
                 (unless_preserved o (if overlay then offsetOpt (moff / 2) o g
                                      else offsetOpt moff o g))
                 (unless_preserved (unperturbed o)
                    (if overlay then offsetOpt (moff / 2) (unperturbed o) g
                     else offsetOpt moff (unperturbed o) g))
                 (fun v v0 => v0 == 0 /\ Qabs v <= bound)).
  { destruct overlay; apply jitter_unperturbed; auto. }
  assert (Hr : corun unit_entropy
                 (if overlay then offsetOpt (moff / 2) o g else offsetOpt moff o g)
                 (if overlay then offsetOpt (moff / 2) (unperturbed o) g
                  else offsetOpt moff (unperturbed o) g)
                 (fun v v0 => v0 == 0 /\ Qabs v <= bound)).
  { destruct overlay; apply offsetOpt_unperturbed_le; auto. }
  eapply corun_bind with
    (R := fun l l0 => match l, l0 with
                      | [mv], [mv0] => op_within [bound; bound] mv mv0
                      | _, _ => False
                      end).
  { eapply corun_bind; [exact Hj|]. intros dx dx0 (Zdx & Bdx).
    eapply corun_bind; [exact Hj|]. intros dy dy0 (Zdy & Bdy).
    apply corun_ret. split; [reflexivity|]. cbn [within data].
    split; [apply close_end; assumption|]. split; [apply close_end; assumption|exact I]. }
  intros l l0 Hl.
  eapply corun_bind; [exact Hr|]. intros r1 r10 (Z1 & B1).
  eapply corun_bind; [exact Hr|]. intros r2 r20 (Z2 & B2).
  eapply corun_bind; [exact Hr|]. intros r3 r30 (Z3 & B3).
  eapply corun_bind; [exact Hr|]. intros r4 r40 (Z4 & B4).
  eapply corun_bind; [exact Hj|]. intros ex ex0 (Zex & Bex).
  eapply corun_bind; [exact Hj|]. intros ey ey0 (Zey & Bey).
  apply corun_ret.
  destruct l as [|mv [|? ?]]; try contradiction;
    destruct l0 as [|mv0 [|? ?]]; try contradiction.
  unfold pass_within. cbn [app]. split; [exact Hl|]. split; [reflexivity|].
  cbn [within data].
  assert (Ex : bound * (1 + bow * Qabs (y2 - y1) / 200)
               == bound + bound * (Qabs (or_default (bowing o) 1) * Qabs (y2 - y1) / 200)).
  { unfold bow. unfold Qdiv. ring. }
  assert (Ey : bound * (1 + bow * Qabs (x1 - x2) / 200)
               == bound + bound * (Qabs (or_default (bowing o) 1) * Qabs (x1 - x2) / 200)).
  { unfold bow. unfold Qdiv. ring. }
  rewrite Ex, Ey.
  repeat (split; [first [apply close_control; assumption|apply close_end; assumption]|]).
  exact I.
Qed.

End LineBound.

(** ** Pinned end points *)

Lemma randomFloat_returns (o : ResolvedOptions) (fuel : nat) (w : World) :
  exists u w', randomFloat o fuel w = Ret u w'.
Proof.
  unfold randomFloat, get_randgen, bind.
  assert (N : forall r w0, exists u w', Random_next r fuel w0 = Ret u w').
  { intros r w0. unfold Random_next, bind, Random_state.
    destruct (nth r (rands w0) 0%Z =? 0)%Z; eexists _, _; reflexivity. }
  destruct (attr_get (randgen w) (oid o)); simpl; apply N.
Qed.

Lemma returns_ret {A} (P : World -> Prop) (a : A) (Q : A -> Prop) :
  Q a -> returns P (ret a) Q.
Proof. intros H fuel w Pw. exists a, w. unfold ret. auto. Qed.

Lemma returns_bind {A B} (P : World -> Prop) (m : M A) (k : A -> M B)
    (Q : A -> Prop) (Q' : B -> Prop) :
  returns P m Q -> (forall a, Q a -> returns P (k a) Q') -> returns P (bind m k) Q'.
Proof.
  intros Hm Hk fuel w Pw.
  destruct (Hm fuel w Pw) as (a & w1 & E & Ha & Pw1).
  destruct (Hk a Ha fuel w1 Pw1) as (b & w2 & E' & Hb & Pw2).
  exists b, w2. unfold bind. rewrite E. auto.
Qed.

Lemma returns_weaken {A} (P : World -> Prop) (m : M A) (Q Q' : A -> Prop) :
  returns P m Q -> (forall a, Q a -> Q' a) -> returns P m Q'.
Proof.
  intros Hm Himp fuel w Pw. destruct (Hm fuel w Pw) as (a & w1 & E & Ha & Pw1).
  exists a, w1. auto.
Qed.

Lemma randomFloat_total (o : ResolvedOptions) :
  returns any_world (randomFloat o) (fun _ => True).
Proof.
  intros fuel w _. destruct (randomFloat_returns o fuel w) as (u & w' & E).
  exists u, w'. unfold any_world. auto.
Qed.

Lemma offsetOpt_total (x g : Q) (o : ResolvedOptions) :
  returns any_world (offsetOpt x o g) (fun _ => True).
Proof.
  unfold offsetOpt, offsetRange.
  eapply returns_bind; [apply randomFloat_total|]. intros u _. apply returns_ret. exact I.
Qed.

Lemma offsetOpt_zero (x g : Q) (o : ResolvedOptions) :
  or_default (roughness o) 1 == 0 ->
  returns any_world (offsetOpt x o g) (fun v => v == 0).
Proof.
  intro Z. unfold offsetOpt, offsetRange.
  eapply returns_bind; [apply randomFloat_total|]. intros u _. apply returns_ret.
  rewrite Z. ring.
Qed.

Lemma unless_preserved_zero (o : ResolvedOptions) (x g : Q) :
  pins_vertices o ->
  returns any_world (unless_preserved o (offsetOpt x o g)) (fun v => v == 0).
Proof.
  intros [P|Z]; unfold unless_preserved.
  - rewrite P. apply returns_ret. reflexivity.
  - destruct (truthy (preserveVertices o)); [apply returns_ret; reflexivity|].
    apply offsetOpt_zero, Z.
Qed.

Section Pinned.
Context `{MathLib}.

Lemma lineOps_pinned (x1 y1 x2 y2 : Q) (o : ResolvedOptions) (overlay : bool) :
  pins_vertices o ->
  returns any_world (lineOps x1 y1 x2 y2 o true overlay)
    (fun pass => pass_pinned x1 y1 x2 y2 pass).
Proof.
  intro Hp. unfold lineOps. cbv zeta.
  set (g := roughnessGain _). set (moff := if Qltb _ _ then _ else _).
  assert (Hj : returns any_world
                 (unless_preserved o (if overlay then offsetOpt (moff / 2) o g
                                      else offsetOpt moff o g))
                 (fun v => v == 0)).
  { destruct overlay; apply unless_preserved_zero, Hp. }
  assert (Hr : returns any_world
                 (if overlay then offsetOpt (moff / 2) o g else offsetOpt moff o g)
                 (fun _ => True)).
  { destruct overlay; apply offsetOpt_total. }
  eapply returns_bind; [apply randomFloat_total|]. intros u _.
  eapply returns_bind; [apply offsetOpt_total|]. intros mdx _.
  eapply returns_bind; [apply offsetOpt_total|]. intros mdy _.
  eapply returns_bind with
    (Q := fun l => exists mx my, l = [mkOp move [mx; my]] /\ mx == x1 /\ my == y1).
  { eapply returns_bind; [exact Hj|]. intros dx Zx.
    eapply returns_bind; [exact Hj|]. intros dy Zy.
    apply returns_ret. eexists _, _. split; [reflexivity|]. rewrite Zx, Zy. split; ring. }
  intros l (mx & my & El & Ex & Ey). subst l.
  eapply returns_bind; [exact Hr|]. intros r1 _.
  eapply returns_bind; [exact Hr|]. intros r2 _.
  eapply returns_bind; [exact Hr|]. intros r3 _.
  eapply returns_bind; [exact Hr|]. intros r4 _.
  eapply returns_bind; [exact Hj|]. intros ex Zex.
  eapply returns_bind; [exact Hj|]. intros ey Zey.
  apply returns_ret. cbn [app pass_pinned]. rewrite Zex, Zey.
  repeat split; try assumption; ring.
Qed.

End Pinned.

Lemma passes_pinned_app (es1 es2 : list (Point * Point)) :
  forall l1 l2, passes_pinned es1 l1 -> passes_pinned es2 l2 ->
                passes_pinned (es1 ++ es2) (l1 ++ l2).
Proof.
  induction es1 as [|[p q] es1 IH]; intros l1 l2 H1 H2; simpl in *.
  - subst l1. exact H2.
  - destruct l1 as [|mv [|cv rest]]; try contradiction.
    destruct H1 as [Hp Hrest]. cbn [app]. split; [exact Hp|]. apply IH; assumption.
Qed.

Lemma pass_pinned_single (x1 y1 x2 y2 : Q) (pass : list Op) :
  pass_pinned x1 y1 x2 y2 pass -> passes_pinned [((x1, y1), (x2, y2))] pass.
Proof.
  intro Hp. unfold passes_pinned.
  destruct pass as [|mv [|cv [|? ?]]]; try (simpl in Hp; contradiction).
  - destruct mv as [[] [|? [|? [|? ?]]]]; simpl in Hp; contradiction.
  - split; [exact Hp|reflexivity].
  - exfalso. destruct mv as [[] [|? [|? [|? ?]]]]; simpl in Hp; try contradiction.
    destruct cv as [[] [|? [|? [|? [|? [|? [|? [|? ?]]]]]]]]; simpl in Hp; contradiction.
Qed.

Lemma strokes_app (single : bool) (a b : list (Point * Point)) :
  strokes single (a ++ b) = strokes single a ++ strokes single b.
Proof. unfold strokes. destruct single; [reflexivity|apply flat_map_app]. Qed.

Section PinnedPrimitives.
Context `{MathLib}.
Variable o : ResolvedOptions.
Hypothesis pinned : pins_vertices o.

Lemma doubleLine_pinned (x1 y1 x2 y2 : Q) :
  returns any_world (doubleLine x1 y1 x2 y2 o false)
    (passes_pinned (strokes (truthy (disableMultiStroke o)) [((x1, y1), (x2, y2))])).
Proof.
  unfold doubleLine.
  eapply returns_bind; [apply lineOps_pinned, pinned|]. intros first Hf.
  destruct (truthy (disableMultiStroke o)).
  - apply returns_ret. apply pass_pinned_single, Hf.
  - eapply returns_bind; [apply lineOps_pinned, pinned|]. intros second Hs.
    apply returns_ret.
    apply (passes_pinned_app [((x1, y1), (x2, y2))] [((x1, y1), (x2, y2))]);
      apply pass_pinned_single; assumption.
Qed.

Lemma extend_doubleLine_pinned (es0 : list (Point * Point)) (acc : list Op)
    (e : Point * Point) :
  passes_pinned es0 acc ->
  returns any_world (extend_doubleLine o acc e)
    (passes_pinned (es0 ++ strokes (truthy (disableMultiStroke o)) [e])).
Proof.
  intro Hacc. destruct e as [[px py] [qx qy]]. unfold extend_doubleLine.
  eapply returns_bind; [apply doubleLine_pinned|]. intros l Hl. apply returns_ret.
  apply passes_pinned_app; assumption.
Qed.

Lemma for_each_doubleLine_pinned (edges : list (Point * Point)) :
  forall (es0 : list (Point * Point)) (acc : list Op),
    passes_pinned es0 acc ->
    returns any_world (for_each edges (extend_doubleLine o) acc)
      (passes_pinned (es0 ++ strokes (truthy (disableMultiStroke o)) edges)).
Proof.
  induction edges as [|e edges IH]; intros es0 acc Hacc; simpl.
  - apply returns_ret. unfold strokes. destruct (truthy _); simpl; rewrite app_nil_r; exact Hacc.
  - eapply returns_bind; [apply extend_doubleLine_pinned, Hacc|]. intros acc' Hacc'.
    eapply returns_weaken; [apply IH, Hacc'|]. intros l Hl.
    change (e :: edges) with ([e] ++ edges). rewrite strokes_app, app_assoc. exact Hl.
Qed.

Lemma linearPath_pinned (points : list Point) (close : bool) :
  returns any_world (linearPath points close o)
    (fun s => type_ s = pathSet
              /\ passes_pinned (strokes (truthy (disableMultiStroke o))
                                  (path_edges points close)) (ops s)).
Proof.
  unfold linearPath, path_edges.
  destruct points as [|p0 [|p1 [|p2 rest]]].
  - apply returns_ret. split; [reflexivity|]. unfold strokes. destruct (truthy _); reflexivity.
  - apply returns_ret. split; [reflexivity|]. unfold strokes. destruct (truthy _); reflexivity.
  - eapply returns_bind; [apply doubleLine_pinned|]. intros l Hl. apply returns_ret.
    split; [reflexivity|]. destruct p0, p1. exact Hl.
  - set (pts := p0 :: p1 :: p2 :: rest).
    eapply returns_bind; [apply (for_each_doubleLine_pinned (consecutive pts) [] []); reflexivity|].
    intros l Hl. simpl in Hl. destruct close.
    + eapply returns_bind; [apply (extend_doubleLine_pinned _ l _ Hl)|].
      intros l' Hl'. apply returns_ret. split; [reflexivity|].
      rewrite strokes_app. exact Hl'.
    + eapply returns_bind; [apply returns_ret; exact Hl|]. intros l' Hl'.
      apply returns_ret. split; [reflexivity|]. cbn [ops]. rewrite app_nil_r. exact Hl'.
Qed.

Lemma render_primitive_pinned (p : LinePrimitive) :
  returns any_world (render_primitive p o)
    (fun s => type_ s = pathSet
              /\ passes_pinned (strokes (truthy (disableMultiStroke o))
                                  (primitive_edges p)) (ops s)).
Proof.
  destruct p as [x1 y1 x2 y2|points close|points|x y width height];
    unfold render_primitive, primitive_edges, rectangle, polygon;
    try apply linearPath_pinned.
  unfold line. eapply returns_bind; [apply doubleLine_pinned|]. intros l Hl.
  apply returns_ret. split; [reflexivity|exact Hl].
Qed.

End PinnedPrimitives.

(** C7, as the code has it.  For the primitives made of straight strokes
    (line, linear path, polygon, rectangle) drawn with [preserveVertices]
    set, the operations are a sequence of passes, one or two for each
    segment, and every pass starts exactly at the first point of its
    segment and ends exactly at its second point. *)
Theorem preserveVertices_pins_straight_strokes `{MathLib}
    (p : LinePrimitive) (o : ResolvedOptions) (fuel : nat) (w : World) :
  truthy (preserveVertices o) = true ->
  exists l w',
    render_primitive p o fuel w = Ret (mkOpSet pathSet l) w'
    /\ passes_pinned (strokes (truthy (disableMultiStroke o)) (primitive_edges p)) l.
Proof.
  intro Hpv.
  destruct (render_primitive_pinned o (or_introl Hpv) p fuel w I)
    as ([t l] & w' & E & (Et & Hl) & _).
  simpl in Et, Hl. subst t. exists l, w'. auto.
Qed.

Lemma preserveVertices_pins_straight_strokes_witness :
  exists l w',
    render_primitive (H := RationalMath) (PrimRectangle 0 0 10 10) preserving_defaults
      0%nat (one_object_world (fun _ => 0)) = Ret (mkOpSet pathSet l) w'
    /\ passes_pinned (strokes (truthy (disableMultiStroke preserving_defaults))
                        (primitive_edges (PrimRectangle 0 0 10 10))) l.
Proof.
  apply (preserveVertices_pins_straight_strokes (H := RationalMath)
           (PrimRectangle 0 0 10 10) preserving_defaults 0%nat
           (one_object_world (fun _ => 0))).
  reflexivity.
Defined.

(** C7 as stated fails for the multi-point curve: [curveWithOffset] moves
    every point, the first and the last included, whatever
    [preserveVertices] says.  The curve through (0,0), (10,0), (20,0)
    starts away from (0,0). *)
Lemma curve_ignores_preserveVertices :
  truthy (preserveVertices preserving_defaults) = true
  /\ exists l w',
       curve (H := RationalMath) (CurvePoints [(0, 0); (10, 0); (20, 0)])
         preserving_defaults 0%nat (one_object_world (fun _ => 0)) = Ret (mkOpSet pathSet l) w'
       /\ match l with
          | mkOp move [mx; my] :: _ => ~ mx == 0 /\ ~ my == 0
          | _ => False
          end.
Proof.
  split; [reflexivity|]. eexists _, _. split; [vm_compute; reflexivity|].
  cbv beta iota. split; intro E; vm_compute in E; discriminate E.
Qed.

(** C3, as the code has it.  One pass of a line against the same pass
    drawn without roughness (its ideal position, which starts and ends
    exactly at the given points): the start and end points lie within
    [maxRandomnessOffset * roughness * gain] of the ideal ones; the control
    points carry the bowing on top of that and lie within that bound times
    [1 + |bowing| * |y2 - y1| / 200] (abscissas) and
    [1 + |bowing| * |x1 - x2| / 200] (ordinates). *)
Theorem line_perturbation_bound `{MathLib}
    (x1 y1 x2 y2 : Q) (o : ResolvedOptions) (overlay : bool) (fuel : nat) (w : World) :
  let lengthSq := (x1 - x2) ^ 2 + (y1 - y2) ^ 2 in
  let length := math_sqrt lengthSq in
  let m := or_default (maxRandomnessOffset o) 2 in
  let r := or_default (roughness o) 1 in
  let bow := Qabs (or_default (bowing o) 1) in
  let bound := m * r * spec_gain length in
  unit_entropy w ->
  0 <= m -> 0 <= r -> 0 <= length -> length * length <= lengthSq ->
  exists pass ideal w',
    lineOps x1 y1 x2 y2 o true overlay fuel w = Ret pass w'
    /\ lineOps x1 y1 x2 y2 (unperturbed o) true overlay fuel w = Ret ideal w'
    /\ pass_pinned x1 y1 x2 y2 ideal
    /\ pass_within bound
         (bound * (1 + bow * Qabs (y2 - y1) / 200))
         (bound * (1 + bow * Qabs (x1 - x2) / 200))
         pass ideal.
Proof.
  intros lengthSq length m r bow bound Hw Hm Hr Hl Hsq.
  destruct (lineOps_corun x1 y1 x2 y2 o Hm Hr Hl Hsq overlay fuel w Hw)
    as (pass & ideal & w' & E1 & E2 & Hclose & _).
  assert (Hp : pins_vertices (unperturbed o)) by (right; reflexivity).
  destruct (lineOps_pinned x1 y1 x2 y2 (unperturbed o) overlay Hp fuel w I)
    as (ideal' & w'' & E3 & Hpin & _).
  assert (Ei : ideal' = ideal) by congruence. subst ideal'.
  exists pass, ideal, w'. auto.
Qed.

Lemma line_perturbation_bound_witness :
  exists pass ideal w',
    lineOps (H := RationalMath) 3 4 0 0 (seeded_defaults 1) true false
      0%nat (one_object_world (fun _ => 0)) = Ret pass w'
    /\ lineOps (H := RationalMath) 3 4 0 0 (unperturbed (seeded_defaults 1)) true false
         0%nat (one_object_world (fun _ => 0)) = Ret ideal w'
    /\ pass_pinned 3 4 0 0 ideal
    /\ pass_within (2 * 1 * spec_gain (rational_sqrt ((3 - 0) ^ 2 + (4 - 0) ^ 2)))
         (2 * 1 * spec_gain (rational_sqrt ((3 - 0) ^ 2 + (4 - 0) ^ 2))
          * (1 + Qabs 2 * Qabs (0 - 4) / 200))
         (2 * 1 * spec_gain (rational_sqrt ((3 - 0) ^ 2 + (4 - 0) ^ 2))
          * (1 + Qabs 2 * Qabs (3 - 0) / 200))
         pass ideal.
Proof.
  apply (line_perturbation_bound (H := RationalMath) 3 4 0 0 (seeded_defaults 1) false
           0%nat (one_object_world (fun _ => 0))).
  - intro n. simpl. split; [apply Qle_refl|reflexivity].
  - vm_compute. discriminate.
  - vm_compute. discriminate.
  - vm_compute. discriminate.
  - vm_compute. discriminate.
Defined.

(** C3 as stated fails on the control points.  The vertical line from
    (0,0) to (0,1000) with the default options and seed 1: the bound is
    [2 * 1 * 0.4], the ideal control points have abscissa 0, and the first
    control point is drawn more than 7 away. *)
Lemma control_point_exceeds_bound :
  exists pass ideal w',
    lineOps (H := RationalMath) 0 0 0 1000 (seeded_defaults 1) true false
      0%nat (one_object_world (fun _ => 0)) = Ret pass w'
    /\ lineOps (H := RationalMath) 0 0 0 1000 (unperturbed (seeded_defaults 1)) true false
         0%nat (one_object_world (fun _ => 0)) = Ret ideal w'
    /\ 2 * 1 * spec_gain (rational_sqrt ((0 - 0) ^ 2 + (0 - 1000) ^ 2)) == 8 # 10
    /\ ~ pass_within (8 # 10) (8 # 10) (8 # 10) pass ideal
    /\ match pass, ideal with
       | [_; mkOp bcurveTo (c1x :: _)], [_; mkOp bcurveTo (c1x0 :: _)] =>
           c1x0 == 0 /\ 7 < Qabs (c1x - c1x0)
       | _, _ => False
       end.
Proof.
  eexists _, _, _. split; [vm_compute; reflexivity|]. split; [vm_compute; reflexivity|].
  split; [vm_compute; reflexivity|]. split.
  - intro Hw. vm_compute in Hw. destruct Hw as (_ & _ & Hc & _). apply Hc. reflexivity.
  - cbv beta iota. split; vm_compute; reflexivity.
Qed.

(** ** The dot filler *)

Lemma random_random_unit :
  returns unit_entropy random_random (fun u => 0 <= u /\ u < 1).
Proof.
  intros fuel w Pw. unfold random_random. eexists _, _. split; [reflexivity|].
  split; [apply Pw|]. intro n. apply Pw.
Qed.

Lemma jitter_within (x ro u : Q) :
  0 <= ro -> 0 <= u -> u < 1 -> Qabs (x - ro + u * (2 * ro) - x) <= ro.
Proof.
  intros Hro H0 H1. apply Qabs_Qle_condition. split; nra.
Qed.

Lemma dot_count_code `{MathLib} (gap : Q) (ln : Line) :
  (if (math_ceil (line_length ln / gap) - 1 <? 0)%Z then 0%Z
   else (math_ceil (line_length ln / gap) - 1)%Z)
  = Z.of_nat (dot_count gap ln).
Proof.
  unfold dot_count.
  destruct (Z.ltb_spec (math_ceil (line_length ln / gap) - 1) 0); lia.
Qed.

(** ** Path data *)

(** A number before any command letter: [segs[-1]] is taken of an empty
    list, and the [IndexError] is not the [ValueError] the parser catches. *)
Lemma parsePathCommands_number_first (t : string) (rest : list string) (v : Q)
    (fuel : nat) (w : World) :
  is_cmd t = None -> float_of_string t = Some v ->
  for_each (t :: rest) parse_token [] fuel w = Raise IndexError.
Proof.
  intros Hc Hf. simpl. unfold bind, parse_token. rewrite Hc, Hf. reflexivity.
Qed.

(** C4 fails on the path ["1"]: [svgPath] raises [IndexError], whatever
    the options. *)
Theorem svgPath_raises_on_leading_number `{MathLib}
    (o : ResolvedOptions) (fuel : nat) (w : World) :
  svgPath "1" o fuel w = Raise IndexError.
Proof. reflexivity. Qed.

(** The same for the path ["10 20 L 5 5"], and a well-formed path for
    comparison. *)
Example svgPath_raises_on_coordinates_first `{MathLib}
    (o : ResolvedOptions) (fuel : nat) (w : World) :
  svgPath "10 20 L 5 5" o fuel w = Raise IndexError.
Proof. reflexivity. Qed.

Example svgPath_unknown_tokens_skipped :
  parsePathCommands "M 0 0 foo L 10 x 0" 0%nat (fresh_world (fun _ => 0))
  = Ret [("M"%char, [0; 0]); ("L"%char, [10; 0])] (fresh_world (fun _ => 0)).
Proof. vm_compute. reflexivity. Qed.

(** ** Determinism *)

Lemma det_ret {A} (Q : A -> Prop) (a : A) : Q a -> det Q (ret a).
Proof. intros Ha fuel w1 w2 S. unfold ret. auto. Qed.

Lemma det_raise {A} (Q : A -> Prop) (e : exn) : det Q (raise e).
Proof. intros fuel w1 w2 S. reflexivity. Qed.

Lemma det_bind {A B} (Q : A -> Prop) (Q' : B -> Prop) (m : M A) (k : A -> M B) :
  det Q m -> (forall a, Q a -> det Q' (k a)) -> det Q' (bind m k).
Proof.
  intros Hm Hk fuel w1 w2 S. unfold bind. specialize (Hm fuel w1 w2 S).
  destruct (m fuel w1) as [a w1'| |], (m fuel w2) as [b w2'| |]; try contradiction; auto.
  destruct Hm as (E & Ha & S'). subst b. apply (Hk a Ha fuel w1' w2' S').
Qed.

Lemma det_weaken {A} (Q Q' : A -> Prop) (m : M A) :
  det Q m -> (forall a, Q a -> Q' a) -> det Q' m.
Proof.
  intros Hm Himp fuel w1 w2 S. specialize (Hm fuel w1 w2 S).
  destruct (m fuel w1), (m fuel w2); auto. destruct Hm as (E & Ha & S'). auto.
Qed.

Lemma det_anything {A} (Q : A -> Prop) (m : M A) : det Q m -> det anything m.
Proof. intro Hm. apply (det_weaken Q); [exact Hm|]. intros; exact I. Qed.

Lemma det_for_each {A St} (body : St -> A -> M St) (xs : list A) :
  (forall s x, det anything (body s x)) -> forall s, det anything (for_each xs body s).
Proof.
  intro Hb. induction xs as [|x xs IH]; intro s; simpl.
  - apply det_ret. exact I.
  - eapply det_bind; [apply Hb|]. intros s' _. apply IH.
Qed.

Lemma det_while_loop {St} (cond : St -> bool) (body : St -> M St) :
  (forall s, det anything (body s)) ->
  forall n s, det anything (while_loop cond body n s).
Proof.
  intros Hb n. induction n as [|n IH]; intro s; simpl; destruct (cond s).
  - intros fuel w1 w2 _. exact I.
  - apply det_ret. exact I.
  - eapply det_bind; [apply Hb|]. intros s' _. apply IH.
  - apply det_ret. exact I.
Qed.

Lemma det_while {St} (cond : St -> bool) (body : St -> M St) (s : St) :
  (forall s, det anything (body s)) -> det anything (while cond body s).
Proof.
  intros Hb fuel w1 w2 S. unfold while.
  apply (det_while_loop cond body Hb fuel s fuel w1 w2 S).
Qed.

Lemma det_pydiv (a b : Q) : det anything (pydiv a b).
Proof. unfold pydiv. destruct (Qeqb b 0); [apply det_raise|apply det_ret; exact I]. Qed.

Lemma Forall_list_set {A} (P : A -> Prop) (l : list A) i v :
  Forall P l -> P v -> Forall P (list_set l i v).
Proof.
  intros Hl Hv. revert i. induction Hl as [|x l Hx Hl IH]; intros [|i]; simpl; auto.
Qed.

Lemma attr_get_attr_set {A} (l : list (option A)) i j v :
  attr_get (attr_set l i v) j = if Nat.eqb j i then Some v else attr_get l j.
Proof.
  unfold attr_get. revert l j. induction i as [|i IH]; intros [|x l] [|j]; simpl; auto.
  all: try (destruct j; reflexivity).
  all: rewrite IH; destruct (Nat.eqb j i); [reflexivity|]; try (destruct j; reflexivity).
  all: reflexivity.
Qed.

Lemma attr_get_new {A} (l : list (option A)) i :
  attr_get (l ++ [None]) i = attr_get l i.
Proof.
  unfold attr_get. revert i. induction l as [|x l IH]; intros [|i]; simpl; auto.
  destruct i; reflexivity.
Qed.

Lemma live_step (s : Z) : live_seed s -> live_seed ((s * LCG_MULTIPLIER) mod LCG_MODULUS).
Proof.
  unfold live_seed. intro Hs. rewrite Z.mod_mod by discriminate.
  apply lcg_step_nonzero, Hs.
Qed.

Lemma live_nonzero (s : Z) : live_seed s -> (s =? 0)%Z = false.
Proof.
  unfold live_seed. intro Hs. apply Z.eqb_neq. intro E. subst s. apply Hs. reflexivity.
Qed.

(** A draw from a generator that the world already holds. *)
Lemma Random_next_agree (r : nat) fuel w1 w2 :
  seeded_agree w1 w2 -> (r < List.length (rands w1))%nat ->
  match Random_next r fuel w1, Random_next r fuel w2 with
  | Ret a w1', Ret b w2' => a = b /\ seeded_agree w1' w2'
  | _, _ => False
  end.
Proof.
  intros [Er Eg Lv Rg] Hr. unfold Random_next, bind, Random_state, Random_set_state, ret.
  rewrite <- Er.
  assert (L : live_seed (nth r (rands w1) 0%Z)).
  { rewrite Forall_forall in Lv. apply Lv, nth_In, Hr. }
  rewrite (live_nonzero _ L). cbn [rands randgen]. split; [reflexivity|].
  constructor; cbn [rands randgen].
  - rewrite Er. reflexivity.
  - exact Eg.
  - apply Forall_list_set; [exact Lv|apply live_step, L].
  - intros i r' E. rewrite list_set_length. apply (Rg i r' E).
Qed.

Lemma det_randomFloat `{MathLib} (o : ResolvedOptions) :
  live_seed (seed o) -> det anything (randomFloat o).
Proof.
  intros L fuel w1 w2 S. unfold randomFloat, bind, get_randgen.
  pose proof S as [Er Eg Lv Rg]. rewrite <- Eg.
  destruct (attr_get (randgen w1) (oid o)) as [r|] eqn:E; unfold ret.
  - pose proof (Random_next_agree r fuel w1 w2 S (Rg _ _ E)) as N.
    destruct (Random_next r fuel w1), (Random_next r fuel w2); try contradiction.
    destruct N as [-> S']. split; [reflexivity|split; [exact I|assumption]].
  - unfold Random_new, set_randgen. cbn [rands randgen entropy cursor]. rewrite <- Er, <- Eg.
    match goal with |- match Random_next _ _ ?a with _ => _ end => set (u1 := a) end.
    match goal with |- match _ with Ret _ _ => match Random_next _ _ ?a with _ => _ end
                                 | _ => _ end => set (u2 := a) end.
    assert (S' : seeded_agree u1 u2).
    { constructor; cbn [rands randgen u1 u2]; try reflexivity.
      - apply Forall_app. split; [exact Lv|]. constructor; [exact L|constructor].
      - intros i r E'. rewrite attr_get_attr_set in E'. rewrite length_app. simpl.
        destruct (Nat.eqb i (oid o)).
        + injection E' as <-. lia.
        + apply Rg in E'. lia. }
    assert (Hr : (List.length (rands w1) < List.length (rands u1))%nat).
    { cbn [rands u1]. rewrite length_app. simpl. lia. }
    pose proof (Random_next_agree _ fuel u1 u2 S' Hr) as N.
    destruct (Random_next _ fuel u1), (Random_next _ fuel u2); try contradiction.
    destruct N as [-> S'']. split; [reflexivity|split; [exact I|assumption]].
Qed.

Lemma det_ResolvedOptions_init :
  det (fun c => fields c = ResolvedOptions_fields) ResolvedOptions_init.
Proof.
  intros fuel w1 w2 [Er Eg Lv Rg]. unfold ResolvedOptions_init, bind, new_object, ret.
  rewrite <- Eg. split; [reflexivity|]. split; [reflexivity|].
  constructor; cbn [rands randgen]; auto.
  intros i r E. rewrite attr_get_new in E. apply (Rg i r E).
Qed.

Lemma det_copy_options (o : ResolvedOptions) :
  det (fun c => fields c = fields o) (copy_options o).
Proof.
  intros fuel w1 w2 [Er Eg Lv Rg].
  unfold copy_options, ResolvedOptions_init, bind, new_object, get_randgen, ret.
  cbn [rands randgen oid]. rewrite <- Eg.
  destruct (attr_get (randgen w1 ++ [None]) (oid o)) as [r|] eqn:E;
    unfold set_randgen, bind, ret; cbn [rands randgen oid fields].
  - split; [reflexivity|]. split; [reflexivity|].
    constructor; cbn [rands randgen]; auto.
    intros i r' E'. rewrite attr_get_attr_set in E'. rewrite attr_get_new in *.
    destruct (Nat.eqb i _).
    + injection E' as <-. apply (Rg _ _ E).
    + apply (Rg _ _ E').
  - split; [reflexivity|]. split; [reflexivity|].
    constructor; cbn [rands randgen]; auto.
    intros i r' E'. rewrite attr_get_new in E'. apply (Rg _ _ E').
Qed.

Lemma det_cloneOptionsSeed (o : ResolvedOptions) :
  det (fun c => fields c = set_seed (seed o + 1)%Z o) (cloneOptionsSeed o).
Proof.
  unfold cloneOptionsSeed. eapply det_bind; [apply det_ResolvedOptions_init|].
  intros c _. apply det_ret. reflexivity.
Qed.

Lemma det_unless_preserved (o : ResolvedOptions) (r : M Q) :
  det anything r -> det anything (unless_preserved o r).
Proof.
  intro Hr. unfold unless_preserved.
  destruct (truthy (preserveVertices o)); [apply det_ret; exact I|exact Hr].
Qed.

Lemma det_if {A} (Q : A -> Prop) (b : bool) (m1 m2 : M A) :
  det Q m1 -> det Q m2 -> det Q (if b then m1 else m2).
Proof. destruct b; auto. Qed.

Create HintDb det discriminated.
#[local] Hint Constants Opaque : det.
#[local] Hint Variables Opaque : det.

(** The seed of an options object that copies the fields of another. *)
Ltac options_solve :=
  repeat match goal with
         | E : fields _ = _ |- _ => rewrite E
         | E : seed _ = _ |- _ => rewrite E
         | E : fillStyle _ = _ |- _ => rewrite E
         end;
  first [assumption | simpl; assumption].

(** The next seed is live whenever a second pass is drawn: known of the
    resolved options, or void because the copy draws a single stroke. *)
Ltac second_pass_solve :=
  first [options_solve
        |let Hf := fresh "Hf" in
         intro Hf; exfalso;
         repeat match goal with
                | E : disableMultiStroke _ = _ |- _ => rewrite E in Hf
                end;
         discriminate Hf].

#[local] Hint Extern 2 (live_seed _) => options_solve : det.
#[local] Hint Extern 2 (opt_is _ _ = false) => options_solve : det.
#[local] Hint Extern 2 (_ = false -> live_seed _) => second_pass_solve : det.

Ltac det_step :=
  cbv beta zeta;
  match goal with
  | |- det _ (ret _) => apply det_ret; exact I
  | |- det _ (raise _) => apply det_raise
  | |- det _ (pydiv _ _) => apply det_pydiv
  | |- det _ (bind ?m _) =>
      lazymatch m with
      | bind _ _ => eapply (det_bind anything); [|intros ? _]
      | ret _ => eapply (det_bind anything); [|intros ? _]
      | (if _ then _ else _) => eapply (det_bind anything); [|intros ? _]
      | match _ with _ => _ end => eapply (det_bind anything); [|intros ? _]
      | for_each _ _ _ => eapply (det_bind anything); [|intros ? _]
      | while _ _ _ => eapply (det_bind anything); [|intros ? _]
      | pydiv _ _ => eapply (det_bind anything); [|intros ? _]
      | _ => eapply det_bind;
             [solve [eauto with det]
             |let a := fresh "a" in let Ha := fresh "Ha" in
              intros a Ha; cbv beta in Ha;
              repeat match goal with
                     | Hc : _ /\ _ |- _ => destruct Hc as [? ?]
                     end]
      end
  | |- det _ (unless_preserved _ _) => apply det_unless_preserved
  | |- det _ (for_each _ _ _) => apply det_for_each; intros
  | |- det _ (while _ _ _) => apply det_while; intros
  | |- det _ (if ?c then _ else _) =>
      first [let E := fresh "E" in
             assert (E : c = false) by options_solve; rewrite E
            |let E := fresh "E" in
             assert (E : c = true) by options_solve; rewrite E
            |apply det_if]
  | |- det _ (match ?x with _ => _ end) => destruct x
  | |- det _ _ => solve [eauto with det]
  end.

Ltac det_auto := repeat det_step.

Section DetRenderer.
Context `{MathLib}.
Implicit Types (o : ResolvedOptions) (x y gain : Q) (r : M Q).

Lemma det_offsetRange minv maxv o gain :
  live_seed (seed o) -> det anything (offsetRange minv maxv o gain).
Proof. intro L. unfold offsetRange. pose proof (det_randomFloat o L). det_auto. Qed.

Lemma det_offsetOpt x o gain : live_seed (seed o) -> det anything (offsetOpt x o gain).
Proof. intro L. unfold offsetOpt, randOffsetWithRange. apply det_offsetRange, L. Qed.

Lemma det_randOffset x o : live_seed (seed o) -> det anything (randOffset x o).
Proof. intro L. unfold randOffset. apply det_offsetOpt, L. Qed.

Lemma det_randOffsetWithRange a b o :
  live_seed (seed o) -> det anything (randOffsetWithRange a b o).
Proof. intro L. unfold offsetOpt, randOffsetWithRange. apply det_offsetRange, L. Qed.

#[local] Hint Resolve det_randomFloat det_offsetRange det_offsetOpt det_randOffset
  det_randOffsetWithRange det_unless_preserved : det.

Lemma det_lineOps x1 y1 x2 y2 o move_ overlay :
  live_seed (seed o) -> det anything (lineOps x1 y1 x2 y2 o move_ overlay).
Proof. intro L. unfold lineOps. destruct move_, overlay; det_auto. Qed.

#[local] Hint Resolve det_lineOps : det.

Lemma det_doubleLine x1 y1 x2 y2 o filling :
  live_seed (seed o) -> det anything (doubleLine x1 y1 x2 y2 o filling).
Proof. intro L. unfold doubleLine. det_auto. Qed.

#[local] Hint Resolve det_doubleLine : det.

Lemma det_doubleLineFillOps x1 y1 x2 y2 o :
  live_seed (seed o) -> det anything (doubleLineFillOps x1 y1 x2 y2 o).
Proof. intro L. unfold doubleLineFillOps. apply det_doubleLine, L. Qed.

Lemma det_line x1 y1 x2 y2 o : live_seed (seed o) -> det anything (line x1 y1 x2 y2 o).
Proof. intro L. unfold line. det_auto. Qed.

Lemma det_extend_doubleLine o acc e :
  live_seed (seed o) -> det anything (extend_doubleLine o acc e).
Proof. intro L. unfold extend_doubleLine. det_auto. Qed.

#[local] Hint Resolve det_extend_doubleLine : det.

Lemma det_linearPath points close o :
  live_seed (seed o) -> det anything (linearPath points close o).
Proof.
  intro L. unfold linearPath.
  destruct points as [|p0 [|p1 [|p2 rest]]]; det_auto.
Qed.

Lemma det_polygon points o : live_seed (seed o) -> det anything (polygon points o).
Proof. intro L. unfold polygon. apply det_linearPath, L. Qed.

Lemma det_rectangle x y width height o :
  live_seed (seed o) -> det anything (rectangle x y width height o).
Proof. intro L. unfold rectangle. apply det_polygon, L. Qed.

End DetRenderer.

#[local] Hint Resolve det_randomFloat det_offsetRange det_offsetOpt det_randOffset
  det_randOffsetWithRange det_unless_preserved det_lineOps det_doubleLine
  det_doubleLineFillOps det_line det_extend_doubleLine det_linearPath det_polygon
  det_rectangle det_copy_options det_cloneOptionsSeed det_ResolvedOptions_init : det.

Section DetCurves.
Context `{MathLib}.
Implicit Types (o : ResolvedOptions) (x y offset : Q).

Lemma det_curveOps points closePoint o :
  live_seed (seed o) -> det anything (curveOps points closePoint o).
Proof. intro L. unfold curveOps. det_auto. Qed.

Lemma det_offset_point offset o p :
  live_seed (seed o) -> det anything (offset_point offset o p).
Proof. intro L. unfold offset_point. det_auto. Qed.

#[local] Hint Resolve det_curveOps det_offset_point : det.

Lemma det_curveWithOffset_rest offset o rest :
  live_seed (seed o) -> det anything (curveWithOffset_rest offset o rest).
Proof.
  intro L. induction rest as [|p rest IH]; simpl.
  - apply det_ret. exact I.
  - destruct rest as [|p' rest]; det_auto.
Qed.

#[local] Hint Resolve det_curveWithOffset_rest : det.

Lemma det_curveWithOffset points offset o :
  live_seed (seed o) -> det anything (curveWithOffset points offset o).
Proof. intro L. unfold curveWithOffset. det_auto. Qed.

#[local] Hint Resolve det_curveWithOffset : det.

Lemma det_curve_passes points o :
  live_seed (seed o) ->
  (truthy (disableMultiStroke o) = false -> live_seed (seed o + 1)) ->
  det anything (curve_passes points o).
Proof.
  intros L L'. unfold curve_passes.
  destruct (truthy (disableMultiStroke o)); [|specialize (L' eq_refl)]; det_auto.
Qed.

#[local] Hint Resolve det_curve_passes : det.

Lemma det_curve_segment o st pset :
  live_seed (seed o) ->
  (truthy (disableMultiStroke o) = false -> live_seed (seed o + 1)) ->
  det anything (curve_segment o st pset).
Proof.
  intros L L'. unfold curve_segment. destruct st as [first_segment all_ops].
  eapply det_bind; [apply det_curve_passes; assumption|].
  intros [under over2] _. det_auto.
Qed.

#[local] Hint Resolve det_curve_segment : det.

Lemma det_curve points o :
  live_seed (seed o) ->
  (truthy (disableMultiStroke o) = false -> live_seed (seed o + 1)) ->
  det anything (curve points o).
Proof.
  intros L L'. unfold curve. det_auto.
Qed.

Lemma det_generateEllipseParams width height o :
  live_seed (seed o) -> det anything (generateEllipseParams width height o).
Proof. intro L. unfold generateEllipseParams. det_auto. Qed.

Lemma det_computeEllipsePoints increment cx cy rx ry offset overlap o :
  live_seed (seed o) ->
  det anything (computeEllipsePoints increment cx cy rx ry offset overlap o).
Proof. intro L. unfold computeEllipsePoints. det_auto. Qed.

#[local] Hint Resolve det_generateEllipseParams det_computeEllipsePoints : det.

Lemma det_ellipseWithParams x y o ep :
  live_seed (seed o) -> det anything (ellipseWithParams x y o ep).
Proof. intro L. unfold ellipseWithParams. det_auto. Qed.

#[local] Hint Resolve det_ellipseWithParams : det.

Lemma det_ellipse x y width height o :
  live_seed (seed o) -> det anything (ellipse x y width height o).
Proof. intro L. unfold ellipse. det_auto. Qed.

Lemma det_normalize_angles start stop : det anything (normalize_angles start stop).
Proof. unfold normalize_angles. det_auto. Qed.

Lemma det_arcOps arcInc cx cy rx ry strt stp offset o :
  live_seed (seed o) -> det anything (arcOps arcInc cx cy rx ry strt stp offset o).
Proof. intro L. unfold arcOps. det_auto. Qed.

#[local] Hint Resolve det_normalize_angles det_arcOps : det.

Lemma det_arc x y width height start stop closed roughClosure o :
  live_seed (seed o) ->
  det anything (arc x y width height start stop closed roughClosure o).
Proof. intro L. unfold arc. det_auto. Qed.

End DetCurves.

#[local] Hint Resolve det_curveOps det_offset_point det_curveWithOffset_rest
  det_curveWithOffset det_curve_passes det_curve_segment det_curve
  det_generateEllipseParams det_computeEllipsePoints det_ellipseWithParams det_ellipse
  det_normalize_angles det_arcOps det_arc : det.

Section DetPath.
Context `{MathLib}.
Implicit Types (o : ResolvedOptions) (x y : Q).

Lemma det_parse_token segs t : det anything (parse_token segs t).
Proof. unfold parse_token. det_auto. Qed.

#[local] Hint Resolve det_parse_token : det.

Lemma det_parsePathCommands d : det anything (parsePathCommands d).
Proof. unfold parsePathCommands. det_auto. Qed.

Lemma det_ellipticalArcToBezier x1 y1 x2 y2 rx0 ry0 phi fa fs :
  det anything (ellipticalArcToBezier x1 y1 x2 y2 rx0 ry0 phi fa fs).
Proof. unfold ellipticalArcToBezier. det_auto. Qed.

Lemma det_cubic_pass cx1 cy1 cx2 cy2 ex ey sx sy o i :
  live_seed (seed o) -> det anything (cubic_pass cx1 cy1 cx2 cy2 ex ey sx sy o i).
Proof. intro L. unfold cubic_pass. det_auto. Qed.

#[local] Hint Resolve det_parsePathCommands det_ellipticalArcToBezier det_cubic_pass : det.

Lemma det_cubicBezierOps cx1 cy1 cx2 cy2 ex ey current o :
  live_seed (seed o) -> det anything (cubicBezierOps cx1 cy1 cx2 cy2 ex ey current o).
Proof. intro L. unfold cubicBezierOps. det_auto. Qed.

#[local] Hint Resolve det_cubicBezierOps : det.

Lemma det_quadToCubic qx qy x y current o :
  live_seed (seed o) -> det anything (quadToCubic qx qy x y current o).
Proof. intro L. unfold quadToCubic. det_auto. Qed.

Lemma det_arcToCubics current rx ry xrot laf swf ex ey o :
  live_seed (seed o) -> det anything (arcToCubics current rx ry xrot laf swf ex ey o).
Proof. intro L. unfold arcToCubics. det_auto. Qed.

Lemma det_singleArc cur rx ry xrot laf swf ex ey :
  det anything (singleArc cur rx ry xrot laf swf ex ey).
Proof. unfold singleArc. det_auto. Qed.

#[local] Hint Resolve det_quadToCubic det_arcToCubics det_singleArc : det.

Lemma det_svgPath_step o st seg :
  live_seed (seed o) -> det anything (svgPath_step o st seg).
Proof. intro L. unfold svgPath_step. det_auto. Qed.

#[local] Hint Resolve det_svgPath_step : det.

Lemma det_svgPath path o : live_seed (seed o) -> det anything (svgPath path o).
Proof. intro L. unfold svgPath. det_auto. Qed.

End DetPath.

#[local] Hint Resolve det_parse_token det_parsePathCommands det_ellipticalArcToBezier
  det_cubic_pass det_cubicBezierOps det_quadToCubic det_arcToCubics det_singleArc
  det_svgPath_step det_svgPath : det.

Section DetFillers.
Context `{MathLib} `{RenderHelper}.
Implicit Types (o : ResolvedOptions).

Hypothesis helper_doubleLineOps_det : forall x1 y1 x2 y2 o,
  live_seed (seed o) -> det anything (helper_doubleLineOps x1 y1 x2 y2 o).

#[local] Hint Resolve helper_doubleLineOps_det : det.

Lemma det_hachure_polygon gap angle_rad all_lines poly :
  det anything (hachure_polygon gap angle_rad all_lines poly).
Proof. unfold hachure_polygon. det_auto. Qed.

#[local] Hint Resolve det_hachure_polygon : det.

Lemma det_polygon_hachure_lines polygonList (o : Options) :
  det anything (polygon_hachure_lines polygonList o).
Proof. unfold polygon_hachure_lines. det_auto. Qed.

Lemma det_renderLines lines o : live_seed (seed o) -> det anything (renderLines lines o).
Proof. intro L. unfold renderLines. det_auto. Qed.

#[local] Hint Resolve det_polygon_hachure_lines det_renderLines : det.

Lemma det_Hachure_fillPolygons polygonList o :
  live_seed (seed o) -> det anything (Hachure_fillPolygons polygonList o).
Proof. intro L. unfold Hachure_fillPolygons. det_auto. Qed.

#[local] Hint Resolve det_Hachure_fillPolygons : det.

Lemma det_ZigZag_fillPolygons polygonList o :
  live_seed (seed o) -> det anything (ZigZag_fillPolygons polygonList o).
Proof. intro L. unfold ZigZag_fillPolygons. det_auto. Qed.

Lemma det_Hatch_fillPolygons polygonList o :
  live_seed (seed o) -> det anything (Hatch_fillPolygons polygonList o).
Proof. intro L. unfold Hatch_fillPolygons. det_auto. Qed.

Lemma det_dashedLine lines o : live_seed (seed o) -> det anything (_dashedLine lines o).
Proof. intro L. unfold _dashedLine. det_auto. Qed.

Lemma det_zigzagLines lines zo o :
  live_seed (seed o) -> det anything (_zigzagLines lines zo o).
Proof. intro L. unfold _zigzagLines. det_auto. Qed.

#[local] Hint Resolve det_dashedLine det_zigzagLines : det.

Lemma det_Dashed_fillPolygons polygonList o :
  live_seed (seed o) -> det anything (Dashed_fillPolygons polygonList o).
Proof. intro L. unfold Dashed_fillPolygons. det_auto. Qed.

Lemma det_ZigZagLine_fillPolygons polygonList o :
  live_seed (seed o) -> det anything (ZigZagLine_fillPolygons polygonList o).
Proof. intro L. unfold ZigZagLine_fillPolygons. det_auto. Qed.

#[local] Hint Resolve det_ZigZag_fillPolygons det_Hatch_fillPolygons
  det_Dashed_fillPolygons det_ZigZagLine_fillPolygons : det.

(** Every filler but the dot filler. *)
Lemma det_fillPolygons polygonList o :
  live_seed (seed o) -> opt_is (fillStyle o) "dots" = false ->
  det anything (fillPolygons polygonList o).
Proof.
  intros L D. unfold fillPolygons. cbv zeta. unfold opt_is in D.
  destruct (fillStyle o) as [s|].
  - destruct (String.eqb s "").
    + cbn [String.eqb Ascii.eqb Bool.eqb]. det_auto.
    + rewrite D. det_auto.
  - cbn [String.eqb Ascii.eqb Bool.eqb]. det_auto.
Qed.

End DetFillers.

#[local] Hint Resolve det_hachure_polygon det_polygon_hachure_lines : det.

Section DetGenerator.
Context `{MathLib}.
Implicit Types (o : ResolvedOptions) (x y : Q).

Lemma det_patternFillPolygons polygonList o :
  live_seed (seed o) -> opt_is (fillStyle o) "dots" = false ->
  det anything (patternFillPolygons polygonList o).
Proof.
  intros L D. unfold patternFillPolygons. apply det_fillPolygons; [|exact L|exact D].
  intros x1 y1 x2 y2 o' L'. cbn [helper_doubleLineOps RenderHelperImpl].
  apply det_doubleLineFillOps, L'.
Qed.

#[local] Hint Resolve det_patternFillPolygons : det.

Lemma det_patternFillArc x y width height start stop o :
  live_seed (seed o) -> opt_is (fillStyle o) "dots" = false ->
  det anything (patternFillArc x y width height start stop o).
Proof. intros L D. unfold patternFillArc. det_auto. Qed.

Lemma det_RoughGenerator_init config_options :
  det (fun g => fields (defaultOptions g) = configured_defaults config_options)
      (RoughGenerator_init config_options).
Proof.
  unfold RoughGenerator_init. eapply det_bind; [apply det_ResolvedOptions_init|].
  intros d Hd. cbv beta in Hd.
  destruct config_options as [u|]; apply det_ret; cbn [defaultOptions fields configured_defaults].
  - rewrite Hd. reflexivity.
  - exact Hd.
Qed.

Lemma det_o self options_ :
  det (fun o : ResolvedOptions => fields o = visibility_checks (merged_options self options_))
      (_o self options_).
Proof.
  intros fuel w1 w2 [Er Eg Lv Rg].
  unfold _o, ResolvedOptions_init, bind, new_object, get_randgen, ret.
  cbn [rands randgen oid]. rewrite <- Eg.
  destruct (attr_get (randgen w1 ++ [None]) (oid (defaultOptions self))) as [r|] eqn:Ea;
    unfold set_randgen, ret; cbn [rands randgen oid fields].
  - split; [reflexivity|]. split; [unfold merged_options; destruct options_; reflexivity|].
    constructor; cbn [rands randgen]; auto.
    intros i r' E'. rewrite attr_get_attr_set in E'. rewrite attr_get_new in *.
    destruct (Nat.eqb i _).
    + injection E' as <-. apply (Rg _ _ Ea).
    + apply (Rg _ _ E').
  - split; [reflexivity|]. split; [unfold merged_options; destruct options_; reflexivity|].
    constructor; cbn [rands randgen]; auto.
    intros i r' E'. rewrite attr_get_new in E'. apply (Rg _ _ E').
Qed.

Lemma det_single_stroke_copy o :
  det (fun c : ResolvedOptions => seed c = seed o /\ fillStyle c = fillStyle o) (single_stroke_copy o).
Proof.
  unfold single_stroke_copy. eapply det_bind; [apply det_copy_options|].
  intros c Hc. cbv beta in Hc. apply det_ret. cbn. rewrite Hc. split; reflexivity.
Qed.

Lemma det_solidFillHelper o :
  det (fun c : ResolvedOptions =>
         seed c = seed o /\ fillStyle c = fillStyle o
         /\ disableMultiStroke c = Some true)
      (_solidFillHelper o).
Proof.
  unfold _solidFillHelper. eapply det_bind; [apply det_copy_options|].
  intros c Hc. cbv beta in Hc. apply det_ret. cbn. rewrite Hc.
  split; [reflexivity|]. split; reflexivity.
Qed.

Lemma det_approxCurveAsPoints points : det anything (_approxCurveAsPoints points).
Proof. unfold _approxCurveAsPoints. det_auto. Qed.

End DetGenerator.

#[local] Hint Resolve det_patternFillPolygons det_patternFillArc det_o
  det_single_stroke_copy det_solidFillHelper det_approxCurveAsPoints : det.

(** * Further properties of the code *)

(** ** Options resolution *)

Lemma visibility_checks_visible (m : Options) : invisible (visibility_checks m) = false.
Proof.
  unfold visibility_checks, invisible.
  set (m1 := default_stroke_if_hidden (hide_zero_width_stroke m)).
  unfold default_fill_if_empty.
  destruct (empty_fill (fill m1)) eqn:Ef; cbn [andb].
  - destruct (is_none (stroke m1) || opt_is (stroke m1) "" || opt_is (stroke m1) "none")
      eqn:Es.
    + reflexivity.
    + rewrite Ef. cbn [andb]. unfold empty_fill. exact Es.
  - rewrite Ef. reflexivity.
Qed.

(** X1. Whatever the generator's defaults and the options of the call,
    [_o] returns options that are not invisible: the fill is a colour
    (not absent, [""] or ["none"]) or the stroke is. *)
Theorem resolved_options_are_visible (self : RoughGenerator)
    (options_ : option Options) (fuel : nat) (w : World) :
  exists o w', _o self options_ fuel w = Ret o w' /\ invisible o = false.
Proof.
  destruct (_o_returns self options_ fuel w) as (i & w' & E).
  eexists _, w'. split; [exact E|]. cbn [fields]. apply visibility_checks_visible.
Qed.

Lemma visibility_checks_seed (m : Options) : seed (visibility_checks m) = seed m.
Proof.
  unfold visibility_checks, default_fill_if_empty, default_stroke_if_hidden,
    hide_zero_width_stroke.
  repeat match goal with
         | |- context [if ?b then _ else _] => destruct b
         | |- context [match ?x with Some _ => _ | None => _ end] => destruct x
         end; reflexivity.
Qed.

(** X2. The seed of the resolved options is the seed of the options of
    the call whenever options are passed, whatever seed the generator was
    configured with; an [Options] built without a seed carries 0, so it
    resets a configured seed to 0.  Without options of the call, the seed
    is the configured one, and 0 without a configuration. *)
Theorem options_of_the_call_set_the_seed (config_options options_ : option Options)
    (fuel : nat) (w : World) :
  exists o w',
    (g <- RoughGenerator_init config_options ;; _o g options_) fuel w = Ret o w'
    /\ seed o = match options_, config_options with
                | Some local, _ => seed local
                | None, Some user_options => seed user_options
                | None, None => 0%Z
                end.
Proof.
  assert (G : exists g w1,
             RoughGenerator_init config_options fuel w = Ret g w1
             /\ seed (defaultOptions g)
                = match config_options with Some u => seed u | None => 0%Z end).
  { unfold RoughGenerator_init, bind, ResolvedOptions_init, new_object, ret.
    destruct config_options as [u|]; eexists _, _; split; reflexivity. }
  destruct G as (g & w1 & Eg & Sg).
  destruct (_o_returns g options_ fuel w1) as (i & w' & E).
  eexists _, w'. split; [unfold bind; rewrite Eg; exact E|].
  cbn [fields]. rewrite visibility_checks_seed. unfold merged_options.
  destruct options_ as [local|]; [reflexivity|].
  cbn [merge_options seed]. rewrite Sg. destruct config_options; reflexivity.
Qed.

(** A generator configured with seed 42 and a call that only sets the
    roughness: the drawing is made with seed 0. *)
Example configured_seed_is_lost :
  exists o w',
    (g <- RoughGenerator_init (Some (with_seed 42 Options_init)) ;;
     _o g (Some (set_roughness (Some 2) Options_init))) 0%nat (fresh_world (fun _ => 0))
    = Ret o w' /\ seed o = 0%Z.
Proof. eexists _, _. split; [vm_compute; reflexivity|reflexivity]. Qed.


Lemma set_stroke_same (o : Options) : set_stroke (stroke o) o = o.
Proof. destruct o. reflexivity. Qed.

Lemma set_fill_same (o : Options) : set_fill (fill o) o = o.
Proof. destruct o. reflexivity. Qed.

Lemma hide_zero_width_stroke_closed (o : Options) :
  hide_zero_width_stroke o
  = set_stroke (match strokeWidth o with
                | Some w => if Qeqb w 0 then Some "none"%string else stroke o
                | None => stroke o
                end) o.
Proof.
  unfold hide_zero_width_stroke.
  destruct (strokeWidth o) as [w|]; [destruct (Qeqb w 0)|];
    first [reflexivity | symmetry; apply set_stroke_same].
Qed.

Lemma default_stroke_if_hidden_closed (o : Options) :
  default_stroke_if_hidden o
  = set_stroke (if (is_none (stroke o) || opt_is (stroke o) "none") && empty_fill (fill o)
                then Some "#000"%string else stroke o) o.
Proof.
  unfold default_stroke_if_hidden.
  destruct ((is_none (stroke o) || opt_is (stroke o) "none") && empty_fill (fill o));
    first [reflexivity | symmetry; apply set_stroke_same].
Qed.

Lemma default_fill_if_empty_closed (o : Options) :
  default_fill_if_empty o
  = set_fill (if empty_fill (fill o)
                 && (is_none (stroke o) || opt_is (stroke o) "" || opt_is (stroke o) "none")
              then Some "#0f0"%string else fill o) o.
Proof.
  unfold default_fill_if_empty.
  destruct (empty_fill (fill o)
            && (is_none (stroke o) || opt_is (stroke o) "" || opt_is (stroke o) "none"));
    first [reflexivity | symmetry; apply set_fill_same].
Qed.

Lemma visibility_checks_closed (m : Options) :
  visibility_checks m
  = set_fill (snd (checked_colours (strokeWidth m) (stroke m) (fill m)))
      (set_stroke (fst (checked_colours (strokeWidth m) (stroke m) (fill m))) m).
Proof.
  unfold visibility_checks.
  rewrite default_fill_if_empty_closed, default_stroke_if_hidden_closed,
    hide_zero_width_stroke_closed.
  destruct m. reflexivity.
Qed.

Lemma checked_colours_idempotent (sw : option Q) (st fi : option string) :
  checked_colours sw (fst (checked_colours sw st fi)) (snd (checked_colours sw st fi))
  = checked_colours sw st fi.
Proof.
  unfold checked_colours, empty_fill, is_none, opt_is.
  destruct sw as [w|]; [destruct (Qeqb w 0) eqn:Ew|];
    (destruct st as [st|];
     [destruct (String.eqb st "none") eqn:E1; destruct (String.eqb st "") eqn:E2|]);
    (destruct fi as [fi|];
     [destruct (String.eqb fi "none") eqn:E3; destruct (String.eqb fi "") eqn:E4|]);
    cbn; rewrite ?Ew, ?E1, ?E2, ?E3, ?E4; cbn; rewrite ?Ew, ?E1, ?E2, ?E3, ?E4;
    reflexivity.
Qed.

(** X3. The checks of the resolution are stable: run on options that
    went through them, they change nothing. *)
Theorem visibility_checks_idempotent (m : Options) :
  visibility_checks (visibility_checks m) = visibility_checks m.
Proof.
  rewrite (visibility_checks_closed (visibility_checks m)).
  rewrite (visibility_checks_closed m).
  set (c := checked_colours (strokeWidth m) (stroke m) (fill m)).
  replace (strokeWidth (set_fill (snd c) (set_stroke (fst c) m))) with (strokeWidth m)
    by reflexivity.
  replace (stroke (set_fill (snd c) (set_stroke (fst c) m))) with (fst c) by reflexivity.
  replace (fill (set_fill (snd c) (set_stroke (fst c) m))) with (snd c) by reflexivity.
  subst c. rewrite checked_colours_idempotent.
  destruct m. reflexivity.
Qed.

(** ** The seeded random source *)

Lemma lcg_step_injective (s1 s2 : Z) :
  (0 < s1 < LCG_MODULUS)%Z -> (0 < s2 < LCG_MODULUS)%Z ->
  ((s1 * LCG_MULTIPLIER) mod LCG_MODULUS = (s2 * LCG_MULTIPLIER) mod LCG_MODULUS)%Z ->
  s1 = s2.
Proof.
  intros H1 H2 E.
  assert (D : (LCG_MODULUS | (s1 - s2) * LCG_MULTIPLIER)%Z).
  { apply Z.mod_divide; [discriminate|].
    rewrite Z.mul_sub_distr_r, Zminus_mod, E, Z.sub_diag. reflexivity. }
  rewrite Z.mul_comm in D.
  apply Z.gauss in D.
  - destruct D as [k Hk]. clear E. unfold LCG_MODULUS in *. lia.
  - rewrite Z.gcd_comm. apply lcg_coprime.
Qed.

Lemma first_draw (s : Z) (fuel : nat) (w : World) :
  (0 < s < LCG_MODULUS)%Z ->
  exists w',
    (r <- Random_new s ;; Random_next r) fuel w
    = Ret (inject_Z ((s * LCG_MULTIPLIER) mod LCG_MODULUS) / inject_Z LCG_MODULUS) w'.
Proof.
  intro Hs. unfold bind, Random_new, Random_next, bind, Random_state, Random_set_state, ret.
  cbn [rands]. rewrite nth_middle.
  destruct (Z.eqb_spec s 0) as [E|E]; [lia|]. eexists. reflexivity.
Qed.

(** X4. The generator never merges two seeds: two generators made from
    different seeds between 1 and 2^31 - 2 return different first
    numbers (the multiplier is invertible modulo 2^31 - 1). *)
Theorem equal_first_draws_equal_seeds (s1 s2 : Z) (fuel : nat) (w : World)
    (u v : Q) (w1 w2 : World) :
  (0 < s1 < LCG_MODULUS)%Z -> (0 < s2 < LCG_MODULUS)%Z ->
  (r <- Random_new s1 ;; Random_next r) fuel w = Ret u w1 ->
  (r <- Random_new s2 ;; Random_next r) fuel w = Ret v w2 ->
  u == v -> s1 = s2.
Proof.
  intros H1 H2 E1 E2 E.
  destruct (first_draw s1 fuel w H1) as (w1' & F1).
  destruct (first_draw s2 fuel w H2) as (w2' & F2).
  rewrite F1 in E1. rewrite F2 in E2.
  injection E1 as <- _. injection E2 as <- _.
  apply lcg_step_injective; [assumption|assumption|].
  unfold Qdiv in E. apply Qmult_inj_r in E; [|discriminate].
  unfold Qeq in E. cbn [inject_Z Qnum Qden] in E. rewrite !Z.mul_1_r in E. exact E.
Qed.

Lemma equal_first_draws_equal_seeds_witness : 42%Z = 42%Z.
Proof.
  destruct (first_draw 42 0%nat (fresh_world (fun _ => 0))) as (w' & F);
    [split; reflexivity|].
  refine (equal_first_draws_equal_seeds 42 42 0%nat (fresh_world (fun _ => 0))
            _ _ w' w' _ _ F F _); try (split; reflexivity).
Defined.

(** ** Path data: the normalizer *)

Lemma toAbsolute_step_to_segment (st : AbsState) (a : AbsSegment) :
  abs_result (toAbsolute_step st (to_segment a)) = abs_result st ++ [a].
Proof. destruct a; reflexivity. Qed.

Lemma fold_toAbsolute_to_segment (l : list AbsSegment) (st : AbsState) :
  abs_result (fold_left toAbsolute_step (map to_segment l) st) = abs_result st ++ l.
Proof.
  revert st. induction l as [|a l IH]; intro st; simpl.
  - rewrite app_nil_r. reflexivity.
  - rewrite IH, toAbsolute_step_to_segment, <- app_assoc. reflexivity.
Qed.

(** X5. [toAbsolute] is the identity on absolute paths: a list of
    absolute commands, written as segments with their upper-case letters,
    comes back unchanged, whatever came before in the path. *)
Theorem toAbsolute_absolute_round_trip (pre : list Segment) (l : list AbsSegment) :
  toAbsolute (pre ++ map to_segment l) = toAbsolute pre ++ l.
Proof.
  unfold toAbsolute. rewrite fold_left_app, fold_toAbsolute_to_segment. reflexivity.
Qed.

Lemma toAbsolute_step_smooth (st : AbsState) (c : ascii) (nums : list Q) :
  In c smooth_commands -> toAbsolute_step st (c, nums) = st.
Proof.
  intros [<-|[<-|[<-|[<-|[]]]]]; reflexivity.
Qed.

(** X6. The smooth-curve commands [S], [s], [T] and [t], which the
    tokenizer accepts, are dropped with their numbers: the rest of the path
    is read as if they were not there, from the same current point. *)
Theorem toAbsolute_skips_smooth_commands (pre post : list Segment) (c : ascii)
    (nums : list Q) :
  In c smooth_commands ->
  toAbsolute (pre ++ (c, nums) :: post) = toAbsolute (pre ++ post).
Proof.
  intro Hc. unfold toAbsolute. rewrite !fold_left_app. cbn [fold_left].
  rewrite toAbsolute_step_smooth by exact Hc. reflexivity.
Qed.

Lemma toAbsolute_skips_smooth_commands_witness :
  toAbsolute ([("M"%char, [0; 0])] ++ ("S"%char, [1; 2; 3; 4]) :: [("l"%char, [5; 5])])
  = toAbsolute ([("M"%char, [0; 0])] ++ [("l"%char, [5; 5])]).
Proof.
  apply (toAbsolute_skips_smooth_commands [("M"%char, [0; 0])] [("l"%char, [5; 5])]
           "S"%char [1; 2; 3; 4]).
  left. reflexivity.
Defined.

Lemma div_step (k n : nat) : (0 < k)%nat -> ((k + n) / k = S (n / k))%nat.
Proof.
  intro Hk. replace (k + n)%nat with (1 * k + n)%nat by lia.
  rewrite Nat.div_add_l by lia. reflexivity.
Qed.

Ltac groups_induction nums :=
  let n := fresh "n" in
  let Hle := fresh "Hle" in
  assert (Hle : (List.length nums <= List.length nums)%nat) by lia;
  revert Hle; generalize (List.length nums) at 2; intro n; revert nums;
  induction n as [|n IH]; intros nums Hle.

Lemma abs_moves_length (b : bool) (nums : list Q) (st : AbsState) :
  List.length (abs_result (abs_moves b nums st))
  = (List.length (abs_result st) + List.length nums / 2)%nat.
Proof.
  revert st. groups_induction nums; intro st;
    (destruct nums as [|x0 [|y0 rest]];
     try (cbn [abs_moves List.length]; rewrite Nat.div_small by lia; lia));
    cbn [List.length] in Hle; try (exfalso; lia).
  cbn [abs_moves]. rewrite IH by lia.
  cbn [abs_result List.length]. rewrite length_app.
  change (S (S (List.length rest)))
    with (2 + List.length rest)%nat.
  rewrite div_step by lia. cbn [List.length]. lia.
Qed.

Lemma abs_lines_length (b : bool) (nums : list Q) (st : AbsState) :
  List.length (abs_result (abs_lines b nums st))
  = (List.length (abs_result st) + List.length nums / 2)%nat.
Proof.
  revert st. groups_induction nums; intro st;
    (destruct nums as [|x0 [|y0 rest]];
     try (cbn [abs_lines List.length]; rewrite Nat.div_small by lia; lia));
    cbn [List.length] in Hle; try (exfalso; lia).
  cbn [abs_lines]. rewrite IH by lia.
  cbn [abs_result List.length]. rewrite length_app.
  change (S (S (List.length rest)))
    with (2 + List.length rest)%nat.
  rewrite div_step by lia. cbn [List.length]. lia.
Qed.

Lemma abs_horizontals_length (b : bool) (nums : list Q) (st : AbsState) :
  List.length (abs_result (abs_horizontals b nums st))
  = (List.length (abs_result st) + List.length nums / 1)%nat.
Proof.
  rewrite Nat.div_1_r. revert st. induction nums as [|v rest IH]; intro st.
  - cbn. lia.
  - cbn [abs_horizontals]. rewrite IH. cbn [abs_result List.length].
    rewrite length_app. cbn. lia.
Qed.

Lemma abs_verticals_length (b : bool) (nums : list Q) (st : AbsState) :
  List.length (abs_result (abs_verticals b nums st))
  = (List.length (abs_result st) + List.length nums / 1)%nat.
Proof.
  rewrite Nat.div_1_r. revert st. induction nums as [|v rest IH]; intro st.
  - cbn. lia.
  - cbn [abs_verticals]. rewrite IH. cbn [abs_result List.length].
    rewrite length_app. cbn. lia.
Qed.

Lemma abs_cubics_length (b : bool) (nums : list Q) (st : AbsState) :
  List.length (abs_result (abs_cubics b nums st))
  = (List.length (abs_result st) + List.length nums / 6)%nat.
Proof.
  revert st. groups_induction nums; intro st;
    (destruct nums as [|n1 [|n2 [|n3 [|n4 [|n5 [|n6 rest]]]]]];
     try (cbn [abs_cubics List.length]; rewrite Nat.div_small by lia; lia));
    cbn [List.length] in Hle; try (exfalso; lia).
  cbn [abs_cubics]. rewrite IH by lia.
  cbn [abs_result List.length]. rewrite length_app.
  change (S (S (S (S (S (S (List.length rest)))))))
    with (6 + List.length rest)%nat.
  rewrite div_step by lia. cbn [List.length]. lia.
Qed.

Lemma abs_quadratics_length (b : bool) (nums : list Q) (st : AbsState) :
  List.length (abs_result (abs_quadratics b nums st))
  = (List.length (abs_result st) + List.length nums / 4)%nat.
Proof.
  revert st. groups_induction nums; intro st;
    (destruct nums as [|n1 [|n2 [|n3 [|n4 rest]]]];
     try (cbn [abs_quadratics List.length]; rewrite Nat.div_small by lia; lia));
    cbn [List.length] in Hle; try (exfalso; lia).
  cbn [abs_quadratics]. rewrite IH by lia.
  cbn [abs_result List.length]. rewrite length_app.
  change (S (S (S (S (List.length rest)))))
    with (4 + List.length rest)%nat.
  rewrite div_step by lia. cbn [List.length]. lia.
Qed.

Lemma abs_arcs_length (b : bool) (nums : list Q) (st : AbsState) :
  List.length (abs_result (abs_arcs b nums st))
  = (List.length (abs_result st) + List.length nums / 7)%nat.
Proof.
  revert st. groups_induction nums; intro st;
    (destruct nums as [|n1 [|n2 [|n3 [|n4 [|n5 [|n6 [|n7 rest]]]]]]];
     try (cbn [abs_arcs List.length]; rewrite Nat.div_small by lia; lia));
    cbn [List.length] in Hle; try (exfalso; lia).
  cbn [abs_arcs]. rewrite IH by lia.
  cbn [abs_result List.length]. rewrite length_app.
  change (S (S (S (S (S (S (S (List.length rest))))))))
    with (7 + List.length rest)%nat.
  rewrite div_step by lia. cbn [List.length]. lia.
Qed.

(** X7. A command with [n] numbers, of a letter that takes [k] numbers at
    a time, gives [n / k] absolute commands: the numbers are read [k] at a
    time and an incomplete last group is dropped (no error, no padding). *)
Theorem toAbsolute_drops_incomplete_groups (c : ascii) (nums : list Q) (k : nat) :
  command_arity (upper c) = Some k ->
  List.length (toAbsolute [(c, nums)]) = (List.length nums / k)%nat.
Proof.
  unfold command_arity, toAbsolute. cbn [fold_left]. unfold toAbsolute_step.
  destruct (Ascii.eqb (upper c) "M").
  { intro E. injection E as <-. cbn [abs_result]. apply abs_moves_length. }
  destruct (Ascii.eqb (upper c) "L").
  { intro E. injection E as <-. apply abs_lines_length. }
  destruct (Ascii.eqb (upper c) "H").
  { intro E. injection E as <-. apply abs_horizontals_length. }
  destruct (Ascii.eqb (upper c) "V").
  { intro E. injection E as <-. apply abs_verticals_length. }
  destruct (Ascii.eqb (upper c) "C").
  { intro E. injection E as <-. apply abs_cubics_length. }
  destruct (Ascii.eqb (upper c) "Q").
  { intro E. injection E as <-. apply abs_quadratics_length. }
  destruct (Ascii.eqb (upper c) "A").
  { intro E. injection E as <-. apply abs_arcs_length. }
  discriminate.
Qed.

Lemma toAbsolute_drops_incomplete_groups_witness :
  List.length (toAbsolute [("c"%char, [1; 2; 3; 4; 5; 6; 7; 8; 9; 10; 11])])
  = (11 / 6)%nat.
Proof.
  apply (toAbsolute_drops_incomplete_groups "c"%char
           [1; 2; 3; 4; 5; 6; 7; 8; 9; 10; 11] 6).
  reflexivity.
Defined.

(** ** Path data: the parser *)

Lemma append_to_last_nonempty (segs : list Segment) (val : Q) :
  segs <> [] ->
  exists segs', append_to_last segs val = Some segs' /\ map fst segs' = map fst segs.
Proof.
  induction segs as [|[c nums] rest IH]; intro Hne; [congruence|].
  destruct rest as [|sg rest'].
  - eexists. split; reflexivity.
  - destruct IH as (rest'' & E & Em); [discriminate|].
    cbn [append_to_last] in *. rewrite E.
    eexists. split; [reflexivity|]. cbn [map]. rewrite Em. reflexivity.
Qed.

Lemma parse_tokens_after_command (tokens : list string) (segs : list Segment)
    (fuel : nat) (w : World) :
  segs <> [] ->
  exists segs',
    for_each tokens parse_token segs fuel w = Ret segs' w
    /\ map fst segs' = map fst segs ++ commands_of tokens.
Proof.
  revert segs. induction tokens as [|t tokens IH]; intros segs Hne.
  - exists segs. split; [reflexivity|]. cbn. rewrite app_nil_r. reflexivity.
  - cbn [for_each]. unfold bind. unfold parse_token at 1. unfold commands_of.
    cbn [flat_map]. fold (commands_of tokens).
    destruct (is_cmd t) as [c|].
    + unfold ret. destruct (IH (segs ++ [(c, [])])) as (segs' & E & Em).
      { destruct segs; discriminate. }
      exists segs'. split; [exact E|]. rewrite Em, map_app, <- app_assoc. reflexivity.
    + destruct (float_of_string t) as [val|].
      * destruct (append_to_last_nonempty segs val Hne) as (segs1 & E1 & Em1).
        rewrite E1. unfold ret.
        destruct (IH segs1) as (segs' & E & Em).
        { intro Z. rewrite Z in Em1. destruct segs; [congruence|discriminate]. }
        exists segs'. split; [exact E|]. rewrite Em, Em1. reflexivity.
      * unfold ret. destruct (IH segs Hne) as (segs' & E & Em).
        exists segs'. split; [exact E|]. rewrite Em. reflexivity.
Qed.

(** X8. When the first token of the path data is a command letter,
    [parsePathCommands] returns, whatever follows (numbers, other
    commands, tokens that are neither): one segment for each command
    token, in their order. *)
Theorem parsePathCommands_command_first (d : string) (t : string) (rest : list string)
    (c : ascii) (fuel : nat) (w : World) :
  tokenize d = t :: rest -> is_cmd t = Some c ->
  exists segs,
    parsePathCommands d fuel w = Ret segs w
    /\ map fst segs = commands_of (tokenize d).
Proof.
  intros Et Ec. unfold parsePathCommands. rewrite Et.
  cbn [for_each]. unfold bind. unfold parse_token at 1. rewrite Ec. unfold ret.
  destruct (parse_tokens_after_command rest [(c, [])] fuel w) as (segs & E & Em);
    [discriminate|].
  exists segs. split; [exact E|]. rewrite Em.
  unfold commands_of. cbn [flat_map]. rewrite Ec. reflexivity.
Qed.

Lemma parsePathCommands_command_first_witness :
  exists segs,
    parsePathCommands "M 0 0 x L1,1z" 0%nat (fresh_world (fun _ => 0))
    = Ret segs (fresh_world (fun _ => 0))
    /\ map fst segs = commands_of (tokenize "M 0 0 x L1,1z").
Proof.
  apply (parsePathCommands_command_first "M 0 0 x L1,1z" "M"
           ["0"; "0"; "x"; "L"; "1"; "1"; "z"]%string "M"%char).
  - reflexivity.
  - reflexivity.
Defined.

(** ** The scan-line hachure *)

Lemma hachure_polygon_degenerate `{MathLib} (gap angle_rad : Q) (acc : list Line)
    (poly : list Point) :
  (List.length poly < 3)%nat -> hachure_polygon gap angle_rad acc poly = ret acc.
Proof.
  intro Hl. unfold hachure_polygon.
  destruct poly as [|p0 [|p1 [|p2 rest]]]; try reflexivity.
  cbn [List.length] in Hl. lia.
Qed.

(** X9. Polygons with fewer than three points are skipped: a list of
    such polygons (the empty list included) gets no hachure line, whatever
    the options, and no loop runs. *)
Theorem polygon_hachure_lines_degenerate `{MathLib} (polygonList : list (list Point))
    (o : Options) (fuel : nat) (w : World) :
  (forall poly, In poly polygonList -> (List.length poly < 3)%nat) ->
  polygon_hachure_lines polygonList o fuel w = Ret [] w.
Proof.
  intro Hall. unfold polygon_hachure_lines. cbv zeta.
  induction polygonList as [|poly polys IH]; [reflexivity|].
  cbn [for_each]. unfold bind.
  rewrite hachure_polygon_degenerate by (apply Hall; left; reflexivity).
  unfold ret. apply IH. intros q Hq. apply Hall. right. exact Hq.
Qed.

Lemma polygon_hachure_lines_degenerate_witness :
  polygon_hachure_lines (H := RationalMath) [[(0, 0); (10, 10)]; []]
    ResolvedOptions_fields 0%nat (fresh_world (fun _ => 0))
  = Ret [] (fresh_world (fun _ => 0)).
Proof.
  apply (polygon_hachure_lines_degenerate (H := RationalMath)).
  intros poly [<-|[<-|[]]]; cbn; lia.
Defined.

Lemma Qabs_lt_iff (x y : Q) : Qabs x < y <-> - y < x /\ x < y.
Proof.
  split.
  - intro Hx. pose proof (Qle_Qabs x) as U. pose proof (Qle_Qabs (- x)) as L.
    rewrite Qabs_opp in L. split; lra.
  - intros [L U]. apply Qabs_case; intro; lra.
Qed.

Lemma Qmin_cases (a b : Q) : (a <= b /\ Qmin a b = a) \/ (b < a /\ Qmin a b = b).
Proof.
  unfold Qmin. destruct (Qltb b a) eqn:E.
  - right. apply Qltb_lt in E. auto.
  - left. apply Qltb_ge in E. auto.
Qed.

Lemma Qmax_cases (a b : Q) : (a < b /\ Qmax a b = b) \/ (b <= a /\ Qmax a b = a).
Proof.
  unfold Qmax. destruct (Qltb a b) eqn:E.
  - left. apply Qltb_lt in E. auto.
  - right. apply Qltb_ge in E. auto.
Qed.

(** X10. An edge that passes the test of [_edge_intersects_scanline] has
    a crossing: [_xIntersect] returns a number (the [None] it has for flat
    edges is never seen), and the crossing is a point of the edge, within
    the range of abscissas of its two ends. *)
Theorem crossing_is_on_the_edge (p1 p2 : Point) (y : Q) :
  _edge_intersects_scanline p1 p2 y = true ->
  exists x, _xIntersect p1 p2 y = Some x /\ on_edge (p1, p2) (x, y).
Proof.
  destruct p1 as [x1 y1], p2 as [x2 y2].
  unfold _edge_intersects_scanline, _xIntersect, on_edge. cbn [fst snd].
  destruct (Qltb (Qabs (y1 - y2)) (1 # 100000000000000)
            && Qltb (Qabs (y1 - y)) (1 # 100000000000000)) eqn:Flat; [discriminate|].
  destruct (Qleb y (Qmin y1 y2) || Qleb (Qmax y1 y2) y) eqn:Out; [discriminate|].
  intros _. apply orb_false_iff in Out. destruct Out as [Lo Hi].
  apply Qleb_gt in Lo. apply Qleb_gt in Hi.
  assert (Steep : Qltb (Qabs (y2 - y1)) (1 # 100000000000000) = false).
  { apply Qltb_ge. apply andb_false_iff in Flat. destruct Flat as [F|F].
    - apply Qltb_ge in F. setoid_replace (y2 - y1) with (- (y1 - y2)) by ring.
      rewrite Qabs_opp. exact F.
    - apply Qltb_ge in F.
      destruct (Qlt_le_dec (Qabs (y2 - y1)) (1 # 100000000000000)) as [S|S]; [|exact S].
      exfalso. apply Qabs_lt_iff in S.
      assert (B : Qabs (y1 - y) < 1 # 100000000000000).
      { apply Qabs_lt_iff.
        destruct (Qmin_cases y1 y2) as [[? Em]|[? Em]]; rewrite Em in Lo;
          destruct (Qmax_cases y1 y2) as [[? Ex]|[? Ex]]; rewrite Ex in Hi; lra. }
      lra. }
  rewrite Steep. eexists. split; [reflexivity|]. cbn [fst snd].
  assert (Dy : ~ y2 - y1 == 0).
  { destruct (Qmin_cases y1 y2) as [[? Em]|[? Em]]; rewrite Em in Lo;
      destruct (Qmax_cases y1 y2) as [[? Ex]|[? Ex]]; rewrite Ex in Hi; lra. }
  set (t := (y - y1) / (y2 - y1)).
  assert (Et : t * (y2 - y1) == y - y1) by (unfold t; field; exact Dy).
  assert (Bt : 0 <= t /\ t <= 1).
  { destruct (Qmin_cases y1 y2) as [[? Em]|[? Em]]; rewrite Em in Lo;
      destruct (Qmax_cases y1 y2) as [[? Ex]|[? Ex]]; rewrite Ex in Hi;
      try lra; split; nra. }
  split; [exact Lo|]. split; [exact Hi|]. split.
  - setoid_replace (x1 + t * (x2 - x1) - x1) with (t * (x2 - x1)) by ring.
    rewrite <- Et. ring.
  - destruct Bt as [T0 T1].
    destruct (Qmin_cases x1 x2) as [[? Em]|[? Em]]; rewrite Em;
      destruct (Qmax_cases x1 x2) as [[? Ex]|[? Ex]]; rewrite Ex; split; nra.
Qed.

Lemma crossing_is_on_the_edge_witness :
  exists x, _xIntersect (0, 0) (10, 5) 2 = Some x /\ on_edge ((0, 0), (10, 5)) (x, 2).
Proof. apply (crossing_is_on_the_edge (0, 0) (10, 5) 2). reflexivity. Defined.

Lemma while_loop_preserves {St} (cond : St -> bool) (body : St -> M St)
    (Inv : St -> Prop) :
  (forall s fuel w s' w',
     Inv s -> cond s = true -> body s fuel w = Ret s' w' -> Inv s') ->
  forall n s fuel w s' w',
    Inv s -> while_loop cond body n s fuel w = Ret s' w' -> Inv s'.
Proof.
  intros Hb n. induction n as [|n IH]; intros s fuel w s' w' Hs; cbn [while_loop];
    destruct (cond s) eqn:C; unfold ret; try discriminate;
    try (intro E; injection E as <- _; exact Hs).
  unfold bind. destruct (body s fuel w) as [s1 w1| |] eqn:B; try discriminate.
  apply IH. apply (Hb s fuel w s1 w1 Hs C B).
Qed.

Lemma for_each_preserves {A St} (body : St -> A -> M St) (Inv : list A -> St -> Prop) :
  (forall done x s fuel w s' w',
     Inv done s -> body s x fuel w = Ret s' w' -> Inv (done ++ [x]) s') ->
  forall xs done s fuel w s' w',
    Inv done s -> for_each xs body s fuel w = Ret s' w' -> Inv (done ++ xs) s'.
Proof.
  intros Hb xs. induction xs as [|x xs IH]; intros done s fuel w s' w' Hs; cbn [for_each].
  - unfold ret. intro E. injection E as <- _. rewrite app_nil_r. exact Hs.
  - unfold bind. destruct (body s x fuel w) as [s1 w1| |] eqn:B; try discriminate.
    intro E. replace (done ++ x :: xs) with ((done ++ [x]) ++ xs)
      by (rewrite <- app_assoc; reflexivity).
    apply (IH _ s1 fuel w1 s' w'); [|exact E]. apply (Hb done x s fuel w s1 w1 Hs B).
Qed.

Lemma insert_crossing_In (c x : Q * Z) (l : list (Q * Z)) :
  In x (insert_crossing c l) -> x = c \/ In x l.
Proof.
  induction l as [|d l IH]; cbn [insert_crossing].
  - intros [E|[]]. left. symmetry. exact E.
  - destruct (Qltb (fst c) (fst d)).
    + intros [E|I]; [left; symmetry; exact E|right; exact I].
    + intros [E|I]; [right; left; exact E|].
      destruct (IH I) as [E|I']; [left; exact E|right; right; exact I'].
Qed.

Lemma sort_crossings_In (x : Q * Z) (l : list (Q * Z)) :
  In x (sort_crossings l) -> In x l.
Proof.
  unfold sort_crossings.
  assert (G : forall acc, In x (fold_left (fun acc c => insert_crossing c acc) l acc) ->
                          In x l \/ In x acc).
  { induction l as [|c l IH]; intros acc; cbn [fold_left].
    - auto.
    - intro I. destruct (IH _ I) as [I'|I'].
      + left. right. exact I'.
      + destruct (insert_crossing_In _ _ _ I') as [E|I'']; [left; left; symmetry; exact E|].
        right. exact I''. }
  intro I. destruct (G [] I) as [I'|[]]. exact I'.
Qed.

Lemma crossing_on_outline (rpoly : list Point) (y x : Q) (s : Z) :
  In (x, s) (_horizontalIntersectionsNonZero rpoly y) -> on_outline rpoly (x, y).
Proof.
  unfold _horizontalIntersectionsNonZero. intro I. apply sort_crossings_In in I.
  apply in_flat_map in I. destruct I as ([p1 p2] & Ie & I).
  destruct (_edge_intersects_scanline p1 p2 y) eqn:T; [|destruct I].
  destruct (crossing_is_on_the_edge p1 p2 y T) as (x' & Ex & On).
  rewrite Ex in I. destruct I as [E|[]]. injection E as <- _.
  exists (p1, p2). split; assumption.
Qed.

Lemma winding_spans_In (cr : list (Q * Z)) (rw : Z) (prev : option Q) (a b : Q) :
  In (a, b) (winding_spans cr rw prev) ->
  a < b /\ (In a (map fst cr) \/ prev = Some a) /\ In b (map fst cr).
Proof.
  revert rw prev. induction cr as [|[cx dW] cr IH]; intros rw prev; cbn [winding_spans].
  - intros [].
  - intro I. apply in_app_or in I. destruct I as [I|I].
    + destruct prev as [px|]; [|destruct I].
      destruct (negb (rw =? 0)%Z && Qltb px cx) eqn:C; [|destruct I].
      destruct I as [E|[]]. injection E as <- <-.
      apply andb_true_iff in C. destruct C as [_ C]. apply Qltb_lt in C.
      split; [exact C|]. split; [right; reflexivity|left; reflexivity].
    + destruct (IH _ _ I) as (L & [Ia|Ea] & Ib).
      * split; [exact L|]. split; [left; right; exact Ia|right; exact Ib].
      * injection Ea as <-.
        split; [exact L|]. split; [left; left; reflexivity|right; exact Ib].
Qed.

Lemma scan_line_chords `{MathLib} (rpoly : list Point) (angle_rad y : Q) (ln : Line) :
  In ln (scan_line rpoly angle_rad y) ->
  exists a b,
    ln = (_rotatePoint (a, y) angle_rad, _rotatePoint (b, y) angle_rad)
    /\ a < b /\ on_outline rpoly (a, y) /\ on_outline rpoly (b, y).
Proof.
  unfold scan_line. intro I. apply in_map_iff in I. destruct I as ([a b] & <- & I).
  apply winding_spans_In in I. destruct I as (L & [Ia|Ea] & Ib); [|discriminate].
  apply in_map_iff in Ia. destruct Ia as ([a' sa] & Ea & Ia). cbn [fst] in Ea. subst a'.
  apply in_map_iff in Ib. destruct Ib as ([b' sb] & Eb & Ib). cbn [fst] in Eb. subst b'.
  exists a, b. split; [reflexivity|]. split; [exact L|].
  split; eapply crossing_on_outline; eassumption.
Qed.

Lemma hachure_polygon_chords `{MathLib} (gap angle_rad : Q) (acc : list Line)
    (poly : list Point) (fuel : nat) (w : World) (lines : list Line) (w' : World) :
  hachure_polygon gap angle_rad acc poly fuel w = Ret lines w' ->
  forall ln, In ln lines -> In ln acc \/ hachure_chord angle_rad poly ln.
Proof.
  unfold hachure_polygon, hachure_chord. cbv zeta.
  set (rpoly := map (fun p => _rotatePoint p (- angle_rad)) poly).
  destruct rpoly as [|p0 [|p1 [|p2 rest]]] eqn:Er;
    try (unfold ret; intro E; injection E as <- _; intros ln I; left; exact I).
  unfold bind.
  match goal with
  | |- context [while ?cnd ?bdy ?s0 fuel w] =>
      destruct (while cnd bdy s0 fuel w) as [[y1 lines1] w1| |] eqn:W; try discriminate;
      pose proof (while_loop_preserves cnd bdy
                    (fun st => forall ln, In ln (snd st) ->
                       In ln acc \/
                       exists y a b,
                         ln = (_rotatePoint (a, y) angle_rad, _rotatePoint (b, y) angle_rad)
                         /\ a < b
                         /\ on_outline (p0 :: p1 :: p2 :: rest) (a, y)
                         /\ on_outline (p0 :: p1 :: p2 :: rest) (b, y))) as P
  end.
  unfold ret. intro E. injection E as <- _.
  unfold while in W.
  refine (P _ fuel _ fuel w (y1, lines1) w1 _ W).
  - intros [y a] f w0 [y' a'] w0' Inv _ B. unfold ret in B. injection B as <- <- _.
    cbn [snd] in *. intros ln I. apply in_app_or in I. destruct I as [I|I].
    + apply Inv. exact I.
    + right. exists y. apply scan_line_chords. exact I.
  - cbn [snd]. intros ln I. left. exact I.
Qed.

(** X11. Every hachure line is a chord of one of the polygons: in the
    frame turned by the hachure angle it is horizontal, goes from left to
    right, and its two ends are points of edges of the polygon (so no line
    leaves the polygon's bounding box). *)
Theorem hachure_lines_are_chords `{MathLib} (polygonList : list (list Point))
    (o : Options) (fuel : nat) (w : World) (lines : list Line) (w' : World) :
  polygon_hachure_lines polygonList o fuel w = Ret lines w' ->
  forall ln, In ln lines ->
    exists poly, In poly polygonList /\ hachure_chord (hachure_angle_rad o) poly ln.
Proof.
  unfold polygon_hachure_lines. cbv zeta. fold (hachure_angle_rad o). intro E.
  pose proof (for_each_preserves (hachure_polygon (hachure_gap o) (hachure_angle_rad o))
                (fun done lines0 => forall ln, In ln lines0 ->
                   exists poly, In poly done /\ hachure_chord (hachure_angle_rad o) poly ln))
    as P.
  refine (P _ polygonList [] [] fuel w lines w' _ E).
  - intros done poly acc f w0 acc' w0' Inv B ln I.
    destruct (hachure_polygon_chords _ _ _ _ _ _ _ _ B ln I) as [Ia|C].
    + destruct (Inv ln Ia) as (q & Iq & Cq). exists q. split; [|exact Cq].
      apply in_or_app. left. exact Iq.
    + exists poly. split; [|exact C]. apply in_or_app. right. left. reflexivity.
  - intros ln [].
Qed.

Lemma hachure_lines_are_chords_witness :
  exists lines,
    polygon_hachure_lines (H := RationalMath) [mid_vertex_triangle] (flat_hachure 6)
      10%nat (fresh_world (fun _ => 0)) = Ret lines (fresh_world (fun _ => 0))
    /\ lines <> []
    /\ forall ln, In ln lines ->
         exists poly, In poly [mid_vertex_triangle]
           /\ hachure_chord (H := RationalMath)
                (hachure_angle_rad (H := RationalMath) (flat_hachure 6)) poly ln.
Proof.
  eexists. split; [vm_compute; reflexivity|]. split; [discriminate|].
  apply (hachure_lines_are_chords (H := RationalMath) [mid_vertex_triangle]
           (flat_hachure 6) 10%nat (fresh_world (fun _ => 0)) _ (fresh_world (fun _ => 0))).
  vm_compute. reflexivity.
Defined.

(** ** Straight strokes: how many operations *)

Section StrokeCount.
Context `{MathLib}.
Variable o : ResolvedOptions.



Lemma strokes_length (single : bool) (edges : list (Point * Point)) :
  List.length (strokes single edges)
  = ((if single then 1 else 2) * List.length edges)%nat.
Proof.
  unfold strokes. destruct single; [lia|].
  induction edges as [|e edges IH]; cbn [flat_map List.length app] in *; lia.
Qed.





End StrokeCount.

(** ** Ellipses: the step count *)

Lemma visibility_checks_curveStepCount (m : Options) :
  curveStepCount (visibility_checks m) = curveStepCount m.
Proof.
  rewrite visibility_checks_closed. destruct m. reflexivity.
Qed.

Lemma Qtrunc_zero (x : Q) : x == 0 -> Qtrunc x = 0%Z.
Proof.
  intro E. unfold Qtrunc.
  assert (F : Qltb x 0 = false) by (apply Qltb_ge; rewrite E; apply Qle_refl).
  rewrite F. rewrite (Qfloor_comp _ _ E). reflexivity.
Qed.

Lemma generateEllipseParams_zero_steps `{MathLib} (width height : Q)
    (o : ResolvedOptions) (fuel : nat) (w : World) :
  curveStepCount o = Some 0%Z ->
  generateEllipseParams width height o fuel w = Raise ZeroDivisionError.
Proof.
  intro E. unfold generateEllipseParams. cbv zeta. rewrite E. cbn [or_default].
  rewrite Qtrunc_zero.
  - reflexivity.
  - unfold Qdiv. change (inject_Z 0) with 0. ring.
Qed.

(** X13. With [curveStepCount=0] in the options of the call, [ellipse]
    and [circle] raise [ZeroDivisionError]: the step count of the outline
    is 0 and the angle increment divides by it. *)
Theorem ellipse_with_zero_steps_raises `{MathLib} (self : RoughGenerator)
    (x y width height : Q) (local : Options) (fuel : nat) (w : World) :
  curveStepCount local = Some 0%Z ->
  gen_ellipse self x y width height (Some local) fuel w = Raise ZeroDivisionError
  /\ gen_circle self x y width (Some local) fuel w = Raise ZeroDivisionError.
Proof.
  intro E.
  assert (G : forall h, gen_ellipse self x y width h (Some local) fuel w
                        = Raise ZeroDivisionError).
  { intro h. unfold gen_ellipse. unfold bind at 1.
    destruct (_o_returns self (Some local) fuel w) as (i & w' & Eo). rewrite Eo.
    unfold bind at 1. rewrite generateEllipseParams_zero_steps; [reflexivity|].
    cbn [fields]. rewrite visibility_checks_curveStepCount.
    unfold merged_options. cbn [merge_options curveStepCount]. rewrite E. reflexivity. }
  split; [apply G|]. unfold gen_circle, bind. rewrite G. reflexivity.
Qed.

Lemma ellipse_with_zero_steps_raises_witness :
  gen_ellipse (H := RationalMath) default_generator 0 0 10 10
    (Some (mkOptions None None None None None None None (Some 0%Z) None None None
                     None None None None None 0%Z None None None None))
    0%nat (fresh_world (fun _ => 0)) = Raise ZeroDivisionError
  /\ gen_circle (H := RationalMath) default_generator 0 0 10
       (Some (mkOptions None None None None None None None (Some 0%Z) None None None
                        None None None None None 0%Z None None None None))
       0%nat (fresh_world (fun _ => 0)) = Raise ZeroDivisionError.
Proof.
  apply (ellipse_with_zero_steps_raises (H := RationalMath)). reflexivity.
Defined.

(** ** Paths drawn with a single stroke *)

Lemma world_free_ret {A} (a : A) : world_free (ret a) (ret a).
Proof. intros fuel w1 w2. cbn. auto. Qed.

Lemma world_free_raise {A} (e : exn) : world_free (@raise A e) (raise e).
Proof. intros fuel w1 w2. reflexivity. Qed.

Lemma world_free_bind {A B} (m1 m2 : M A) (k1 k2 : A -> M B) :
  world_free m1 m2 -> (forall a, world_free (k1 a) (k2 a)) ->
  world_free (bind m1 k1) (bind m2 k2).
Proof.
  intros Hm Hk fuel w1 w2. unfold bind. specialize (Hm fuel w1 w2).
  destruct (m1 fuel w1) as [a w1'| |], (m2 fuel w2) as [b w2'| |]; try contradiction; auto.
  destruct Hm as (<- & -> & ->). apply Hk.
Qed.

Lemma world_free_if {A} (b : bool) (m1 m2 n1 n2 : M A) :
  world_free m1 n1 -> world_free m2 n2 ->
  world_free (if b then m1 else m2) (if b then n1 else n2).
Proof. destruct b; auto. Qed.

Lemma world_free_pydiv (a b : Q) : world_free (pydiv a b) (pydiv a b).
Proof.
  unfold pydiv. destruct (Qeqb b 0); [apply world_free_raise|apply world_free_ret].
Qed.

Lemma world_free_for_each {A St} (body1 body2 : St -> A -> M St) (xs : list A) :
  (forall s x, world_free (body1 s x) (body2 s x)) ->
  forall s, world_free (for_each xs body1 s) (for_each xs body2 s).
Proof.
  intro Hb. induction xs as [|x xs IH]; intro s; cbn [for_each].
  - apply world_free_ret.
  - apply world_free_bind; [apply Hb|]. intro s'. apply IH.
Qed.

Ltac world_free_step :=
  cbv beta zeta;
  match goal with
  | |- world_free (ret _) (ret _) => apply world_free_ret
  | |- world_free (raise _) (raise _) => apply world_free_raise
  | |- world_free (pydiv _ _) (pydiv _ _) => apply world_free_pydiv
  | |- world_free (bind _ _) (bind _ _) => apply world_free_bind; [|intro]
  | |- world_free (for_each _ _ _) (for_each _ _ _) => apply world_free_for_each; intros
  | |- world_free (if _ then _ else _) (if _ then _ else _) => apply world_free_if
  | |- world_free (match ?x with _ => _ end) (match ?x with _ => _ end) => destruct x
  | |- world_free _ _ => solve [auto]
  end.

Ltac world_free_auto := repeat world_free_step.

Section SingleStroke.
Context `{MathLib}.

Lemma world_free_parsePathCommands (d : string) :
  world_free (parsePathCommands d) (parsePathCommands d).
Proof. unfold parsePathCommands, parse_token. world_free_auto. Qed.

Lemma world_free_ellipticalArcToBezier (x1 y1 x2 y2 rx0 ry0 phi fa fs : Q) :
  world_free (ellipticalArcToBezier x1 y1 x2 y2 rx0 ry0 phi fa fs)
             (ellipticalArcToBezier x1 y1 x2 y2 rx0 ry0 phi fa fs).
Proof. unfold ellipticalArcToBezier. world_free_auto. Qed.

Lemma world_free_singleArc (cur : Point) (rx ry xrot laf swf ex ey : Q) :
  world_free (singleArc cur rx ry xrot laf swf ex ey)
             (singleArc cur rx ry xrot laf swf ex ey).
Proof.
  unfold singleArc.
  apply world_free_bind; [apply world_free_ellipticalArcToBezier|].
  intro beziers. apply world_free_ret.
Qed.

Lemma world_free_svgPath_step (o o' : ResolvedOptions) (st : PathState)
    (seg : AbsSegment) :
  truthy (disableMultiStroke o) = true -> truthy (disableMultiStroke o') = true ->
  world_free (svgPath_step o st seg) (svgPath_step o' st seg).
Proof.
  intros S S'. unfold svgPath_step. cbv zeta. rewrite S, S'.
  pose proof world_free_singleArc.
  destruct seg; world_free_auto.
Qed.

Lemma world_free_svgPath (path : string) (o o' : ResolvedOptions) :
  truthy (disableMultiStroke o) = true -> truthy (disableMultiStroke o') = true ->
  world_free (svgPath path o) (svgPath path o').
Proof.
  intros S S'. unfold svgPath. cbv zeta.
  pose proof world_free_parsePathCommands.
  pose proof (fun st seg => world_free_svgPath_step o o' st seg S S').
  world_free_auto.
Qed.

(** X14. With [disableMultiStroke] set, [svgPath] does not sketch: it
    never draws from the random source and reads no other option, so the
    operations depend on the path data alone (the same for every seed and
    roughness), and the world is left as it was. *)
Theorem svgPath_single_stroke_is_exact (path : string) (o o' : ResolvedOptions)
    (fuel : nat) (w w' : World) :
  truthy (disableMultiStroke o) = true -> truthy (disableMultiStroke o') = true ->
  same_run w w' (svgPath path o fuel w) (svgPath path o' fuel w').
Proof.
  intros S S'. apply (world_free_svgPath path o o' S S').
Qed.

End SingleStroke.

Lemma svgPath_single_stroke_is_exact_witness :
  same_run (fresh_world (fun _ => 0)) (fresh_world (fun _ => 1 # 2))
    (svgPath (H := RationalMath) "M 0 0 L 10 0 Q 15 5 10 10 Z" (single_stroke_defaults 1)
       0%nat (fresh_world (fun _ => 0)))
    (svgPath (H := RationalMath) "M 0 0 L 10 0 Q 15 5 10 10 Z"
       (mkResolved (set_roughness (Some 3) (single_stroke_defaults 7)) 0)
       0%nat (fresh_world (fun _ => 1 # 2))).
Proof.
  apply (svgPath_single_stroke_is_exact (H := RationalMath)); reflexivity.
Defined.

(** The lines of such a path are plain [lineTo] operations to the
    coordinates of the path data. *)
Example single_stroke_lines_are_straight :
  svgPath (H := RationalMath) "M 0 0 L 10 0 V 5 Z" (single_stroke_defaults 1)
    0%nat (fresh_world (fun _ => 0))
  = Ret (mkOpSet pathSet
           [mkOp move [0; 0]; mkOp lineTo [10; 0]; mkOp lineTo [10; 5];
            mkOp lineTo [0; 0]])
        (fresh_world (fun _ => 0)).
Proof. vm_compute. reflexivity. Qed.

(** ** Two generations with one seed *)

(** A computation that leaves the world alone is the same in both
    processes. *)
Lemma det_world_free {A} (m : M A) : world_free m m -> det anything m.
Proof.
  intros F fuel w1 w2 S. specialize (F fuel w1 w2). unfold same_run in F.
  destruct (m fuel w1), (m fuel w2); try exact F.
  destruct F as (E & -> & ->). split; [exact E|]. split; [exact I|exact S].
Qed.

Lemma det_svgPath_single `{MathLib} (path : string) (o : ResolvedOptions) :
  truthy (disableMultiStroke o) = true -> det anything (svgPath path o).
Proof. intro S. apply det_world_free, world_free_svgPath; exact S. Qed.

(** [disableMultiStroke] is set: known of the resolved options, or of a
    copy that sets it. *)
Ltac single_stroke_solve :=
  first [options_solve
        |repeat match goal with
                | E : disableMultiStroke _ = _ |- _ => rewrite E
                end;
         reflexivity].

#[local] Hint Resolve det_svgPath_single : det.
#[local] Hint Extern 2 (truthy _ = true) => single_stroke_solve : det.

(** The drawing methods, for options that resolve to a live seed (for a
    curve drawn with multi-stroke, to a live next seed too) and whose
    shape the dot filler does not fill. *)
Section DetShapes.
Context `{MathLib}.
Variables (self : RoughGenerator) (options_ : option Options).

Let resolved : Options := visibility_checks (merged_options self options_).

Lemma det_gen_line x1 y1 x2 y2 :
  live_seed (seed resolved) -> det anything (gen_line self x1 y1 x2 y2 options_).
Proof. intro L. unfold gen_line. det_auto. Qed.

Lemma det_gen_rectangle x y width height :
  live_seed (seed resolved) ->
  dot_filled (ReqRectangle x y width height) resolved = false ->
  det anything (gen_rectangle self x y width height options_).
Proof.
  intros L D. apply andb_false_iff in D.
  destruct D as [D|D]; unfold gen_rectangle; det_auto.
Qed.

Lemma det_gen_ellipse x y width height :
  live_seed (seed resolved) ->
  dot_filled (ReqEllipse x y width height) resolved = false ->
  det anything (gen_ellipse self x y width height options_).
Proof.
  intros L D. apply andb_false_iff in D.
  destruct D as [D|D]; unfold gen_ellipse; det_auto.
Qed.

Lemma det_gen_circle x y diameter :
  live_seed (seed resolved) ->
  dot_filled (ReqCircle x y diameter) resolved = false ->
  det anything (gen_circle self x y diameter options_).
Proof.
  intros L D. unfold gen_circle. eapply det_bind; [apply det_gen_ellipse; [exact L|exact D]|].
  intros d _. apply det_ret. exact I.
Qed.

Lemma det_gen_linearPath points :
  live_seed (seed resolved) -> det anything (gen_linearPath self points options_).
Proof. intro L. unfold gen_linearPath. det_auto. Qed.

Lemma det_gen_arc x y width height start stop closed :
  live_seed (seed resolved) ->
  dot_filled (ReqArc x y width height start stop closed) resolved = false ->
  det anything (gen_arc self x y width height start stop closed options_).
Proof.
  intros L D. apply andb_false_iff in D.
  destruct D as [D|D]; unfold gen_arc; det_auto.
Qed.

Lemma det_gen_curve points :
  live_seed (seed resolved) ->
  (truthy (disableMultiStroke resolved) = false -> live_seed (seed resolved + 1)) ->
  dot_filled (ReqCurve points) resolved = false ->
  det anything (gen_curve self points options_).
Proof.
  intros L L' D. apply andb_false_iff in D.
  destruct D as [D|D]; unfold gen_curve; det_auto.
Qed.

Lemma det_gen_polygon points :
  live_seed (seed resolved) ->
  dot_filled (ReqPolygon points) resolved = false ->
  det anything (gen_polygon self points options_).
Proof.
  intros L D. apply andb_false_iff in D.
  destruct D as [D|D]; unfold gen_polygon; det_auto.
Qed.

Lemma det_approxPathSingle d (o : ResolvedOptions) :
  live_seed (seed o) -> det anything (_approxPathSingle d o).
Proof. intro L. unfold _approxPathSingle. det_auto. Qed.

#[local] Hint Resolve det_approxPathSingle : det.

(** A path drawn with a single stroke and without a pattern fill draws
    no random number; otherwise it draws from the seed. *)
Lemma det_gen_path d :
  Forall live_seed (seeds_drawn (ReqPath d) resolved) ->
  dot_filled (ReqPath d) resolved = false ->
  det anything (gen_path self d options_).
Proof.
  intros L D. cbn [seeds_drawn] in L.
  destruct (truthy (disableMultiStroke resolved)) eqn:S; cbn [andb] in L.
  - destruct (nonempty (fill resolved) && negb (opt_is (fill resolved) "none")
              && negb (opt_is (fill resolved) "transparent")) eqn:F; cbn [andb negb] in L.
    + destruct (opt_is (fillStyle resolved) "solid") eqn:So; cbn [negb] in L.
      * clear L D. unfold gen_path. det_auto.
      * apply Forall_inv in L. apply andb_false_iff in D.
        destruct D as [D|D]; unfold gen_path; det_auto.
    + clear L D. unfold gen_path. det_auto.
  - apply Forall_inv in L. apply andb_false_iff in D.
    destruct D as [D|D]; unfold gen_path; det_auto.
Qed.

Lemma det_draw req :
  Forall live_seed (seeds_drawn req resolved) -> dot_filled req resolved = false ->
  det anything (draw self req options_).
Proof.
  intros L D. destruct req; cbn [draw];
    try (pose proof (Forall_inv L) as L0;
         auto using det_gen_line, det_gen_rectangle, det_gen_ellipse, det_gen_circle,
           det_gen_linearPath, det_gen_arc, det_gen_polygon; fail).
  - cbn [seeds_drawn] in L. apply det_gen_curve; [| |exact D].
    + destruct (truthy (disableMultiStroke resolved)); exact (Forall_inv L).
    + intro E. rewrite E in L. exact (Forall_inv (Forall_inv_tail L)).
  - apply det_gen_path; assumption.
Qed.

End DetShapes.

Lemma det_generate `{MathLib} (config_options : option Options) (req : ShapeRequest)
    (options_ : option Options) :
  Forall live_seed (seeds_drawn req (resolved_options config_options options_)) ->
  dot_filled req (resolved_options config_options options_) = false ->
  det anything (generate config_options req options_).
Proof.
  intros L D. unfold generate.
  eapply det_bind; [apply det_RoughGenerator_init|].
  intros g Hg. cbv beta in Hg.
  assert (E : visibility_checks (merged_options g options_)
              = resolved_options config_options options_).
  { unfold resolved_options, merged_options. cbn [defaultOptions fields].
    rewrite Hg. reflexivity. }
  apply det_draw; rewrite E; [exact L|exact D].
Qed.

Lemma fresh_worlds_agree (e1 e2 : nat -> Q) : seeded_agree (fresh_world e1) (fresh_world e2).
Proof.
  constructor; cbn [fresh_world rands randgen]; auto.
  intros [|i] r E; discriminate E.
Qed.

(** C1, for the seeds that are seeded: two independent generations of
    the same request (a new generator each, the same configuration and
    options), in processes whose unseeded sources may differ, return the
    same drawable (the same operation sequences), raise the same
    exception, or both run out of budget, for every fill style, provided
    the resolved seed S is not a multiple of [2^31 - 1] (nor S + 1, for a
    curve drawn with multi-stroke; any seed will do for a path drawn with
    a single stroke and no pattern fill) and the dot filler does not fill
    the shape. *)
Theorem seeded_generation_deterministic `{MathLib}
    (config_options : option Options) (req : ShapeRequest) (options_ : option Options)
    (fuel : nat) (e1 e2 : nat -> Q) :
  Forall live_seed (seeds_drawn req (resolved_options config_options options_)) ->
  dot_filled req (resolved_options config_options options_) = false ->
  same_outcome (generate config_options req options_ fuel (fresh_world e1))
               (generate config_options req options_ fuel (fresh_world e2)).
Proof.
  intros L D.
  pose proof (det_generate config_options req options_ L D fuel
                (fresh_world e1) (fresh_world e2) (fresh_worlds_agree e1 e2)) as G.
  unfold same_outcome.
  destruct (generate config_options req options_ fuel (fresh_world e1)),
           (generate config_options req options_ fuel (fresh_world e2)); try exact G.
  destruct G as [E _]. exact E.
Qed.

Lemma seeded_generation_deterministic_witness :
  same_outcome
    (generate (H := RationalMath) None (ReqRectangle 0 0 10 10)
       (Some (set_fill (Some "red"%string) (with_seed 1 Options_init)))
       100%nat (fresh_world (fun _ => 1 # 4)))
    (generate (H := RationalMath) None (ReqRectangle 0 0 10 10)
       (Some (set_fill (Some "red"%string) (with_seed 1 Options_init)))
       100%nat (fresh_world (fun _ => 3 # 4))).
Proof.
  apply (seeded_generation_deterministic (H := RationalMath) None (ReqRectangle 0 0 10 10)
           (Some (set_fill (Some "red"%string) (with_seed 1 Options_init)))
           100%nat (fun _ => 1 # 4) (fun _ => 3 # 4)).
  - constructor; [|constructor]. intro E. vm_compute in E. discriminate E.
  - reflexivity.
Defined.

(** A seeded generation does return a drawable: the two passes of a line. *)
Example seeded_line_is_drawn :
  exists o outline w',
    generate (H := RationalMath) None (ReqLine 0 0 10 0)
      (Some (with_seed 1 Options_init)) 0%nat (fresh_world (fun _ => 1 # 4))
    = Ret (mkDrawable "line" o [mkOpSet pathSet outline]) w'
    /\ List.length outline = 4%nat.
Proof. eexists _, _, _. split; vm_compute; reflexivity. Qed.

(** With the default seed 0 the generator's state is 0 and every draw
    falls back to the process-wide source: two generations of the same
    line differ. *)
Lemma seed_zero_generation_differs :
  ~ same_outcome
      (generate (H := RationalMath) None (ReqLine 0 0 10 0) None
         0%nat (fresh_world (fun _ => 1 # 4)))
      (generate (H := RationalMath) None (ReqLine 0 0 10 0) None
         0%nat (fresh_world (fun _ => 3 # 4))).
Proof. vm_compute. intro E. discriminate E. Qed.

(** A path drawn with a single stroke draws no random number: it is
    the same in both processes even with the seed 0. *)
Example single_stroke_path_is_reproducible :
  same_outcome
    (generate (H := RationalMath) None (ReqPath "M 0 0 L 10 0 L 10 10")
       (Some (set_disableMultiStroke (Some true) Options_init))
       0%nat (fresh_world (fun _ => 1 # 4)))
    (generate (H := RationalMath) None (ReqPath "M 0 0 L 10 0 L 10 10")
       (Some (set_disableMultiStroke (Some true) Options_init))
       0%nat (fresh_world (fun _ => 3 # 4))).
Proof. vm_compute. reflexivity. Qed.

(** So it is with every multiple of [2^31 - 1]: the first draw leaves the
    state 0. *)
Example dead_seed_generation_differs :
  ~ same_outcome
      (generate (H := RationalMath) None (ReqLine 0 0 10 0)
         (Some (with_seed 2147483647 Options_init)) 0%nat (fresh_world (fun _ => 1 # 4)))
      (generate (H := RationalMath) None (ReqLine 0 0 10 0)
         (Some (with_seed 2147483647 Options_init)) 0%nat (fresh_world (fun _ => 3 # 4))).
Proof. vm_compute. intro E. discriminate E. Qed.

(** The second pass of a curve draws from the seed S + 1: with S = -1 it
    falls back to the process-wide source, whereas a line drawn with the
    seed -1 is the same in both processes. *)
Example curve_second_pass_differs :
  ~ same_outcome
      (generate (H := RationalMath) None (ReqCurve (CurvePoints [(0, 0); (10, 5); (20, 0)]))
         (Some (with_seed (-1) Options_init)) 0%nat (fresh_world (fun _ => 1 # 4)))
      (generate (H := RationalMath) None (ReqCurve (CurvePoints [(0, 0); (10, 5); (20, 0)]))
         (Some (with_seed (-1) Options_init)) 0%nat (fresh_world (fun _ => 3 # 4))).
Proof. vm_compute. intro E. discriminate E. Qed.


(** ** Every operation is well formed *)

Lemma post_if {A} (c : bool) (m1 m2 : M A) (Q : A -> Prop) :
  post m1 Q -> post m2 Q -> post (if c then m1 else m2) Q.
Proof. destruct c; auto. Qed.

Lemma post_for_each {A St} (body : St -> A -> M St) (xs : list A) (Q : St -> Prop) :
  (forall s x, Q s -> post (body s x) Q) ->
  forall s, Q s -> post (for_each xs body s) Q.
Proof.
  intro Hb. induction xs as [|x xs IH]; intros s Hs; cbn [for_each].
  - apply post_ret. exact Hs.
  - eapply post_bind; [apply Hb, Hs|]. intros s' Hs'. apply IH, Hs'.
Qed.

Lemma post_while {St} (cond : St -> bool) (body : St -> M St) (Q : St -> Prop) :
  (forall s, Q s -> post (body s) Q) ->
  forall s, Q s -> post (while cond body s) Q.
Proof.
  intros Hb s Hs fuel w s' w' E. unfold while in E.
  apply (while_loop_preserves cond body Q) with (n := fuel) (s := s) (fuel := fuel)
    (w := w) (w' := w'); [|exact Hs|exact E].
  intros s0 f w0 s1 w1 H0 _ B. apply (Hb s0 H0 f w0 s1 w1 B).
Qed.

Lemma well_formed_move (x y : Q) : well_formed (mkOp move [x; y]).
Proof. reflexivity. Qed.

Lemma well_formed_lineTo (x y : Q) : well_formed (mkOp lineTo [x; y]).
Proof. reflexivity. Qed.

Lemma well_formed_bcurveTo (a b c d e f : Q) : well_formed (mkOp bcurveTo [a; b; c; d; e; f]).
Proof. reflexivity. Qed.

Create HintDb wf discriminated.
#[local] Hint Constants Opaque : wf.
#[local] Hint Variables Opaque : wf.
#[local] Hint Resolve well_formed_move well_formed_lineTo well_formed_bcurveTo : wf.

(** The values that carry operations, by their type. *)
Ltac wf_pred A :=
  lazymatch A with
  | Op => constr:(well_formed)
  | list Op => constr:(Forall well_formed)
  | OpSet => constr:(well_formed_set)
  | list OpSet => constr:(Forall well_formed_set)
  | Drawable => constr:(well_formed_drawable)
  | (list Op * list Op)%type =>
      constr:(fun p : list Op * list Op =>
                Forall well_formed (fst p) /\ Forall well_formed (snd p))
  | (bool * list Op)%type => constr:(fun p : bool * list Op => Forall well_formed (snd p))
  | (list Op * Point)%type => constr:(fun p : list Op * Point => Forall well_formed (fst p))
  | (OpSet * list Point)%type =>
      constr:(fun p : OpSet * list Point => well_formed_set (fst p))
  | PathState => constr:(fun st : PathState => Forall well_formed (path_ops st))
  | _ => constr:(fun _ : A => True)
  end.

Ltac wf_solve :=
  cbn [fst snd ops sets path_ops type_] in *;
  repeat match goal with
         | H : _ /\ _ |- _ => destruct H
         | |- True => exact I
         | |- _ /\ _ => split
         | |- well_formed_drawable (mkDrawable _ _ _) =>
             unfold well_formed_drawable; cbn [sets]
         | |- well_formed_set (mkOpSet _ _) => unfold well_formed_set; cbn [ops]
         | |- Forall _ [] => apply Forall_nil
         | |- Forall _ (_ ++ _) => apply Forall_app; split
         | |- Forall _ (_ :: _) => apply Forall_cons
         | |- Forall well_formed (ops ?s) => change (well_formed_set s)
         | |- _ => assumption
         | |- _ => solve [auto with wf]
         end.

Ltac post_step :=
  cbv beta zeta;
  match goal with
  | |- post (ret _) _ => apply post_ret; solve [wf_solve]
  | |- post (raise _) _ => apply post_raise
  | |- post _ (fun _ => True) => apply post_any
  | |- post (@bind ?A _ ?m _) _ =>
      let P := wf_pred A in
      apply (post_bind m _ P);
      [|let a := fresh "a" in let Ha := fresh "Ha" in intros a Ha; cbv beta in Ha]
  | |- post (for_each _ _ _) _ =>
      apply post_for_each; [intros ? ? ?|solve [wf_solve]]
  | |- post (while _ _ _) _ =>
      apply post_while; [intros ? ?|solve [wf_solve]]
  | |- post (if _ then _ else _) _ => apply post_if
  | |- post (match ?x with _ => _ end) _ => destruct x
  | |- post _ _ => solve [eauto with wf]
  end.

Ltac post_auto := repeat post_step.

Section WellFormedStrokes.
Context `{MathLib}.
Implicit Types (o : ResolvedOptions).

Lemma post_lineOps x1 y1 x2 y2 o move_ overlay :
  post (lineOps x1 y1 x2 y2 o move_ overlay) (Forall well_formed).
Proof. unfold lineOps. destruct move_, overlay; post_auto. Qed.

#[local] Hint Resolve post_lineOps : wf.

Lemma post_doubleLine x1 y1 x2 y2 o filling :
  post (doubleLine x1 y1 x2 y2 o filling) (Forall well_formed).
Proof. unfold doubleLine. post_auto. Qed.

#[local] Hint Resolve post_doubleLine : wf.

Lemma post_doubleLineFillOps x1 y1 x2 y2 o :
  post (doubleLineFillOps x1 y1 x2 y2 o) (Forall well_formed).
Proof. unfold doubleLineFillOps. apply post_doubleLine. Qed.

Lemma post_line x1 y1 x2 y2 o : post (line x1 y1 x2 y2 o) well_formed_set.
Proof. unfold line. post_auto. Qed.

Lemma post_extend_doubleLine o acc e :
  Forall well_formed acc -> post (extend_doubleLine o acc e) (Forall well_formed).
Proof. intro Hacc. unfold extend_doubleLine. post_auto. Qed.

#[local] Hint Resolve post_extend_doubleLine : wf.

Lemma post_linearPath points close o : post (linearPath points close o) well_formed_set.
Proof.
  unfold linearPath. destruct points as [|p0 [|p1 [|p2 rest]]]; post_auto.
Qed.

Lemma post_polygon points o : post (polygon points o) well_formed_set.
Proof. unfold polygon. apply post_linearPath. Qed.

Lemma post_rectangle x y width height o :
  post (rectangle x y width height o) well_formed_set.
Proof. unfold rectangle. apply post_polygon. Qed.

End WellFormedStrokes.

#[local] Hint Resolve post_lineOps post_doubleLine post_doubleLineFillOps post_line
  post_extend_doubleLine post_linearPath post_polygon post_rectangle : wf.

Lemma catmull_rom_well_formed (s : Q) (points : list Point) :
  Forall well_formed (catmull_rom s points).
Proof.
  induction points as [|pm points IH]; [constructor|].
  destruct points as [|pi [|pn [|pnn rest]]]; try constructor.
  - reflexivity.
  - exact IH.
Qed.

Lemma drop_leading_move_well_formed (l : list Op) :
  Forall well_formed l -> Forall well_formed (drop_leading_move l).
Proof.
  intro Hl. unfold drop_leading_move. destruct l as [|[[| |] d] rest]; try exact Hl.
  inversion Hl; assumption.
Qed.

Lemma singleCubic_well_formed (cur : Point) (cx1 cy1 cx2 cy2 x3 y3 : Q) :
  Forall well_formed (singleCubic cur cx1 cy1 cx2 cy2 x3 y3).
Proof. unfold singleCubic. repeat constructor. Qed.

Lemma singleQuadratic_well_formed (cur : Point) (qx qy x3 y3 : Q) :
  Forall well_formed (singleQuadratic cur qx qy x3 y3).
Proof. unfold singleQuadratic. destruct cur. repeat constructor. Qed.

Lemma solidFillPolygon_well_formed `{MathLib} (polygonList : list (list Point))
    (o : ResolvedOptions) :
  well_formed_set (solidFillPolygon polygonList o).
Proof.
  unfold solidFillPolygon, well_formed_set. cbn [ops].
  induction polygonList as [|pts polys IH]; cbn [flat_map]; [constructor|].
  apply Forall_app. split; [|exact IH].
  destruct pts as [|p0 [|p1 [|p2 rest]]]; try constructor.
  - reflexivity.
  - apply Forall_forall. intros a Ha. apply in_map_iff in Ha.
    destruct Ha as (p & <- & _). reflexivity.
Qed.

#[local] Hint Resolve catmull_rom_well_formed drop_leading_move_well_formed
  singleCubic_well_formed singleQuadratic_well_formed solidFillPolygon_well_formed : wf.

Section WellFormedCurves.
Context `{MathLib}.
Implicit Types (o : ResolvedOptions).

Lemma post_curveOps points closePoint o :
  post (curveOps points closePoint o) (Forall well_formed).
Proof. unfold curveOps. post_auto. Qed.

#[local] Hint Resolve post_curveOps : wf.

Lemma post_curveWithOffset points offset o :
  post (curveWithOffset points offset o) (Forall well_formed).
Proof. unfold curveWithOffset. post_auto. Qed.

#[local] Hint Resolve post_curveWithOffset : wf.

Lemma post_curve_passes points o :
  post (curve_passes points o)
    (fun p => Forall well_formed (fst p) /\ Forall well_formed (snd p)).
Proof. unfold curve_passes. post_auto. Qed.

#[local] Hint Resolve post_curve_passes : wf.

Lemma post_curve_segment o st pset :
  Forall well_formed (snd st) ->
  post (curve_segment o st pset) (fun p => Forall well_formed (snd p)).
Proof. intro Hst. unfold curve_segment. destruct st. post_auto. Qed.

#[local] Hint Resolve post_curve_segment : wf.

Lemma post_curve points o : post (curve points o) well_formed_set.
Proof. unfold curve. post_auto. Qed.

Lemma post_ellipseWithParams x y o ep :
  post (ellipseWithParams x y o ep) (fun p => well_formed_set (fst p)).
Proof. unfold ellipseWithParams. post_auto. Qed.

#[local] Hint Resolve post_ellipseWithParams : wf.

Lemma post_ellipse x y width height o : post (ellipse x y width height o) well_formed_set.
Proof. unfold ellipse. post_auto. Qed.

Lemma post_arcOps arcInc cx cy rx ry strt stp offset o :
  post (arcOps arcInc cx cy rx ry strt stp offset o) (Forall well_formed).
Proof. unfold arcOps. post_auto. Qed.

#[local] Hint Resolve post_arcOps : wf.

Lemma post_arc x y width height start stop closed roughClosure o :
  post (arc x y width height start stop closed roughClosure o) well_formed_set.
Proof. unfold arc. post_auto. Qed.

End WellFormedCurves.

#[local] Hint Resolve post_curveOps post_curveWithOffset post_curve_passes
  post_curve_segment post_curve post_ellipseWithParams post_ellipse post_arcOps
  post_arc : wf.

Section WellFormedPaths.
Context `{MathLib}.
Implicit Types (o : ResolvedOptions).

Lemma post_cubic_pass cx1 cy1 cx2 cy2 ex ey sx sy o i :
  post (cubic_pass cx1 cy1 cx2 cy2 ex ey sx sy o i) (Forall well_formed).
Proof. unfold cubic_pass. post_auto. Qed.

#[local] Hint Resolve post_cubic_pass : wf.

Lemma post_cubicBezierOps cx1 cy1 cx2 cy2 ex ey current o :
  post (cubicBezierOps cx1 cy1 cx2 cy2 ex ey current o) (Forall well_formed).
Proof. unfold cubicBezierOps. post_auto. Qed.

#[local] Hint Resolve post_cubicBezierOps : wf.

Lemma post_quadToCubic qx qy x y current o :
  post (quadToCubic qx qy x y current o) (Forall well_formed).
Proof. unfold quadToCubic. post_auto. Qed.

Lemma post_arcToCubics current rx ry xrot laf swf ex ey o :
  post (arcToCubics current rx ry xrot laf swf ex ey o)
    (fun p => Forall well_formed (fst p)).
Proof.
  unfold arcToCubics. post_auto.
  all: try (destruct (six x) as [[[[[? ?] ?] ?] ?] ?]; post_auto).
Qed.

Lemma singleArc_fold_well_formed (beziers : list (list Q)) (st : list Op * Point) :
  Forall well_formed (fst st) ->
  Forall well_formed
    (fst (fold_left
            (fun (st : list Op * Point) (c : list Q) =>
               let '(acc, last) := st in
               let '(cx1, cy1, cx2, cy2, x3, y3) := six c in
               (acc ++ [mkOp move [fst last; snd last];
                        mkOp bcurveTo [cx1; cy1; cx2; cy2; x3; y3]],
                (x3, y3)))
            beziers st)).
Proof.
  revert st. induction beziers as [|c beziers IH]; intros [acc last] Hst; cbn [fold_left].
  - exact Hst.
  - apply IH. cbn [six fst snd] in *. apply Forall_app. split; [exact Hst|].
    repeat constructor.
Qed.

Lemma post_singleArc cur rx ry xrot laf swf ex ey :
  post (singleArc cur rx ry xrot laf swf ex ey) (fun p => Forall well_formed (fst p)).
Proof.
  unfold singleArc. eapply post_bind; [apply post_any|]. intros beziers _.
  apply post_ret. cbn [fst]. apply singleArc_fold_well_formed. constructor.
Qed.

#[local] Hint Resolve post_quadToCubic post_arcToCubics post_singleArc : wf.

Lemma post_svgPath_step o st seg :
  Forall well_formed (path_ops st) ->
  post (svgPath_step o st seg) (fun st' => Forall well_formed (path_ops st')).
Proof. intro Hst. unfold svgPath_step. destruct seg; post_auto. Qed.

#[local] Hint Resolve post_svgPath_step : wf.

Lemma post_svgPath path o : post (svgPath path o) well_formed_set.
Proof. unfold svgPath. post_auto. Qed.

End WellFormedPaths.

#[local] Hint Resolve post_cubic_pass post_cubicBezierOps post_quadToCubic
  post_arcToCubics post_singleArc post_svgPath_step post_svgPath : wf.

Section WellFormedFills.
Context `{MathLib} `{RenderHelper}.
Implicit Types (o : ResolvedOptions).

Hypothesis helper_doubleLineOps_post : forall x1 y1 x2 y2 o,
  post (helper_doubleLineOps x1 y1 x2 y2 o) (Forall well_formed).
Hypothesis helper_ellipse_post : forall x y width height o,
  post (helper_ellipse x y width height o) well_formed_set.

#[local] Hint Resolve helper_doubleLineOps_post helper_ellipse_post : wf.

Lemma post_renderLines lines o : post (renderLines lines o) (Forall well_formed).
Proof. unfold renderLines. post_auto. Qed.

#[local] Hint Resolve post_renderLines : wf.

Lemma post_Hachure_fillPolygons polygonList o :
  post (Hachure_fillPolygons polygonList o) well_formed_set.
Proof. unfold Hachure_fillPolygons. post_auto. Qed.

#[local] Hint Resolve post_Hachure_fillPolygons : wf.

Lemma post_ZigZag_fillPolygons polygonList o :
  post (ZigZag_fillPolygons polygonList o) well_formed_set.
Proof. unfold ZigZag_fillPolygons. post_auto. Qed.

Lemma post_Hatch_fillPolygons polygonList o :
  post (Hatch_fillPolygons polygonList o) well_formed_set.
Proof. unfold Hatch_fillPolygons. post_auto. Qed.

Lemma post_place_dot x minY offset gap fweight ro o acc i :
  Forall well_formed acc ->
  post (place_dot x minY offset gap fweight ro o acc i) (Forall well_formed).
Proof. intro Hacc. unfold place_dot. post_auto. Qed.

#[local] Hint Resolve post_place_dot : wf.

Lemma post_dots_on_line gap fweight ro o acc ln :
  Forall well_formed acc ->
  post (dots_on_line gap fweight ro o acc ln) (Forall well_formed).
Proof. intro Hacc. unfold dots_on_line. post_auto. Qed.

#[local] Hint Resolve post_dots_on_line : wf.

Lemma post_dotsOnLines lines o : post (_dotsOnLines lines o) well_formed_set.
Proof. unfold _dotsOnLines. post_auto. Qed.

#[local] Hint Resolve post_dotsOnLines : wf.

Lemma post_Dot_fillPolygons polygonList o :
  post (Dot_fillPolygons polygonList o) well_formed_set.
Proof. unfold Dot_fillPolygons. post_auto. Qed.

Lemma post_dashedLine lines o : post (_dashedLine lines o) (Forall well_formed).
Proof. unfold _dashedLine. post_auto. Qed.

Lemma post_zigzagLines lines zo o : post (_zigzagLines lines zo o) (Forall well_formed).
Proof. unfold _zigzagLines. post_auto. Qed.

#[local] Hint Resolve post_dashedLine post_zigzagLines : wf.

Lemma post_Dashed_fillPolygons polygonList o :
  post (Dashed_fillPolygons polygonList o) well_formed_set.
Proof. unfold Dashed_fillPolygons. post_auto. Qed.

Lemma post_ZigZagLine_fillPolygons polygonList o :
  post (ZigZagLine_fillPolygons polygonList o) well_formed_set.
Proof. unfold ZigZagLine_fillPolygons. post_auto. Qed.

#[local] Hint Resolve post_ZigZag_fillPolygons post_Hatch_fillPolygons
  post_Dot_fillPolygons post_Dashed_fillPolygons post_ZigZagLine_fillPolygons : wf.

Lemma post_fillPolygons polygonList o : post (fillPolygons polygonList o) well_formed_set.
Proof. unfold fillPolygons. post_auto. Qed.

End WellFormedFills.

Section WellFormedShapes.
Context `{MathLib}.
Implicit Types (o : ResolvedOptions).

Lemma post_patternFillPolygons polygonList o :
  post (patternFillPolygons polygonList o) well_formed_set.
Proof.
  unfold patternFillPolygons. apply post_fillPolygons.
  - intros. cbn [helper_doubleLineOps RenderHelperImpl]. apply post_doubleLineFillOps.
  - intros. cbn [helper_ellipse RenderHelperImpl]. apply post_ellipse.
Qed.

#[local] Hint Resolve post_patternFillPolygons : wf.

Lemma post_patternFillArc x y width height start stop o :
  post (patternFillArc x y width height start stop o) well_formed_set.
Proof. unfold patternFillArc. post_auto. Qed.

#[local] Hint Resolve post_patternFillArc : wf.

Variables (self : RoughGenerator) (options_ : option Options).

Lemma post_gen_line x1 y1 x2 y2 :
  post (gen_line self x1 y1 x2 y2 options_) well_formed_drawable.
Proof. unfold gen_line. post_auto. Qed.

Lemma well_formed_when (b : bool) (s : OpSet) :
  well_formed_set s -> Forall well_formed_set (when_ b s).
Proof. intro Hs. unfold when_. destruct b; repeat constructor. exact Hs. Qed.

#[local] Hint Resolve well_formed_when : wf.

Lemma post_gen_rectangle x y width height :
  post (gen_rectangle self x y width height options_) well_formed_drawable.
Proof. unfold gen_rectangle. post_auto. Qed.

Lemma post_gen_ellipse x y width height :
  post (gen_ellipse self x y width height options_) well_formed_drawable.
Proof. unfold gen_ellipse. post_auto. Qed.

Lemma post_gen_circle x y diameter :
  post (gen_circle self x y diameter options_) well_formed_drawable.
Proof.
  unfold gen_circle. eapply post_bind; [apply post_gen_ellipse|].
  intros d Hd. apply post_ret. exact Hd.
Qed.

Lemma post_gen_linearPath points :
  post (gen_linearPath self points options_) well_formed_drawable.
Proof. unfold gen_linearPath. post_auto. Qed.

Lemma post_gen_arc x y width height start stop closed :
  post (gen_arc self x y width height start stop closed options_) well_formed_drawable.
Proof. unfold gen_arc. post_auto. Qed.

Lemma post_gen_curve points : post (gen_curve self points options_) well_formed_drawable.
Proof. unfold gen_curve. post_auto. Qed.

Lemma post_gen_polygon points :
  post (gen_polygon self points options_) well_formed_drawable.
Proof. unfold gen_polygon. post_auto. Qed.

Lemma post_gen_path d : post (gen_path self d options_) well_formed_drawable.
Proof. unfold gen_path. post_auto. Qed.

End WellFormedShapes.

(** X15. Every operation of every drawable the generator returns is
    well formed: a [move] or a [lineTo] has two coordinates and a
    [bcurveTo] has six, for every shape, every fill style and all options
    (so the consumers that unpack them, the transforms of the canvas and
    the serialization, find what they expect). *)
Theorem drawables_are_well_formed `{MathLib} (self : RoughGenerator) (req : ShapeRequest)
    (options_ : option Options) (fuel : nat) (w : World) (d : Drawable) (w' : World) :
  draw self req options_ fuel w = Ret d w' ->
  forall s, In s (sets d) -> forall a, In a (ops s) -> well_formed a.
Proof.
  intros E s Hs a Ha.
  assert (P : post (draw self req options_) well_formed_drawable).
  { destruct req; cbn [draw];
      auto using post_gen_line, post_gen_rectangle, post_gen_ellipse, post_gen_circle,
        post_gen_linearPath, post_gen_arc, post_gen_curve, post_gen_polygon,
        post_gen_path. }
  specialize (P fuel w d w' E). unfold well_formed_drawable in P.
  rewrite Forall_forall in P. specialize (P s Hs). unfold well_formed_set in P.
  rewrite Forall_forall in P. apply P, Ha.
Qed.

Lemma drawables_are_well_formed_witness :
  exists d w',
    draw (H := RationalMath) default_generator (ReqLine 0 0 10 0)
      (Some (with_seed 1 Options_init)) 0%nat (fresh_world (fun _ => 1 # 4)) = Ret d w'
    /\ sets d <> []
    /\ forall s, In s (sets d) -> forall a, In a (ops s) -> well_formed a.
Proof.
  eexists _, _. split; [vm_compute; reflexivity|]. split; [discriminate|].
  intros s Hs a Ha.
  eapply (drawables_are_well_formed (H := RationalMath) default_generator
            (ReqLine 0 0 10 0) (Some (with_seed 1 Options_init)) 0%nat
            (fresh_world (fun _ => 1 # 4)));
    [vm_compute; reflexivity|exact Hs|exact Ha].
Defined.

(** ** The transformation matrix of the canvas *)

Lemma affine_product (m1 m2 : list Q) :
  affine m1 -> affine m2 ->
  exists m, (forall fuel w, _matrixMultiply m1 m2 fuel w = Ret m w) /\ affine m.
Proof.
  destruct m1 as [|a0 [|a1 [|a2 [|a3 [|a4 [|a5 [|a6 [|a7 [|a8 [|]]]]]]]]]];
    try contradiction.
  destruct m2 as [|b0 [|b1 [|b2 [|b3 [|b4 [|b5 [|b6 [|b7 [|b8 [|]]]]]]]]]];
    try contradiction.
  cbn [affine]. intros (A6 & A7 & A8) (B6 & B7 & B8).
  eexists. split; [intros; reflexivity|]. cbn [affine].
  rewrite A6, A7, A8, B6, B7, B8. repeat split; ring.
Qed.

(** X16. The matrix of a context is always a 3 x 3 matrix with last row
    [0 0 1]: whatever calls of [translate], [scale], [rotate] and
    [resetTransform] were made on a new context, each call returns (no
    index is out of range) and leaves such a matrix. *)
Theorem context_matrix_is_affine `{MathLib} (calls : list ContextCall)
    (fuel : nat) (w : World) :
  exists ctx,
    for_each calls call FakeCanvasContext_init fuel w = Ret ctx w
    /\ affine (currentTransform ctx).
Proof.
  assert (G : forall ctx0, affine (_matrix ctx0) ->
                exists ctx, for_each calls call ctx0 fuel w = Ret ctx w
                            /\ affine (currentTransform ctx)).
  { induction calls as [|c calls IH]; intros ctx0 H0.
    - exists ctx0. split; [reflexivity|exact H0].
    - cbn [for_each]. unfold bind.
      assert (S : exists ctx1, call ctx0 c fuel w = Ret ctx1 w /\ affine (_matrix ctx1)).
      { destruct c as [dx dy|sx sy|a|]; cbn [call];
          unfold translate, scale, rotate, resetTransform, bind, ret; cbv zeta.
        - destruct (affine_product (_matrix ctx0) [1; 0; dx; 0; 1; dy; 0; 0; 1] H0)
            as (m & Em & Am); [cbn; repeat split; reflexivity|].
          rewrite Em. eexists. split; [reflexivity|exact Am].
        - destruct (affine_product (_matrix ctx0) [sx; 0; 0; 0; sy; 0; 0; 0; 1] H0)
            as (m & Em & Am); [cbn; repeat split; reflexivity|].
          rewrite Em. eexists. split; [reflexivity|exact Am].
        - destruct (affine_product (_matrix ctx0)
                      [math_cos a; - math_sin a; 0; math_sin a; math_cos a; 0; 0; 0; 1] H0)
            as (m & Em & Am); [cbn; repeat split; reflexivity|].
          rewrite Em. eexists. split; [reflexivity|exact Am].
        - eexists. split; [reflexivity|]. cbn. repeat split; reflexivity. }
      destruct S as (ctx1 & E1 & A1). rewrite E1. apply IH, A1. }
  apply G. cbn. repeat split; reflexivity.
Qed.

(** X17. A transformation acts on the coordinates that are drawn after
    it, before the transformations made earlier: after [translate(dx, dy)]
    the point [(x, y)] goes where [(x + dx, y + dy)] went, after
    [scale(sx, sy)] where [(sx * x, sy * y)] went, and after [rotate(a)]
    where [(x cos a - y sin a, x sin a + y cos a)] went. *)
Theorem transformations_act_on_local_coordinates `{MathLib} (self : FakeCanvasContext)
    (x y : Q) (fuel : nat) (w : World) :
  affine (currentTransform self) ->
  (forall dx dy, exists ctx p q,
     translate self dx dy fuel w = Ret ctx w
     /\ _transformXY x y (currentTransform ctx) fuel w = Ret p w
     /\ _transformXY (x + dx) (y + dy) (currentTransform self) fuel w = Ret q w
     /\ same_point p q)
  /\ (forall sx sy, exists ctx p q,
        scale self sx sy fuel w = Ret ctx w
        /\ _transformXY x y (currentTransform ctx) fuel w = Ret p w
        /\ _transformXY (sx * x) (sy * y) (currentTransform self) fuel w = Ret q w
        /\ same_point p q)
  /\ (forall a, exists ctx p q,
        rotate self a fuel w = Ret ctx w
        /\ _transformXY x y (currentTransform ctx) fuel w = Ret p w
        /\ _transformXY (x * math_cos a - y * math_sin a)
             (x * math_sin a + y * math_cos a) (currentTransform self) fuel w = Ret q w
        /\ same_point p q).
Proof.
  destruct self as [m]. unfold currentTransform. cbn [_matrix].
  destruct m as [|a0 [|a1 [|a2 [|a3 [|a4 [|a5 [|a6 [|a7 [|a8 [|]]]]]]]]]];
    try contradiction.
  intros _.
  split; [|split]; intros; eexists _, _, _;
    (split; [reflexivity|]); (split; [reflexivity|]); (split; [reflexivity|]);
    unfold same_point; cbn [fst snd]; split; ring.
Qed.

Lemma transformations_act_on_local_coordinates_witness :
  exists ctx p q,
    translate FakeCanvasContext_init 3 4 0%nat (fresh_world (fun _ => 0))
    = Ret ctx (fresh_world (fun _ => 0))
    /\ _transformXY 1 2 (currentTransform ctx) 0%nat (fresh_world (fun _ => 0))
       = Ret p (fresh_world (fun _ => 0))
    /\ _transformXY (1 + 3) (2 + 4) (currentTransform FakeCanvasContext_init) 0%nat
         (fresh_world (fun _ => 0)) = Ret q (fresh_world (fun _ => 0))
    /\ same_point p q.
Proof.
  apply (transformations_act_on_local_coordinates (H := RationalMath)
           FakeCanvasContext_init 1 2 0%nat (fresh_world (fun _ => 0))).
  cbn. repeat split; reflexivity.
Defined.

(** ** The ellipse returns *)

Lemma returns_from_ret {A} (P : World -> Prop) (n : nat) (a : A) (Q : A -> Prop) :
  Q a -> returns_from P n (ret a) Q.
Proof. intros Ha fuel w _ Pw. exists a, w. split; [reflexivity|]. split; assumption. Qed.

Lemma returns_from_bind {A B} (P : World -> Prop) (n : nat) (m : M A) (k : A -> M B)
    (Q : A -> Prop) (Q' : B -> Prop) :
  returns_from P n m Q -> (forall a, Q a -> returns_from P n (k a) Q') ->
  returns_from P n (bind m k) Q'.
Proof.
  intros Hm Hk fuel w Hf Pw. destruct (Hm fuel w Hf Pw) as (a & w1 & E & Ha & Pw1).
  destruct (Hk a Ha fuel w1 Hf Pw1) as (b & w2 & E' & Hb & Pw2).
  exists b, w2. unfold bind. rewrite E. auto.
Qed.

Lemma returns_from_returns {A} (P : World -> Prop) (n : nat) (m : M A) (Q : A -> Prop) :
  returns P m Q -> returns_from P n m Q.
Proof. intros Hm fuel w _ Pw. apply (Hm fuel w Pw). Qed.

Lemma returns_from_weaken {A} (P : World -> Prop) (n : nat) (m : M A) (Q Q' : A -> Prop) :
  returns_from P n m Q -> (forall a, Q a -> Q' a) -> returns_from P n m Q'.
Proof.
  intros Hm Himp fuel w Hf Pw. destruct (Hm fuel w Hf Pw) as (a & w1 & E & Ha & Pw1).
  exists a, w1. auto.
Qed.

Lemma returns_from_more {A} (P : World -> Prop) (n n' : nat) (m : M A) (Q : A -> Prop) :
  (n <= n')%nat -> returns_from P n m Q -> returns_from P n' m Q.
Proof. intros L Hm fuel w Hf Pw. apply (Hm fuel w); [lia|exact Pw]. Qed.

(** A loop whose state carries a measure that each iteration lowers by
    at least [delta > 0], whatever the iteration does to the world. *)
Lemma while_loop_returns {St} (P : World -> Prop) (cond : St -> bool) (body : St -> M St)
    (mu : St -> Q) (delta : Q) (Inv : St -> Prop) :
  0 < delta ->
  (forall s, Inv s -> cond s = true -> 0 <= mu s) ->
  (forall s fuel w, Inv s -> cond s = true -> P w ->
     exists s' w', body s fuel w = Ret s' w' /\ mu s' <= mu s - delta /\ Inv s' /\ P w') ->
  forall n s fuel w,
    Inv s -> P w -> mu s < inject_Z (Z.of_nat n) * delta ->
    exists s' w', while_loop cond body n s fuel w = Ret s' w' /\ P w'.
Proof.
  intros Hd Hpos Hbody n.
  induction n as [|n IH]; intros s fuel w Hi Pw Hmu; cbn [while_loop];
    destruct (cond s) eqn:C; try (exists s, w; split; [reflexivity|exact Pw]).
  - exfalso. pose proof (Hpos s Hi C) as Pm.
    change (inject_Z (Z.of_nat 0)) with 0 in Hmu.
    assert (Z0 : 0 * delta == 0) by ring. rewrite Z0 in Hmu. lra.
  - unfold bind. destruct (Hbody s fuel w Hi C Pw) as (s1 & w1 & E & D & Hi1 & Pw1).
    rewrite E. apply IH; [exact Hi1|exact Pw1|].
    rewrite Nat2Z.inj_succ in Hmu. unfold Z.succ in Hmu. rewrite inject_Z_plus in Hmu.
    change (inject_Z 1) with 1 in Hmu.
    assert (E' : (inject_Z (Z.of_nat n) + 1) * delta
                 == inject_Z (Z.of_nat n) * delta + delta) by ring.
    rewrite E' in Hmu. lra.
Qed.

(** A step that the floats resolve advances the sum by half of it at
    the least. *)
Lemma float_add_half_step (y step bound : Q) :
  Qabs (y + step) <= bound -> bound <= 4503599627370496 * step ->
  y + step / 2 <= float_add y step.
Proof.
  intros Hb Hs. pose proof (float_add_advances y step bound Hb) as A.
  set (h := step / 2). assert (Eh : h * 2 == step) by (unfold h; field).
  assert (E : bound / 2 ^ 53 <= h).
  { change (2 ^ 53) with (9007199254740992 # 1).
    apply Qle_shift_div_r; [reflexivity|]. lra. }
  set (X := bound / 2 ^ 53) in *. set (s := float_add y step) in *.
  clearbody X s h. clear Hb. lra.
Qed.

Section EllipseReturns.
Context `{MathLib}.
Hypothesis pi_at_least_3 : 3 <= math_pi.

Lemma randomFloat_unit_returns (o : ResolvedOptions) :
  returns unit_entropy (randomFloat o) (fun u => 0 <= u /\ u < 1).
Proof.
  intros fuel w Pw.
  destruct (randomFloat_unit o o eq_refl eq_refl fuel w Pw)
    as (u & v & w' & E & _ & (_ & U) & Pw').
  exists u, w'. auto.
Qed.

Lemma offsetRange_unit_returns (minv maxv g : Q) (o : ResolvedOptions) :
  returns unit_entropy (offsetRange minv maxv o g) (fun _ => True).
Proof.
  unfold offsetRange. cbv zeta.
  eapply returns_bind; [apply randomFloat_unit_returns|]. intros u _.
  apply returns_ret. exact I.
Qed.

Lemma offsetOpt_unit_returns (x g : Q) (o : ResolvedOptions) :
  returns unit_entropy (offsetOpt x o g) (fun _ => True).
Proof. unfold offsetOpt. apply offsetRange_unit_returns. Qed.

(** The offset of [offsetOpt(x, o)] is at most [roughness * x]. *)
Lemma offsetOpt_unit_bound (x : Q) (o : ResolvedOptions) :
  returns unit_entropy (offsetOpt x o 1)
    (fun v => Qabs v <= Qabs (or_default (roughness o) 1) * Qabs x).
Proof.
  unfold offsetOpt, offsetRange. cbv zeta.
  eapply returns_bind; [apply randomFloat_unit_returns|]. intros u [U0 U1].
  apply returns_ret.
  rewrite !Qabs_Qmult. change (Qabs 1) with 1.
  setoid_replace (Qabs (or_default (roughness o) 1) * 1 * Qabs (u * (x - - x) + - x))
    with (Qabs (or_default (roughness o) 1) * Qabs (u * (x - - x) + - x)) by ring.
  apply Qmult_le_nonneg_l; [apply Qabs_nonneg|]. apply Qabs_scaled_unit; assumption.
Qed.

Lemma unless_preserved_unit_returns (o : ResolvedOptions) (r : M Q) :
  returns unit_entropy r (fun _ => True) ->
  returns unit_entropy (unless_preserved o r) (fun _ => True).
Proof.
  intro Hr. unfold unless_preserved.
  destruct (truthy (preserveVertices o)); [apply returns_ret; exact I|exact Hr].
Qed.

Lemma lineOps_unit_returns (x1 y1 x2 y2 : Q) (o : ResolvedOptions) (move_ overlay : bool) :
  returns unit_entropy (lineOps x1 y1 x2 y2 o move_ overlay) (fun _ => True).
Proof.
  unfold lineOps. cbv zeta.
  set (g := roughnessGain _). set (moff := if Qltb _ _ then _ else _).
  assert (Hr : returns unit_entropy
                 (if overlay then offsetOpt (moff / 2) o g else offsetOpt moff o g)
                 (fun _ => True)).
  { destruct overlay; apply offsetOpt_unit_returns. }
  pose proof (unless_preserved_unit_returns o _ Hr) as Hj.
  eapply returns_bind; [apply randomFloat_unit_returns|]. intros u _.
  eapply returns_bind; [apply offsetOpt_unit_returns|]. intros mdx _.
  eapply returns_bind; [apply offsetOpt_unit_returns|]. intros mdy _.
  eapply returns_bind with (Q := fun _ => True).
  { destruct move_; [|apply returns_ret; exact I].
    eapply returns_bind; [exact Hj|]. intros dx _.
    eapply returns_bind; [exact Hj|]. intros dy _.
    apply returns_ret. exact I. }
  intros l _.
  eapply returns_bind; [exact Hr|]. intros r1 _.
  eapply returns_bind; [exact Hr|]. intros r2 _.
  eapply returns_bind; [exact Hr|]. intros r3 _.
  eapply returns_bind; [exact Hr|]. intros r4 _.
  eapply returns_bind; [exact Hj|]. intros ex _.
  eapply returns_bind; [exact Hj|]. intros ey _.
  apply returns_ret. exact I.
Qed.

Lemma curveOps_unit_returns (points : list Point) (closePoint : option Point)
    (o : ResolvedOptions) :
  returns unit_entropy (curveOps points closePoint o) (fun _ => True).
Proof.
  unfold curveOps. cbv zeta.
  destruct points as [|p0 [|p1 [|p2 [|p3 rest]]]].
  - apply returns_ret. exact I.
  - apply returns_ret. exact I.
  - apply lineOps_unit_returns.
  - apply returns_ret. exact I.
  - destruct closePoint as [cp|]; [|apply returns_ret; exact I].
    eapply returns_bind; [apply offsetOpt_unit_returns|]. intros dx _.
    eapply returns_bind; [apply offsetOpt_unit_returns|]. intros dy _.
    apply returns_ret. exact I.
Qed.

(** The sweeps of [computeEllipsePoints] cover a turn in steps of
    [2 pi / steps], or a quarter of that; every step advances the angle
    by half of it at the least. *)
Lemma computeEllipsePoints_returns (increment cx cy rx ry offset overlap : Q)
    (o : ResolvedOptions) (steps : Z) :
  (1 <= steps)%Z -> (steps <= 2 ^ 40)%Z ->
  Qabs (or_default (roughness o) 1) <= 1000 ->
  increment = math_pi * 2 / inject_Z steps ->
  returns_from unit_entropy (8 * Z.to_nat steps + 1)
    (computeEllipsePoints increment cx cy rx ry offset overlap o) (fun _ => True).
Proof.
  intros Hs Hs' Hr Ei.
  assert (Sp : 1 <= inject_Z steps).
  { change 1 with (inject_Z 1). rewrite <- Zle_Qle. exact Hs. }
  assert (Sq : inject_Z steps <= 1099511627776).
  { change 1099511627776 with (inject_Z (2 ^ 40)). rewrite <- Zle_Qle. exact Hs'. }
  assert (Es : increment * inject_Z steps == math_pi * 2).
  { rewrite Ei. field. lra. }
  assert (Ip : 0 < increment).
  { rewrite Ei. apply Qlt_shift_div_l; lra. }
  assert (Il : math_pi * 2 <= increment * 1099511627776).
  { rewrite <- Es. apply Qmult_le_nonneg_l; [lra|exact Sq]. }
  assert (E2 : increment / 2 * 2 == increment) by field.
  assert (E4 : increment / 4 * 4 == increment) by field.
  assert (E8 : increment / 4 / 2 * 8 == increment) by field.
  assert (Ep : math_pi / 2 * 2 == math_pi) by field.
  intros fuel w Hf Pw.
  assert (Fl : 8 * inject_Z steps + 1 <= inject_Z (Z.of_nat fuel)).
  { change 8 with (inject_Z 8). change 1 with (inject_Z 1).
    rewrite <- inject_Z_mult, <- inject_Z_plus, <- Zle_Qle. lia. }
  assert (Fi : math_pi * 2 < inject_Z (Z.of_nat fuel) * (increment / 4 / 2)).
  { set (f := inject_Z (Z.of_nat fuel)) in *. set (n := inject_Z steps) in *.
    clearbody f n.
    assert (T : f * (increment / 4 / 2) == f * increment * (1 # 8)) by field.
    rewrite T.
    assert (U : (8 * n + 1) * increment <= f * increment)
      by (apply Qmult_le_compat_r; lra).
    lra. }
  assert (Fj : math_pi * 2 < inject_Z (Z.of_nat fuel) * (increment / 2)).
  { assert (T : inject_Z (Z.of_nat fuel) * (increment / 2)
                == 4 * (inject_Z (Z.of_nat fuel) * (increment / 4 / 2))) by field.
    rewrite T. lra. }
  set (i2 := increment / 2) in *. set (i4 := increment / 4) in *.
  set (i8 := i4 / 2) in *. set (p2 := math_pi / 2) in *.
  unfold computeEllipsePoints. cbv zeta. fold i4. fold p2.
  destruct (match roughness o with Some r => Qeqb r 0 | None => false end).
  - unfold bind at 1. unfold while.
    match goal with
    | |- context [while_loop ?cnd ?bdy fuel ?s0 fuel w] =>
        destruct (while_loop_returns unit_entropy cnd bdy
                    (fun st : EllipseLoop => math_pi * 2 - fst (fst st))
                    i8
                    (fun st : EllipseLoop => 0 <= fst (fst st)))
          with (n := fuel) (s := s0) (fuel := fuel) (w := w)
          as (s' & w' & E & Pw')
    end.
    + lra.
    + intros [[angle allP] coreP] _ C. cbn [fst]. apply Qleb_le in C. lra.
    + intros [[angle allP] coreP] f w0 Hi C Pw0. cbn [fst] in Hi. apply Qleb_le in C.
      eexists _, _. split; [reflexivity|]. cbn [fst].
      assert (A : angle + i4 / 2 <= float_add angle i4).
      { apply float_add_half_step with (bound := math_pi * 2 + i4).
        - apply Qabs_Qle_condition. split; lra.
        - lra. }
      fold i8 in A. set (a' := float_add angle i4) in *. clearbody a'.
      split; [lra|]. split; [lra|exact Pw0].
    + cbn [fst]. apply Qle_refl.
    + exact Pw.
    + cbn [fst]. lra.
    + rewrite E. destruct s' as [[angle allP] coreP]. eexists _, _.
      split; [reflexivity|]. split; [exact I|exact Pw'].
  - destruct (offsetOpt_unit_bound (5 # 10) o fuel w Pw) as (r0 & w1 & E1 & B0 & Pw1).
    unfold bind at 1. rewrite E1.
    assert (R0 : Qabs r0 <= 500).
    { change (Qabs (5 # 10)) with (5 # 10) in B0.
      set (a := Qabs (or_default (roughness o) 1)) in *. clearbody a. lra. }
    apply Qabs_Qle_condition in R0.
    destruct (offsetOpt_unit_returns offset 1 o fuel w1 Pw1) as (ax & w2 & E2' & _ & Pw2).
    unfold bind at 1. rewrite E2'.
    destruct (offsetOpt_unit_returns offset 1 o fuel w2 Pw2) as (ay & w3 & E3 & _ & Pw3).
    unfold bind at 1. rewrite E3.
    unfold bind at 1. unfold while.
    match goal with
    | |- context [while_loop ?cnd ?bdy fuel ?s0 fuel w3] =>
        destruct (while_loop_returns unit_entropy cnd bdy
                    (fun st : EllipseLoop =>
                       math_pi * 2 + (r0 - p2) - (1 # 100) - fst (fst st))
                    i2
                    (fun st : EllipseLoop => r0 - p2 <= fst (fst st)))
          with (n := fuel) (s := s0) (fuel := fuel) (w := w3)
          as (s' & w' & E & Pw')
    end.
    + lra.
    + intros [[angle allP] coreP] _ C. cbn [fst]. apply Qltb_lt in C. lra.
    + intros [[angle allP] coreP] f w0 Hi C Pw0. cbn [fst] in Hi. apply Qltb_lt in C.
      destruct (offsetOpt_unit_returns offset 1 o f w0 Pw0) as (dx & w4 & E4' & _ & Pw4).
      destruct (offsetOpt_unit_returns offset 1 o f w4 Pw4) as (dy & w5 & E5 & _ & Pw5).
      eexists _, _. split; [unfold bind; rewrite E4', E5; reflexivity|]. cbn [fst].
      assert (A : angle + increment / 2 <= float_add angle increment).
      { apply float_add_half_step with (bound := 500 + p2 + math_pi * 2 + increment).
        - apply Qabs_Qle_condition. split; lra.
        - lra. }
      fold i2 in A. set (a' := float_add angle increment) in *. clearbody a'.
      split; [lra|]. split; [lra|exact Pw5].
    + cbn [fst]. apply Qle_refl.
    + exact Pw3.
    + cbn [fst]. lra.
    + rewrite E. destruct s' as [[angle allP] coreP].
      destruct (offsetOpt_unit_returns offset 1 o fuel w' Pw') as (bx & w6 & E6 & _ & Pw6).
      unfold bind at 1. rewrite E6.
      destruct (offsetOpt_unit_returns offset 1 o fuel w6 Pw6) as (by_ & w7 & E7 & _ & Pw7).
      unfold bind at 1. rewrite E7.
      destruct (offsetOpt_unit_returns offset 1 o fuel w7 Pw7) as (ex & w8 & E8' & _ & Pw8).
      unfold bind at 1. rewrite E8'.
      destruct (offsetOpt_unit_returns offset 1 o fuel w8 Pw8) as (ey & w9 & E9 & _ & Pw9).
      unfold bind at 1. rewrite E9.
      destruct (offsetOpt_unit_returns offset 1 o fuel w9 Pw9)
        as (fx & w10 & E10 & _ & Pw10).
      unfold bind at 1. rewrite E10.
      destruct (offsetOpt_unit_returns offset 1 o fuel w10 Pw10)
        as (fy & w11 & E11 & _ & Pw11).
      unfold bind at 1. rewrite E11.
      eexists _, _. split; [reflexivity|]. split; [exact I|exact Pw11].
Qed.

Lemma ellipseWithParams_returns (x y : Q) (o : ResolvedOptions) (ep : EllipseParams)
    (steps : Z) :
  (1 <= steps)%Z -> (steps <= 2 ^ 40)%Z ->
  Qabs (or_default (roughness o) 1) <= 1000 ->
  ep_increment ep = math_pi * 2 / inject_Z steps ->
  returns_from unit_entropy (8 * Z.to_nat steps + 1) (ellipseWithParams x y o ep)
    (fun p => type_ (fst p) = pathSet).
Proof.
  intros Hs Hs' Hr Ei. unfold ellipseWithParams.
  eapply returns_from_bind; [apply returns_from_returns, offsetRange_unit_returns|].
  intros inner _.
  eapply returns_from_bind; [apply returns_from_returns, offsetRange_unit_returns|].
  intros outer _.
  eapply returns_from_bind;
    [apply (computeEllipsePoints_returns _ _ _ _ _ _ _ _ steps Hs Hs' Hr Ei)|].
  intros [ap1 cp1] _.
  eapply returns_from_bind; [apply returns_from_returns, curveOps_unit_returns|].
  intros c_ops _. cbv zeta.
  destruct (negb (truthy (disableMultiStroke o))
            && match roughness o with Some r => negb (Qeqb r 0) | None => true end).
  - eapply returns_from_bind;
      [apply (computeEllipsePoints_returns _ _ _ _ _ _ _ _ steps Hs Hs' Hr Ei)|].
    intros [ap2 cp2] _.
    eapply returns_from_bind; [apply returns_from_returns, curveOps_unit_returns|].
    intros c_ops2 _. apply returns_from_ret. reflexivity.
  - apply returns_from_ret. reflexivity.
Qed.

Lemma ellipse_step_count_positive (width height : Q) (o : Options) :
  (1 <= or_default (curveStepCount o) 9)%Z -> (1 <= ellipse_step_count width height o)%Z.
Proof. intro Hc. unfold ellipse_step_count. cbv zeta. lia. Qed.

Lemma generateEllipseParams_returns (width height : Q) (o : ResolvedOptions) (n : nat) :
  (1 <= or_default (curveStepCount o) 9)%Z ->
  returns_from unit_entropy n (generateEllipseParams width height o)
    (fun ep => ep_increment ep
               = math_pi * 2 / inject_Z (ellipse_step_count width height o)).
Proof.
  intro Hc. pose proof (ellipse_step_count_positive width height o Hc) as Hs.
  unfold generateEllipseParams. cbv zeta. fold (ellipse_step_count width height o).
  eapply returns_from_bind
    with (Q := fun inc => inc = math_pi * 2 / inject_Z (ellipse_step_count width height o)).
  { unfold pydiv.
    assert (Z : Qeqb (inject_Z (ellipse_step_count width height o)) 0 = false).
    { unfold Qeqb. destruct (Qeq_bool _ 0) eqn:E; [|reflexivity].
      apply Qeq_bool_iff in E. unfold Qeq in E. cbn in E. lia. }
    rewrite Z. apply returns_from_ret. reflexivity. }
  intros inc ->.
  eapply returns_from_bind; [apply returns_from_returns, offsetOpt_unit_returns|].
  intros dx _.
  eapply returns_from_bind; [apply returns_from_returns, offsetOpt_unit_returns|].
  intros dy _.
  apply returns_from_ret. reflexivity.
Qed.

Lemma ellipse_returns_from (x y width height : Q) (o : ResolvedOptions) :
  ellipse_resolved width height o ->
  returns_from unit_entropy (ellipse_budget width height o)
    (ellipse x y width height o) (fun s => type_ s = pathSet).
Proof.
  intros (Hc & Hs' & Hr & _ & _).
  pose proof (ellipse_step_count_positive width height o Hc) as Hs.
  unfold ellipse, ellipse_budget.
  eapply returns_from_bind; [apply generateEllipseParams_returns, Hc|].
  intros ep Ei.
  eapply returns_from_bind; [apply (ellipseWithParams_returns x y o ep _ Hs Hs' Hr Ei)|].
  intros [e_ops e_points] He. apply returns_from_ret. exact He.
Qed.

(** X18. [ellipse] returns a path whenever the floats of its sweep
    resolve the steps ([ellipse_resolved]: a step count between 1 and
    [2^40], a roughness of at most 1000, sizes whose squares are floats)
    and [random.random()] returns values of [[0, 1)]: every step of the
    sweep advances the angle by half of [2 pi / steps] at the least (of a
    quarter of it when the roughness is 0), so [8 * steps + 1] loop
    iterations are enough, [steps] being the step count of
    [generateEllipseParams].  The constant [math.pi] is taken to be at
    least 3. *)
Theorem ellipse_returns (x y width height : Q) (o : ResolvedOptions)
    (fuel : nat) (w : World) :
  ellipse_resolved width height o ->
  unit_entropy w ->
  (ellipse_budget width height o <= fuel)%nat ->
  exists s w', ellipse x y width height o fuel w = Ret s w' /\ type_ s = pathSet.
Proof.
  intros Hr Pw Hf.
  destruct (ellipse_returns_from x y width height o Hr fuel w Hf Pw)
    as (s & w' & E & Hs & _).
  exists s, w'. split; assumption.
Qed.

End EllipseReturns.

Lemma rational_pi_at_least_3 : 3 <= math_pi (MathLib := RationalMath).
Proof. vm_compute. discriminate. Qed.

Lemma unit_entropy_constant (u : Q) (w : World) :
  0 <= u -> u < 1 -> entropy w = (fun _ => u) -> unit_entropy w.
Proof. intros U0 U1 E n. rewrite E. split; assumption. Qed.

Lemma ellipse_returns_witness :
  exists s w',
    ellipse (H := RationalMath) 0 0 10 6 (seeded_defaults 1) 100%nat
      (one_object_world (fun _ => 0)) = Ret s w'
    /\ type_ s = pathSet.
Proof.
  apply (ellipse_returns (H := RationalMath) rational_pi_at_least_3).
  - unfold ellipse_resolved. repeat split; vm_compute; discriminate.
  - intro n. split; [apply Qle_refl|reflexivity].
  - apply Nat.leb_le. vm_compute. reflexivity.
Defined.

(** ** The dot filler *)

Lemma jitter_between (x ro u : Q) :
  0 <= ro -> 0 <= u -> u < 1 ->
  x - ro <= x - ro + u * (2 * ro) /\ x - ro + u * (2 * ro) <= x + ro.
Proof. intros Hro H0 H1. split; nra. Qed.

Lemma copy_options_returns (o : ResolvedOptions) (fuel : nat) (w : World) :
  exists i w1,
    copy_options o fuel w = Ret (mkResolved (fields o) i) w1 /\ entropy w1 = entropy w.
Proof.
  unfold copy_options, bind, ResolvedOptions_init, new_object, get_randgen, ret. simpl.
  destruct (attr_get (randgen w ++ [None]) (oid o)); simpl; eexists _, _; split; reflexivity.
Qed.

(** The filler with any helper whose [ellipse] returns, for the dots of
    the options [o], once the loop budget reaches [budget]. *)
Section DotFiller.
Context `{MathLib} `{RenderHelper}.
Variable drawn : Q -> Q -> Q -> Q -> list Op -> Prop.
Variables (o : ResolvedOptions) (budget : nat).
Hypothesis helper_draws :
  forall cx cy,
    returns_from unit_entropy budget
      (helper_ellipse cx cy (dot_weight o) (dot_weight o) o)
      (fun el => drawn cx cy (dot_weight o) (dot_weight o) (ops el)).

Lemma place_dot_spec (x minY offset gap ro : Q) (acc : list Op) (i : nat) :
  0 <= ro ->
  returns_from unit_entropy budget (place_dot x minY offset gap (dot_weight o) ro o acc i)
    (fun l => exists dot cx cy,
       l = acc ++ dot
       /\ drawn cx cy (dot_weight o) (dot_weight o) dot
       /\ x - ro <= cx /\ cx <= x + ro
       /\ Qabs (cy - (minY + offset + inject_Z (Z.of_nat i) * gap)) <= ro).
Proof.
  intro Hro. unfold place_dot. cbv zeta.
  eapply returns_from_bind; [apply returns_from_returns, random_random_unit|].
  intros u [U0 U1].
  eapply returns_from_bind; [apply returns_from_returns, random_random_unit|].
  intros v [V0 V1].
  eapply returns_from_bind; [apply helper_draws|]. intros el Hel.
  apply returns_from_ret. eexists _, _, _. split; [reflexivity|]. split; [exact Hel|].
  destruct (jitter_between x ro u Hro U0 U1) as [L U].
  split; [exact L|]. split; [exact U|]. apply jitter_within; assumption.
Qed.

Lemma dots_loop (x minY offset gap ro : Q) :
  0 <= ro ->
  forall (indices : list nat) (acc : list Op),
    returns_from unit_entropy budget
      (for_each indices (place_dot x minY offset gap (dot_weight o) ro o) acc)
      (fun l => exists dots : list (list Op),
         l = acc ++ concat dots
         /\ Forall2 (fun i dot =>
                       exists cx cy,
                         drawn cx cy (dot_weight o) (dot_weight o) dot
                         /\ x - ro <= cx /\ cx <= x + ro
                         /\ Qabs (cy - (minY + offset + inject_Z (Z.of_nat i) * gap)) <= ro)
                    indices dots).
Proof.
  intros Hro indices. induction indices as [|i indices IH]; intro acc; cbn [for_each].
  - apply returns_from_ret. exists []. cbn [concat]. rewrite app_nil_r.
    split; [reflexivity|constructor].
  - eapply returns_from_bind; [apply place_dot_spec, Hro|].
    intros l (dot & cx & cy & El & Hd & Hx & Hx' & Hy). subst l.
    eapply returns_from_weaken; [apply IH|].
    intros l (dots & El & Hdots).
    exists (dot :: dots). cbn [concat].
    split; [rewrite El, app_assoc; reflexivity|].
    constructor; [exists cx, cy; auto|exact Hdots].
Qed.

Lemma dots_on_line_spec (gap : Q) (acc : list Op) (ln : Line) :
  0 <= gap ->
  returns_from unit_entropy budget (dots_on_line gap (dot_weight o) (gap / 4) o acc ln)
    (fun l => exists part,
       l = acc ++ part /\ line_dotted drawn gap (dot_weight o) ln part).
Proof.
  intro Hg. unfold dots_on_line. cbv zeta. rewrite dot_count_code, Nat2Z.id.
  assert (Hq : 0 <= gap / 4) by (apply Qle_shift_div_l; [reflexivity|lra]).
  eapply returns_from_weaken; [apply dots_loop, Hq|].
  intros l (dots & El & Hdots).
  exists (concat dots). split; [exact El|].
  exists dots. split; [reflexivity|].
  eapply Forall2_impl; [|exact Hdots].
  intros i dot (cx & cy & Hd & Hx & Hx' & Hy). exists cx, cy.
  unfold dot_ideal. cbv zeta. cbn [fst snd].
  assert (E1 : (fst (fst ln) + fst (snd ln)) * (5 # 10) - gap * (25 # 100) - gap / 4
               == (fst (fst ln) + fst (snd ln)) / 2 - gap / 2) by field.
  assert (E2 : (fst (fst ln) + fst (snd ln)) * (5 # 10) - gap * (25 # 100) + gap / 4
               == (fst (fst ln) + fst (snd ln)) / 2) by field.
  rewrite E1 in Hx. rewrite E2 in Hx'. auto.
Qed.

Lemma dots_on_lines_spec (gap : Q) :
  0 <= gap ->
  forall (lines : list Line) (acc : list Op),
    returns_from unit_entropy budget
      (for_each lines (dots_on_line gap (dot_weight o) (gap / 4) o) acc)
      (fun l => exists parts,
         l = acc ++ concat parts
         /\ Forall2 (line_dotted drawn gap (dot_weight o)) lines parts).
Proof.
  intros Hg lines. induction lines as [|ln lines IH]; intro acc; cbn [for_each].
  - apply returns_from_ret. exists []. cbn [concat]. rewrite app_nil_r.
    split; [reflexivity|constructor].
  - eapply returns_from_bind; [apply dots_on_line_spec, Hg|].
    intros l (part & El & Hp). subst l.
    eapply returns_from_weaken; [apply IH|].
    intros l (parts & El & Hparts).
    exists (part :: parts). cbn [concat].
    split; [rewrite El, app_assoc; reflexivity|]. constructor; assumption.
Qed.

Lemma _dotsOnLines_spec (lines : list Line) :
  returns_from unit_entropy budget (_dotsOnLines lines o)
    (fun s => type_ s = fillSketchSet
              /\ lines_dotted drawn (hachure_gap o) (dot_weight o) lines (ops s)).
Proof.
  unfold _dotsOnLines. cbv zeta.
  assert (Hg : 0 <= hachure_gap o) by (pose proof (hachure_gap_clamped o); lra).
  eapply returns_from_bind; [apply (dots_on_lines_spec _ Hg lines [])|].
  intros l (parts & El & Hparts). apply returns_from_ret. split; [reflexivity|].
  exists parts. split; [exact El|exact Hparts].
Qed.

End DotFiller.

(** The places of the dots are on a vertical segment, between its ends
    and [gap] apart. *)
Lemma dot_ideal_on_segment `{MathLib} (gap x y1 y2 : Q) (i : nat) :
  0 < gap -> y1 <= y2 -> line_length ((x, y1), (x, y2)) == y2 - y1 ->
  (i < dot_count gap ((x, y1), (x, y2)))%nat ->
  fst (dot_ideal gap ((x, y1), (x, y2)) i) == x
  /\ y1 <= snd (dot_ideal gap ((x, y1), (x, y2)) i)
  /\ snd (dot_ideal gap ((x, y1), (x, y2)) i) <= y2 - gap
  /\ snd (dot_ideal gap ((x, y1), (x, y2)) (S i))
     == snd (dot_ideal gap ((x, y1), (x, y2)) i) + gap.
Proof.
  intros Hg Hy HL Hi. unfold dot_ideal. cbv zeta. cbn [fst snd].
  set (ln := ((x, y1), (x, y2))) in *. set (L := line_length ln) in *.
  assert (Em : Qmin y1 y2 == y1).
  { unfold Qmin. destruct (Qltb y2 y1) eqn:C; [apply Qltb_lt in C; lra|reflexivity]. }
  pose proof Hi as Hc. unfold dot_count in Hc. fold L in Hc.
  set (c := math_ceil (L / gap)) in *.
  assert (Hc1 : (1 <= c - 1)%Z) by lia.
  assert (Ec : inject_Z (Z.of_nat (dot_count gap ln)) == inject_Z c - 1).
  { unfold dot_count. fold L. fold c. rewrite Z2Nat.id by lia.
    rewrite Z.max_r by lia. unfold Zminus. rewrite inject_Z_plus. reflexivity. }
  assert (Hceil : inject_Z c - 1 < L / gap).
  { pose proof (Qceiling_lt (L / gap)) as T. fold (math_ceil (L / gap)) in T. fold c in T.
    unfold Zminus in T. rewrite inject_Z_plus in T. exact T. }
  assert (Hc' : (inject_Z c - 1) * gap < L).
  { assert (T : L == L / gap * gap) by (field; lra). rewrite T.
    apply Qmult_lt_compat_r; assumption. }
  assert (Ii : inject_Z (Z.of_nat i) + 1 <= inject_Z c - 1).
  { rewrite <- Ec. change 1 with (inject_Z 1). rewrite <- inject_Z_plus, <- Zle_Qle. lia. }
  assert (I0 : 0 <= inject_Z (Z.of_nat i)).
  { change 0 with (inject_Z 0). rewrite <- Zle_Qle. lia. }
  assert (Si : inject_Z (Z.of_nat (S i)) == inject_Z (Z.of_nat i) + 1).
  { rewrite Nat2Z.inj_succ. unfold Z.succ. rewrite inject_Z_plus. reflexivity. }
  rewrite Em, Ec, Si, HL.
  set (n := inject_Z (Z.of_nat i)) in *. set (k := inject_Z c - 1) in *.
  rewrite HL in Hc'. clearbody n k.
  assert (P1 : 0 <= n * gap) by (apply Qmult_le_0_compat; lra).
  assert (P2 : (n + 1) * gap <= k * gap) by (apply Qmult_le_compat_r; lra).
  split; [field|]. split; [lra|]. split; [lra|ring].
Qed.

Section RealDotFiller.
Context `{MathLib}.
Hypothesis pi_at_least_3 : 3 <= math_pi.

(** C5, as the code has it.  For a fill of style [dots], where the floats
    of the sweeps resolve their steps, the filler runs the scan-line
    hachure on a copy of the options with the hachure angle set to 0 and,
    along each resulting segment of length [L], draws exactly
    [max(0, ceil(L / gap) - 1)] ellipses of width and height [fillWeight]
    (so the dots have diameter [fillWeight]); dot [i] is centred at most
    [gap / 2] to the left of its place on the segment and at most
    [gap / 4] above or below it. *)
Theorem dot_filler_places_dots (polygonList : list (list Point))
    (o : ResolvedOptions) (fuel : nat) (w : World) :
  fillStyle o = Some "dots"%string ->
  unit_entropy w ->
  Forall (polygon_resolved (set_hachureAngle (Some 0) o)) polygonList ->
  ellipse_resolved (dot_weight o) (dot_weight o) o ->
  (hachure_budget (set_hachureAngle (Some 0%Q) o) polygonList <= fuel)%nat ->
  (ellipse_budget (dot_weight o) (dot_weight o) o <= fuel)%nat ->
  exists w1 lines s w',
    polygon_hachure_lines polygonList (set_hachureAngle (Some 0) o) fuel w1 = Ret lines w1
    /\ patternFillPolygons polygonList o fuel w = Ret s w'
    /\ type_ s = fillSketchSet
    /\ lines_dotted (ellipse_drawn o) (hachure_gap o) (dot_weight o) lines (ops s).
Proof.
  intros Hs Hw Hp He Hfuel Hfuel'.
  destruct (copy_options_returns o fuel w) as (i & w1 & Ec & Ee).
  destruct (polygon_hachure_lines_returns polygonList (set_hachureAngle (Some 0) o)
              fuel w1 Hp Hfuel) as (lines & El).
  assert (Hw1 : unit_entropy w1) by (intro n; rewrite Ee; apply Hw).
  assert (Hd : forall cx cy,
             returns_from unit_entropy (ellipse_budget (dot_weight o) (dot_weight o) o)
               (helper_ellipse (RenderHelper := RenderHelperImpl)
                  cx cy (dot_weight o) (dot_weight o) o)
               (fun el => ellipse_drawn o cx cy (dot_weight o) (dot_weight o) (ops el))).
  { intros cx cy f w0 Hf Pw0. cbn [helper_ellipse RenderHelperImpl].
    destruct (ellipse_returns_from pi_at_least_3 cx cy (dot_weight o) (dot_weight o) o
                He f w0 Hf Pw0) as (el & w2 & E & _ & Pw2).
    exists el, w2. split; [exact E|]. split; [|exact Pw2].
    exists f, w0, el, w2. split; [exact E|reflexivity]. }
  destruct (_dotsOnLines_spec (H0 := RenderHelperImpl) (ellipse_drawn o) o _ Hd lines
              fuel w1 Hfuel' Hw1) as (s & w' & Es & (Ht & Hl) & _).
  exists w1, lines, s, w'. split; [exact El|]. split; [|split; assumption].
  unfold patternFillPolygons, fillPolygons. rewrite Hs. cbv zeta.
  cbn [String.eqb Ascii.eqb Bool.eqb].
  unfold Dot_fillPolygons, bind. rewrite Ec. cbn [fields oid].
  rewrite El. exact Es.
Qed.

End RealDotFiller.

Lemma dot_filler_places_dots_witness :
  exists w1 lines s w',
    polygon_hachure_lines (H := RationalMath) [mid_vertex_triangle]
      (set_hachureAngle (Some 0) dots_fill_options) 200%nat w1 = Ret lines w1
    /\ patternFillPolygons (H := RationalMath) [mid_vertex_triangle]
         dots_fill_options 200%nat (one_object_world (fun _ => 0)) = Ret s w'
    /\ type_ s = fillSketchSet
    /\ lines_dotted (H := RationalMath) (ellipse_drawn (H := RationalMath) dots_fill_options)
         (hachure_gap dots_fill_options) (dot_weight dots_fill_options) lines (ops s).
Proof.
  apply (dot_filler_places_dots (H := RationalMath) rational_pi_at_least_3).
  - reflexivity.
  - intro n. split; [apply Qle_refl|reflexivity].
  - constructor; [vm_compute; reflexivity|constructor].
  - unfold ellipse_resolved. repeat split; vm_compute; discriminate.
  - apply Nat.leb_le. vm_compute. reflexivity.
  - apply Nat.leb_le. vm_compute. reflexivity.
Defined.

(** C5 as stated fails on the size of the dots and on their distance from
    the segment: with gap 4 and fill weight 1 the dots of a segment of
    length 10 are drawn with width and height 1, not with radius
    [gap / 4 = 1], and when [random.random()] returns 0 the first one is
    centred 2 to the left of the segment, twice [gap / 4].  (The helper
    records the arguments of [ellipse].) *)
Lemma dots_differ_in_size_and_place :
  exists cx cy w1 h1 rest w',
    _dotsOnLines (H := RationalMath) (H0 := RecordingHelper) [dots_example_line]
      dots_example_options 0%nat (one_object_world (fun _ => 0))
      = Ret (mkOpSet fillSketchSet (mkOp move [cx; cy; w1; h1] :: rest)) w'
    /\ hachure_gap dots_example_options == 4
    /\ w1 == 1 /\ h1 == 1
    /\ ~ w1 / 2 == hachure_gap dots_example_options / 4
    /\ fst (dot_ideal (H := RationalMath) 4 dots_example_line 0) == 0
    /\ cx == - (2)
    /\ ~ Qabs (cx - fst (dot_ideal (H := RationalMath) 4 dots_example_line 0))
         <= hachure_gap dots_example_options / 4.
Proof.
  eexists _, _, _, _, _, _. split; [vm_compute; reflexivity|].
  repeat (split; [vm_compute; reflexivity|]).
  split; [intro E; vm_compute in E; discriminate E|].
  repeat (split; [vm_compute; reflexivity|]).
  intro E. vm_compute in E. apply E. reflexivity.
Qed.

(** The jitter of the dots comes from [random.random()], not from the
    seeded source of the options: with the same seed, two different
    process-wide sources give different dots. *)
Lemma dots_follow_the_unseeded_source :
  exists l1 l2 w1 w2,
    _dotsOnLines (H := RationalMath) (H0 := RecordingHelper) [dots_example_line]
      dots_example_options 0%nat (one_object_world (fun _ => 0))
      = Ret (mkOpSet fillSketchSet l1) w1
    /\ _dotsOnLines (H := RationalMath) (H0 := RecordingHelper) [dots_example_line]
         dots_example_options 0%nat (one_object_world (fun _ => 1 # 2))
         = Ret (mkOpSet fillSketchSet l2) w2
    /\ l1 <> l2.
Proof.
  eexists _, _, _, _. split; [vm_compute; reflexivity|]. split; [vm_compute; reflexivity|].
  intro E. discriminate E.
Qed.

Section ArcSweep.
Context `{MathLib}.
Hypothesis pi_not_negative : 0 <= math_pi.

(** The normalisation of the angles keeps an empty sweep empty. *)
Lemma normalize_angles_empty_sweep (a : Q) :
  post (normalize_angles a a) (fun p => snd p == fst p).
Proof.
  unfold normalize_angles.
  eapply post_bind with (Q := fun p : Q * Q => snd p == fst p).
  - apply post_while; [|reflexivity].
    intros [s t] E. apply post_ret. cbn [fst snd] in *. rewrite E. reflexivity.
  - intros [strt stp] E. cbn [fst snd] in E.
    destruct (Qltb (math_pi * 2) (stp - strt)) eqn:C.
    + apply Qltb_lt in C. rewrite E in C. lra.
    + apply post_ret. exact E.
Qed.

(** X19. [patternFillArc] never returns for an arc whose start and stop
    angles are equal: the step of its sweep is then 0, so the loop that
    collects the points of the perimeter does not advance (with a
    [curveStepCount] of 0 the division raises before that).  It holds
    for every budget of loop iterations and every state of the random
    sources, [math.pi] not being negative. *)
Theorem patternFillArc_empty_sweep_never_returns (x y width height a : Q)
    (o : ResolvedOptions) (fuel : nat) (w : World) (s : OpSet) (w' : World) :
  patternFillArc x y width height a a o fuel w <> Ret s w'.
Proof.
  intro E. revert E.
  change (patternFillArc x y width height a a o fuel w = Ret s w' -> (fun _ => False) s).
  revert fuel w s w'.
  change (post (patternFillArc x y width height a a o) (fun _ => False)).
  unfold patternFillArc. cbv zeta.
  eapply post_bind; [apply post_any|]. intros dx _.
  eapply post_bind; [apply post_any|]. intros dy _.
  eapply post_bind; [apply normalize_angles_empty_sweep|]. intros [strt stp] E.
  cbn [fst snd] in E.
  eapply post_bind with (Q := fun inc => inc == 0).
  { unfold pydiv. destruct (Qeqb _ 0) eqn:Z; [apply post_raise|].
    apply post_ret. rewrite E. unfold Qdiv. ring. }
  intros inc Ei.
  eapply post_bind with (Q := fun _ => False); [|intros ? []].
  apply while_never_exits with (Inv := fun st : Q * list Point => fst st == strt).
  - intros [angle pts] Ea. cbn [fst] in *. apply Qleb_le. rewrite Ea, E. lra.
  - intros [angle pts] Ea. apply post_ret. cbn [fst] in *. rewrite Ea, Ei. ring.
  - reflexivity.
Qed.

End ArcSweep.

Lemma patternFillArc_empty_sweep_never_returns_witness :
  0 <= math_pi (MathLib := RationalMath)
  /\ patternFillArc (H := RationalMath) 0 0 10 10 1 1 (seeded_defaults 1) 50%nat
       (one_object_world (fun _ => 0))
     <> Ret (mkOpSet fillSketchSet []) (one_object_world (fun _ => 0)).
Proof.
  assert (P : 0 <= math_pi (MathLib := RationalMath)) by (vm_compute; discriminate).
  split; [exact P|].
  apply (patternFillArc_empty_sweep_never_returns (H := RationalMath) P).
Defined.

(** ** The outline sampled from a path *)

Lemma between_ends (lo hi c x t : Q) :
  0 <= t -> t <= 1 -> lo <= c -> c <= hi -> lo <= x -> x <= hi ->
  lo <= c + t * (x - c) /\ c + t * (x - c) <= hi.
Proof. intros. split; nra. Qed.

Lemma between_control_points (lo hi x0 x1 x2 x3 t : Q) :
  0 <= t -> t <= 1 ->
  lo <= x0 -> x0 <= hi -> lo <= x1 -> x1 <= hi ->
  lo <= x2 -> x2 <= hi -> lo <= x3 -> x3 <= hi ->
  let mt := 1 - t in
  let a := mt * (mt * mt) in
  let b := 3 * (mt * mt) * t in
  let c := 3 * mt * (t * t) in
  let d := t * (t * t) in
  lo <= a * x0 + b * x1 + c * x2 + d * x3 /\ a * x0 + b * x1 + c * x2 + d * x3 <= hi.
Proof.
  intros T0 T1 L0 H0 L1 H1 L2 H2 L3 H3 mt a b c d.
  assert (M0 : 0 <= mt) by (unfold mt; lra).
  assert (A : 0 <= a) by (unfold a; repeat apply Qmult_le_0_compat; assumption).
  assert (B : 0 <= b) by (unfold b; repeat apply Qmult_le_0_compat; try assumption; lra).
  assert (C : 0 <= c) by (unfold c; repeat apply Qmult_le_0_compat; try assumption; lra).
  assert (D : 0 <= d) by (unfold d; repeat apply Qmult_le_0_compat; assumption).
  assert (S : a + b + c + d == 1) by (unfold a, b, c, d, mt; ring).
  clearbody a b c d. clear M0 T0 T1 mt.
  assert (Sl : a * lo + b * lo + c * lo + d * lo == lo)
    by (setoid_replace lo with (1 * lo) at 5 by ring; rewrite <- S; ring).
  assert (Sh : a * hi + b * hi + c * hi + d * hi == hi)
    by (setoid_replace hi with (1 * hi) at 5 by ring; rewrite <- S; ring).
  split; nra.
Qed.

Lemma steps_from_one_unit (steps : Z) (s : Q) :
  (0 < steps)%Z -> In s (steps_from_one steps) ->
  0 <= s / inject_Z steps /\ s / inject_Z steps <= 1.
Proof.
  intros Hp Hin. unfold steps_from_one in Hin. apply in_map_iff in Hin.
  destruct Hin as (k & <- & Hk). apply in_seq in Hk.
  assert (P : 0 < inject_Z steps) by (change 0 with (inject_Z 0); rewrite <- Zlt_Qlt; lia).
  assert (K0 : 0 <= inject_Z (Z.of_nat k))
    by (change 0 with (inject_Z 0); rewrite <- Zle_Qle; lia).
  assert (K1 : inject_Z (Z.of_nat k) <= inject_Z steps) by (rewrite <- Zle_Qle; lia).
  split.
  - apply Qle_shift_div_l; [exact P|]. lra.
  - apply Qle_shift_div_r; [exact P|]. lra.
Qed.

Section SampledOutline.
Context `{MathLib}.

Lemma sample_step_in_box (lo hi : Point) (st : Point * list Point) (a : Op) :
  well_formed a -> op_in_box lo hi a ->
  in_box lo hi (fst st) -> Forall (in_box lo hi) (snd st) ->
  in_box lo hi (fst (sample_step st a)) /\ Forall (in_box lo hi) (snd (sample_step st a)).
Proof.
  destruct st as [[cx cy] pts]. destruct a as [k d].
  unfold well_formed, op_in_box. cbn [op data fst snd].
  intros Hw Hb Hc Hp. unfold sample_step. cbn [op data].
  destruct k.
  - destruct d as [|nx [|ny [|? ?]]]; try discriminate Hw.
    cbn [data_points] in Hb. apply Forall_inv in Hb. cbn [nth fst snd].
    split; [exact Hb|]. apply Forall_app. split; [exact Hp|]. constructor; [exact Hb|constructor].
  - destruct d as [|x [|y [|? ?]]]; try discriminate Hw.
    cbn [data_points] in Hb. apply Forall_inv in Hb. cbn [nth fst snd].
    split; [exact Hb|]. apply Forall_app. split; [exact Hp|].
    apply Forall_forall. intros p Hin. apply in_map_iff in Hin.
    destruct Hin as (s & <- & Hs).
    apply steps_from_one_unit in Hs; [|lia]. destruct Hs as [T0 T1].
    destruct Hb as [[? ?] [? ?]], Hc as [[? ?] [? ?]]. cbn [fst snd] in *.
    split; cbn [fst snd]; apply between_ends; assumption.
  - destruct d as [|x1 [|y1 [|x2 [|y2 [|x3 [|y3 [|? ?]]]]]]]; try discriminate Hw.
    cbn [data_points] in Hb.
    pose proof (Forall_inv Hb) as B1. apply Forall_inv_tail in Hb.
    pose proof (Forall_inv Hb) as B2. apply Forall_inv_tail in Hb.
    pose proof (Forall_inv Hb) as B3. clear Hb.
    unfold six. cbn [nth fst snd].
    split; [exact B3|]. apply Forall_app. split; [exact Hp|].
    apply Forall_forall. intros p Hin. apply in_map_iff in Hin.
    destruct Hin as (s & <- & Hs).
    apply (steps_from_one_unit 20) in Hs; [|lia]. destruct Hs as [T0 T1].
    change (inject_Z 20) with 20 in T0, T1.
    destruct B1 as [[? ?] [? ?]], B2 as [[? ?] [? ?]], B3 as [[? ?] [? ?]],
             Hc as [[? ?] [? ?]]. cbn [fst snd] in *.
    unfold _pointOnCubic. cbv zeta.
    split; cbn [fst snd]; apply between_control_points; assumption.
Qed.

(** X20. The outline that [_sampleSubpathAll] samples from the
    operations of a path stays inside every axis-parallel box that holds
    the points of the operations: the points taken on a line lie between
    its ends and those taken on a cubic curve between its control
    points. *)
Theorem sampled_outline_in_box (lo hi : Point) (ops_ : list Op) :
  Forall well_formed ops_ -> Forall (op_in_box lo hi) ops_ ->
  Forall (in_box lo hi) (_sampleSubpathAll ops_).
Proof.
  intros Hw Hb. unfold _sampleSubpathAll. destruct ops_ as [|o0 rest]; [constructor|].
  cbv zeta.
  pose proof (Forall_inv Hw) as W0. pose proof (Forall_inv Hb) as B0.
  apply Forall_inv_tail in Hw. apply Forall_inv_tail in Hb.
  assert (C0 : in_box lo hi (nth 0 (data o0) 0, nth 1 (data o0) 0)).
  { unfold well_formed in W0. unfold op_in_box in B0.
    destruct (data o0) as [|x [|y ?]]; [destruct (op o0); discriminate W0..|].
    cbn [data_points] in B0. apply Forall_inv in B0. exact B0. }
  set (c := (nth 0 (data o0) 0, nth 1 (data o0) 0)) in *.
  assert (G : forall st,
             in_box lo hi (fst st) -> Forall (in_box lo hi) (snd st) ->
             Forall (in_box lo hi) (snd (fold_left sample_step rest st))).
  { clear W0 B0 C0 c.
    induction rest as [|a rest IH]; intros st Hc Hp; cbn [fold_left]; [exact Hp|].
    pose proof (Forall_inv Hw) as Wa. pose proof (Forall_inv Hb) as Ba.
    destruct (sample_step_in_box lo hi st a Wa Ba Hc Hp) as [Hc' Hp'].
    apply IH; [exact (Forall_inv_tail Hw)|exact (Forall_inv_tail Hb)|exact Hc'|exact Hp']. }
  apply G; [exact C0|]. constructor; [exact C0|constructor].
Qed.

End SampledOutline.

Lemma sampled_outline_in_box_witness :
  Forall (in_box (0, 0) (10, 10))
    (_sampleSubpathAll (H := RationalMath)
       [mkOp move [0; 0]; mkOp lineTo [10; 0]; mkOp bcurveTo [10; 5; 5; 10; 0; 10]]).
Proof.
  apply (sampled_outline_in_box (H := RationalMath)).
  - repeat constructor.
  - repeat (constructor; [unfold op_in_box; cbn [data data_points];
                          repeat (constructor; [vm_compute; intuition discriminate|])
                         |]); constructor.
Defined.
